(** * Flora: low-rank moment estimation, optimizer chains and batching

    A shallow embedding of [src/optimizers/optax/flora.py],
    [src/optimizers/optax/adafactor.py] and [src/data/utils.py].

    Python exceptions are values of an error monad, JAX arrays are records
    of a shape and a row-major list of scalars, pytrees are the lists of
    their leaves, and PRNG keys are an abstract type with the splitting
    primitives taken as parameters. *)

From Stdlib Require Import String.
From Stdlib Require Import List Arith ZArith QArith Bool Lia.
Import ListNotations.

Close Scope Q_scope.
Open Scope nat_scope.

Set Implicit Arguments.

(* ------------------------------------------------------------------ *)
(** ** Exceptions *)

Inductive error : Type :=
| ValueError
| TypeError
| AttributeError
| ZeroDivisionError
| IndexError
| Unsupported.

Inductive result (A : Type) : Type :=
| Ok (a : A)
| Err (e : error).

Arguments Ok {A} a.
Arguments Err {A} e.

Definition bind {A B : Type} (m : result A) (k : A -> result B) : result B :=
  match m with
  | Ok a => k a
  | Err e => Err e
  end.

Declare Scope result_scope.
Delimit Scope result_scope with result.
Notation "x <- m ;; k" := (bind m (fun x => k))
  (at level 61, m at next level, right associativity) : result_scope.
Notation "' p <- m ;; k" := (bind m (fun x => match x with p => k end))
  (at level 61, p pattern, m at next level, right associativity) : result_scope.
Open Scope result_scope.

Definition is_ok {A : Type} (m : result A) : bool :=
  match m with Ok _ => true | Err _ => false end.

(** [[f(x) for x in xs]] where [f] may raise. *)
Fixpoint mapM {A B : Type} (f : A -> result B) (xs : list A) : result (list B) :=
  match xs with
  | [] => Ok []
  | x :: xs' => y <- f x ;; ys <- mapM f xs' ;; Ok (y :: ys)
  end.

(* ------------------------------------------------------------------ *)
(** ** Batching: [src/data/utils.py] *)

Module Loader.

(** [ary[st:en]] for [0 <= st], [0 <= en]. *)
Definition slice {A : Type} (st en : nat) (ary : list A) : list A :=
  firstn (en - st) (skipn st ary).

(** The sections of the given sizes, cut off the front of [ary] one after
    another: what slicing at the running sums amounts to. *)
Fixpoint chunks {A : Type} (sizes : list nat) (ary : list A) : list (list A) :=
  match sizes with
  | [] => []
  | s :: sizes' => firstn s ary :: chunks sizes' (skipn s ary)
  end.

(** [numpy.cumsum]. *)
Fixpoint cumsum_from (acc : nat) (xs : list nat) : list nat :=
  match xs with
  | [] => []
  | x :: xs' => (acc + x) :: cumsum_from (acc + x) xs'
  end.

Definition cumsum (xs : list nat) : list nat := cumsum_from 0 xs.

(** [numpy.array_split(ary, Nsections)] along axis 0: the first
    [Ntotal mod Nsections] sections hold [Ntotal / Nsections + 1] elements,
    the others [Ntotal / Nsections]; a section count of 0 is a ValueError. *)
Definition array_split {A : Type} (ary : list A) (Nsections : nat)
  : result (list (list A)) :=
  if Nsections =? 0 then Err ValueError
  else
    let Ntotal := length ary in
    let Neach_section := Ntotal / Nsections in
    let extras := Ntotal mod Nsections in
    let section_sizes :=
      [0] ++ repeat (Neach_section + 1) extras
          ++ repeat Neach_section (Nsections - extras) in
    let div_points := cumsum section_sizes in
    Ok (map (fun i => slice (nth i div_points 0) (nth (i + 1) div_points 0) ary)
            (seq 0 Nsections)).

(** [ary.reshape((rows, cols))] of a one-dimensional array, as its rows. *)
Definition reshape_rows {A : Type} (ary : list A) (rows cols : nat)
  : result (list (list A)) :=
  if length ary =? rows * cols
  then Ok (map (fun i => slice (i * cols) ((i + 1) * cols) ary) (seq 0 rows))
  else Err ValueError.

(** [math.ceil(n / d)]. *)
Definition ceil_div (n d : nat) : result nat :=
  if d =? 0 then Err ZeroDivisionError
  else Ok ((n + d - 1) / d).

(** [n // d]. *)
Definition floor_div (n d : nat) : result nat :=
  if d =? 0 then Err ZeroDivisionError
  else Ok (n / d).

Section DataLoader.
Variable Key : Type.
Variable V : Type.
(** [jax.random.permutation(rng, n)]. *)
Variable permutation : Key -> nat -> list nat.

(** A dataset: its number of rows and its columns by field name. *)
Record Dataset : Type := mkDataset {
  num_rows : nat;
  columns : list (string * list V)
}.

Definition Batch : Type := list (string * list V).

(** [dataset[idx]] for an index array. *)
Definition getitem (dataset : Dataset) (idx : list nat) : result Batch :=
  mapM (fun kv : string * list V =>
          vs <- mapM (fun i => match nth_error (snd kv) i with
                               | Some v => Ok v
                               | None => Err IndexError
                               end) idx ;;
          Ok (fst kv, vs))
       (columns dataset).

(** The index array of every batch, lines 19-31 of [data_loader]. *)
Definition batch_indices (rng : Key) (len_dataset batch_size : nat)
           (shuffle drop_last : bool) : result (list (list nat)) :=
  let batch_idx :=
    if shuffle then permutation rng len_dataset else seq 0 len_dataset in
  if drop_last then
    steps_per_epoch <- floor_div len_dataset batch_size ;;
    let batch_idx := firstn (steps_per_epoch * batch_size) batch_idx in
    reshape_rows batch_idx steps_per_epoch batch_size
  else
    steps_per_epoch <- ceil_div len_dataset batch_size ;;
    array_split batch_idx steps_per_epoch.

(** [np.array(v)] of a sequence of values: the array of those values,
    which the embedding writes as their list. *)
Definition np_array (v : list V) : list V := v.

(** [{k: np.array(v) for k, v in batch.items()}], line 37. *)
Definition to_arrays (batch : Batch) : Batch :=
  map (fun kv : string * list V => (fst kv, np_array (snd kv))) batch.

(** The batches the generator yields, in order. *)
Definition data_loader (rng : Key) (dataset : Dataset) (batch_size : nat)
           (shuffle drop_last : bool) (transform_fn : option (Batch -> Batch))
  : result (list Batch) :=
  batch_idx <- batch_indices rng (num_rows dataset) batch_size shuffle drop_last ;;
  mapM (fun idx =>
          batch <- getitem dataset idx ;;
          let batch := match transform_fn with
                       | Some f => f batch
                       | None => batch
                       end in
          Ok (to_arrays batch))
       batch_idx.

(** The number of rows of a batch: the length of each of its arrays. *)
Definition batch_sizes (b : Batch) : list nat :=
  map (fun kv : string * list V => length (snd kv)) b.

End DataLoader.

(** A ten-row dataset with the single field [x] holding 0..9. *)
Definition ten_rows : Dataset nat :=
  mkDataset 10 [("x"%string, seq 0 10)].

End Loader.

(* ------------------------------------------------------------------ *)
(** ** The factorization policy of [scale_by_flora] *)

Module Policy.

(** [max(shape)] and [min(shape)] of a shape tuple. *)
Definition shape_max (shape : list nat) : nat := fold_right Nat.max 0 shape.

Definition shape_min (shape : list nat) : nat :=
  match shape with
  | [] => 0
  | d :: ds => fold_right Nat.min d ds
  end.

(** [should_factorize], lines 144-153; [params.ndim] is [len(params.shape)]. *)
Definition should_factorize (factored : bool) (min_dim_size_to_factor : nat)
           (shape : list nat) : bool :=
  if negb factored then false
  else if negb (length shape =? 2) then false
  else if shape_min shape * 16 <? shape_max shape then false
  else min_dim_size_to_factor <=? shape_min shape.

(** The default of [min_dim_size_to_factor]. *)
Definition default_min_dim_size_to_factor : nat := 128.

(** The aspect ratio [max(shape) / min(shape)] as a rational. *)
Definition aspect_ratio (shape : list nat) : Q :=
  (inject_Z (Z.of_nat (shape_max shape)) / inject_Z (Z.of_nat (shape_min shape)))%Q.

End Policy.

(* ------------------------------------------------------------------ *)
(** ** The transformation chains of [flora] and [adafactor] *)

Module Chain.

(** A computation that may raise, together with the indices of the update
    functions it has invoked so far, in order. *)
Definition Traced (A : Type) : Type := (list nat * result A)%type.

Definition ret {A : Type} (a : A) : Traced A := ([], Ok a).

Definition raise {A : Type} (e : error) : Traced A := ([], Err e).

(** The call of update function number [i]. *)
Definition call {A : Type} (i : nat) (r : result A) : Traced A := ([i], r).

Definition bindT {A B : Type} (m : Traced A) (k : A -> Traced B) : Traced B :=
  match m with
  | (log, Ok a) => let (log', r) := k a in (log ++ log', r)
  | (log, Err e) => (log, Err e)
  end.

(** [xs[i]]. *)
Definition getitem {A : Type} (xs : list A) (i : nat) : Traced A :=
  match nth_error xs i with
  | Some x => ret x
  | None => raise IndexError
  end.

Notation "x <~ m ;; k" := (bindT m (fun x => k))
  (at level 61, m at next level, right associativity).
Notation "' p <~ m ;; k" := (bindT m (fun x => match x with p => k end))
  (at level 61, p pattern, m at next level, right associativity).

Section Chains.
(** Gradient trees, parameter trees, the state of one transform, the
    keyword arguments [**extra_args] and hyperparameter values. *)
Variables Updates Params TState Extra Hyper : Type.

(** A positional argument after [params]. *)
Inductive PosArg : Type :=
| ArgUpdates (updates : Updates)
| ArgFlag (query_only : bool).

(** [optax.GradientTransformation]: [init(params)] and
    [update(updates, state, params, *args, **extra_args)]. *)
Record GradientTransformation : Type := mkGT {
  init : Params -> result TState;
  update : Updates -> TState -> option Params -> list PosArg -> Extra
           -> result (Updates * TState)
}.

Definition UpdateFn : Type :=
  Updates -> TState -> option Params -> list PosArg -> Extra
  -> result (Updates * TState).

(** The transforms the two assemblies are built from: those of optax
    and of [src/optimizers/optax/utils.py], and [scale_by_flora]. *)
Record Library : Type := mkLibrary {
  scale_by_flora : GradientTransformation;
  scale_by_factored_rms : GradientTransformation;
  scale_by_sign : GradientTransformation;
  ema : Hyper -> GradientTransformation;
  clip_by_block_rms : Hyper -> GradientTransformation;
  scale_by_learning_rate : Hyper -> GradientTransformation;
  scale_by_param_block_rms : GradientTransformation;
  add_decayed_weights : Hyper -> GradientTransformation;
  scale_minus_one : GradientTransformation
}.

Variable lib : Library.

(** [tx.append(t)] when [c] holds. *)
Definition append_if (c : bool) (t : GradientTransformation)
           (tx : list GradientTransformation) : list GradientTransformation :=
  if c then tx ++ [t] else tx.

(** [tx.append(f(h))] when the option [o] is not [None]. *)
Definition append_some (o : option Hyper) (f : Hyper -> GradientTransformation)
           (tx : list GradientTransformation) : list GradientTransformation :=
  match o with
  | Some h => tx ++ [f h]
  | None => tx
  end.

(** [init_fn] of both assemblies: [tuple(fn(params) for fn in init_fns)]. *)
Definition init_fn (tx : list GradientTransformation) (params : Params)
  : result (list TState) :=
  let init_fns := map init tx in
  mapM (fun fn => fn params) init_fns.

(** The loop [for s, fn in zip(state[i:], update_fns[i:])]; [i] is the
    index of the first pair. *)
Fixpoint run_rest (i : nat) (pairs : list (TState * UpdateFn))
         (updates : Updates) (new_state : list TState)
         (params : option Params) (extra : Extra)
  : Traced (Updates * list TState) :=
  match pairs with
  | [] => ret (updates, new_state)
  | (s, fn) :: pairs' =>
      '(updates', new_s) <~ call i (fn updates s params [] extra) ;;
      run_rest (S i) pairs' updates' (new_state ++ [new_s]) params extra
  end.

(** What an update of a chain [tx] on the state tuple [state] comes to
    when every transform works on the component of [state] at its own
    position: a returned state tuple has the length of the chain, and an
    exception is that of the transform at some position [i] on the
    component [i] of [state]. *)
Definition positional (tx : list GradientTransformation) (state : list TState)
           (params : option Params) (extra : Extra)
           (r : result (Updates * list TState)) : Prop :=
  match r with
  | Ok (_, new_state) => length new_state = length tx
  | Err e =>
      exists i t s u args,
        nth_error tx i = Some t /\ nth_error state i = Some s
        /\ update t u s params args extra = Err e
  end.

(** *** [flora], lines 68-123 *)

Record FloraOptions : Type := mkFloraOptions {
  f_learning_rate : Hyper;
  f_clipping_threshold : option Hyper;
  f_multiply_by_parameter_scale : bool;
  f_weight_decay : option Hyper
}.

Definition flora_tx (o : FloraOptions) : list GradientTransformation :=
  let tx := [scale_by_flora lib] in
  let tx := tx ++ [scale_by_factored_rms lib] in
  let tx := append_some (f_clipping_threshold o) (clip_by_block_rms lib) tx in
  let tx := tx ++ [scale_by_learning_rate lib (f_learning_rate o)] in
  let tx := append_if (f_multiply_by_parameter_scale o)
                      (scale_by_param_block_rms lib) tx in
  let tx := append_some (f_weight_decay o) (add_decayed_weights lib) tx in
  tx ++ [scale_minus_one lib].

Definition flora_init_fn (o : FloraOptions) (params : Params)
  : result (list TState) :=
  init_fn (flora_tx o) params.

Definition flora_update_fn (o : FloraOptions) (grads : Updates)
           (state : list TState) (params : option Params) (extra : Extra)
  : Traced (Updates * list TState) :=
  let update_fns := map update (flora_tx o) in
  if negb (length update_fns =? length state) then raise ValueError
  else
    let new_state := [] in
    fn0 <~ getitem update_fns 0 ;;
    s0 <~ getitem state 0 ;;
    '(updates, new_s) <~ call 0 (fn0 grads s0 params [] extra) ;;
    let new_state := new_state ++ [new_s] in
    fn1 <~ getitem update_fns 1 ;;
    s1 <~ getitem state 1 ;;
    '(updates, new_s) <~ call 1 (fn1 grads s1 params [ArgUpdates updates] extra) ;;
    let new_state := new_state ++ [new_s] in
    run_rest 2 (combine (skipn 2 state) (skipn 2 update_fns))
             updates new_state params extra.

(** *** [adafactor], lines 28-83 *)

Record AdafactorOptions : Type := mkAdafactorOptions {
  a_learning_rate : option Hyper;
  a_multiply_by_parameter_scale : bool;
  a_clipping_threshold : option Hyper;
  a_momentum : option Hyper;
  a_weight_decay_rate : option Hyper;
  a_sign : bool
}.

Definition adafactor_tx (o : AdafactorOptions) : list GradientTransformation :=
  let tx := [] in
  let tx := append_some (a_momentum o) (ema lib) tx in
  let tx := tx ++ [if a_sign o then scale_by_sign lib
                   else scale_by_factored_rms lib] in
  let tx := append_some (a_clipping_threshold o) (clip_by_block_rms lib) tx in
  let tx := append_some (a_learning_rate o) (scale_by_learning_rate lib) tx in
  let tx := append_if (a_multiply_by_parameter_scale o)
                      (scale_by_param_block_rms lib) tx in
  let tx := append_some (a_weight_decay_rate o) (add_decayed_weights lib) tx in
  tx ++ [scale_minus_one lib].

Definition adafactor_init_fn (o : AdafactorOptions) (params : Params)
  : result (list TState) :=
  init_fn (adafactor_tx o) params.

Definition adafactor_update_fn (o : AdafactorOptions) (grads : Updates)
           (state : list TState) (params : option Params) (query_only : bool)
           (extra : Extra)
  : Traced (Updates * list TState) :=
  let update_fns := map update (adafactor_tx o) in
  if negb (length update_fns =? length state) then raise ValueError
  else
    let new_state := [] in
    match a_momentum o with
    | Some _ =>
        fn0 <~ getitem update_fns 0 ;;
        s0 <~ getitem state 0 ;;
        '(updates, new_s) <~ call 0 (fn0 grads s0 params [] extra) ;;
        let new_state := new_state ++ [new_s] in
        fn1 <~ getitem update_fns 1 ;;
        s1 <~ getitem state 1 ;;
        '(updates, new_s) <~
          call 1 (fn1 grads s1 params [ArgUpdates updates; ArgFlag query_only] extra) ;;
        let new_state := new_state ++ [new_s] in
        let next_idx := 2 in
        run_rest next_idx
                 (combine (skipn next_idx state) (skipn next_idx update_fns))
                 updates new_state params extra
    | None =>
        fn0 <~ getitem update_fns 0 ;;
        s0 <~ getitem state 0 ;;
        '(updates, new_s) <~
          call 0 (fn0 grads s0 params [ArgUpdates grads; ArgFlag query_only] extra) ;;
        let new_state := new_state ++ [new_s] in
        let next_idx := 1 in
        run_rest next_idx
                 (combine (skipn next_idx state) (skipn next_idx update_fns))
                 updates new_state params extra
    end.

End Chains.

End Chain.

(* ------------------------------------------------------------------ *)
(** ** Arrays and random keys *)

(** The scalars of [mu_dtype] arrays with the arithmetic the estimator
    uses.  No law is assumed of them unless a statement says so. *)
Class Scalar (R : Type) : Type := {
  rzero : R;
  rone : R;
  radd : R -> R -> R;
  rsub : R -> R -> R;
  rmul : R -> R -> R;
  rdiv : R -> R -> R;
  (** the literal [n] as a scalar *)
  rnat : nat -> R;
  (** [jnp.sqrt(n)] *)
  rsqrt : nat -> R
}.

(** PRNG keys: [jax.random.PRNGKey], [jax.random.split(key, num)[i]],
    [jax.random.normal] by flat index, and the two key helpers of
    [src/optimizers/optax/utils.py], which flora.py imports:
    [next_rng_key] and, for [random_split_like_tree], the key of leaf [i]
    of a tree with [num] leaves. *)
Class Prng (Key R : Type) : Type := {
  PRNGKey : Z -> Key;
  split : Key -> nat -> nat -> Key;
  normal_at : Key -> list nat -> nat -> R;
  next_rng_key : Key -> Key;
  leaf_key : Key -> nat -> nat -> Key
}.

Module Tensor.

Section Ops.
Context {R : Type} `{Scalar R}.

(** The number of elements of an array of the given shape. *)
Definition numel (shape : list nat) : nat := fold_right Nat.mul 1 shape.

(** An array: its shape and its elements in row-major order. *)
Record tensor : Type := mkTensor {
  shape : list nat;
  data : list R
}.

Definition well_formed (t : tensor) : Prop :=
  length (data t) = numel (shape t).

(** [jnp.zeros(shape)]. *)
Definition zeros (s : list nat) : tensor :=
  mkTensor s (repeat rzero (numel s)).

Definition tmap (f : R -> R) (t : tensor) : tensor :=
  mkTensor (shape t) (map f (data t)).

(** [c * t], [t * c] and [t / c] for a scalar [c]. *)
Definition smul (c : R) (t : tensor) : tensor := tmap (rmul c) t.
Definition muls (t : tensor) (c : R) : tensor := tmap (fun x => rmul x c) t.
Definition divs (t : tensor) (c : R) : tensor := tmap (fun x => rdiv x c) t.

(** Elementwise sum of two arrays of one shape. *)
Definition plus (a b : tensor) : tensor :=
  mkTensor (shape a)
           (map (fun p : R * R => radd (fst p) (snd p)) (combine (data a) (data b))).

(** [a + b].  Operands of different shapes, which jnp broadcasts or
    rejects, are outside the embedding. *)
Definition add (a b : tensor) : result tensor :=
  if list_eq_dec Nat.eq_dec (shape a) (shape b) then Ok (plus a b)
  else Err Unsupported.

(** The transpose of a matrix; arrays of lower rank are their own. *)
Definition T (t : tensor) : tensor :=
  match shape t with
  | [m; n] =>
      mkTensor [n; m]
               (map (fun k => nth ((k mod m) * n + k / m) (data t) rzero)
                    (seq 0 (n * m)))
  | _ => t
  end.

(** [t.T]; the reversal of three or more axes is outside the embedding. *)
Definition transpose (t : tensor) : result tensor :=
  match shape t with
  | _ :: _ :: _ :: _ => Err Unsupported
  | _ => Ok (T t)
  end.

(** Entry [(i, j)] of the product of an [_ x k] by a [k x n] matrix. *)
Definition dot (k n : nat) (a b : list R) (i j : nat) : R :=
  fold_left radd
            (map (fun l => rmul (nth (i * k + l) a rzero) (nth (l * n + j) b rzero))
                 (seq 0 k))
            rzero.

(** The product of an [m x k] by a [k x n] matrix. *)
Definition mm (a b : tensor) : tensor :=
  match shape a, shape b with
  | [m; k], [_; n] =>
      mkTensor [m; n]
               (map (fun idx => dot k n (data a) (data b) (idx / n) (idx mod n))
                    (seq 0 (m * n)))
  | _, _ => a
  end.

(** [a @ b] for matrices; inner dimensions that differ are a TypeError,
    operands of other ranks are outside the embedding. *)
Definition matmul (a b : tensor) : result tensor :=
  match shape a, shape b with
  | [_; k], [k'; _] => if k =? k' then Ok (mm a b) else Err TypeError
  | _, _ => Err Unsupported
  end.

(** The scalar multiplications of the two bracketings of the product of
    an [m x k], a [k x l] and an [l x n] matrix: [(a b) c] and
    [a (b c)]. *)
Definition left_first_cost (m k l n : nat) : nat := m * k * l + m * l * n.
Definition right_first_cost (m k l n : nat) : nat := k * l * n + m * k * n.

(** The product of three matrices in the cheaper of the two bracketings,
    the left one when they cost the same. *)
Definition chain3 (a b c : tensor) : tensor :=
  match shape a, shape b, shape c with
  | [m; k], [_; l], [_; n] =>
      if left_first_cost m k l n <=? right_first_cost m k l n
      then mm (mm a b) c
      else mm a (mm b c)
  | _, _, _ => mm (mm a b) c
  end.

(** [jnp.linalg.multi_dot(arrays)]: the chained product, in the
    bracketing that costs least.  Fewer than two arrays are a ValueError;
    chains of four or more are outside the embedding. *)
Definition multi_dot (arrays : list tensor) : result tensor :=
  match arrays with
  | [] | [_] => Err ValueError
  | [a; b] => matmul a b
  | [a; b; c] =>
      ab <- matmul a b ;;
      _ <- matmul ab c ;;
      Ok (chain3 a b c)
  | _ => Err Unsupported
  end.

(** [x.astype(mu_dtype)]: the embedding has the one scalar type of
    [mu_dtype], so the cast keeps every element. *)
Definition astype_mu_dtype (t : tensor) : tensor := t.

End Ops.

Arguments tensor R : clear implicits.

End Tensor.

Declare Scope tensor_scope.
Delimit Scope tensor_scope with tensor.
Notation "c *: t" := (Tensor.smul c t) (at level 40, left associativity) : tensor_scope.
Notation "a +: b" := (Tensor.plus a b) (at level 50, left associativity) : tensor_scope.
Notation "a @@ b" := (Tensor.mm a b) (at level 40, left associativity) : tensor_scope.
Notation "t ^T" := (Tensor.T t) (at level 1, format "t ^T") : tensor_scope.

(* ------------------------------------------------------------------ *)
(** ** The Flora moment estimator: [scale_by_flora] *)

Module Flora.
Import Tensor.

Section Estimator.
Context {R Key : Type} `{Scalar R} `{Prng Key R}.

Local Abbreviation tensor := (Tensor.tensor R).

(** The arguments of [scale_by_flora].  [beta] is the decay rate [flora]
    passes as [b1]. *)
Record Config : Type := mkConfig {
  factored : bool;
  beta : R;
  tau : option nat;
  seed : Z;
  kappa : Z;
  rng_only : bool;
  min_dim_size_to_factor : nat;
  side : string
}.

(** The arguments of [flora] that reach [scale_by_flora], lines 69-78:
    [factored] is [tau is not None]. *)
Definition flora_config (b1 : R) (tau : option nat) (seed kappa : Z)
           (rng_only : bool) (min_dim_size_to_factor : nat) (side : string)
  : Config :=
  mkConfig (match tau with Some _ => true | None => false end)
           b1 tau seed kappa rng_only min_dim_size_to_factor side.

(** A stored projection: the random matrix itself, or in [rng_only] mode
    the key that generates it. *)
Inductive Proj : Type :=
| Materialized (t : tensor)
| SeedOnly (k : Key).

(** Modelled from the spec: the fields of [TwoSideRandomDecomposition],
    declared in [src/optimizers/optax/utils.py]; each side is absent
    ([None]) or holds compressed data and a projection. *)
Record TwoSide : Type := mkTwoSide {
  l_data : option tensor;
  l_proj : option Proj;
  r_data : option tensor;
  r_proj : option Proj
}.

(** Modelled from the spec: the decomposition of one parameter tensor,
    [NaiveDecomposition] or [TwoSideRandomDecomposition] of
    [src/optimizers/optax/utils.py]. *)
Inductive Decomposition : Type :=
| NaiveDecomposition (data : tensor)
| TwoSideRandomDecomposition (f : TwoSide).

(** [ScaleByFloraState]; [count] is an int32 scalar. *)
Record ScaleByFloraState : Type := mkState {
  count : Z;
  decomposition : list Decomposition;
  rng : Key
}.

(** Addition of int32 scalars wraps around. *)
Definition wrap32 (z : Z) : Z := ((z + 2 ^ 31) mod 2 ^ 32 - 2 ^ 31)%Z.

(** [jax.random.normal(key, shape)]. *)
Definition normal (key : Key) (s : list nat) : tensor :=
  mkTensor s (map (normal_at key s) (seq 0 (numel s))).

(** [random_generate(key, (rows, cols), dtype)], lines 21-26, with
    [orth = False]. *)
Definition random_generate (key : Key) (rows cols : nat) : tensor :=
  divs (normal key [rows; cols]) (rsqrt (Nat.min rows cols)).

(** [random_split_like_tree(rng, tree)]: one key for each leaf. *)
Definition random_split_like_tree {A : Type} (rng : Key) (tree : list A)
  : list Key :=
  map (leaf_key rng (length tree)) (seq 0 (length tree)).

(** [jax.tree_map(f, xs, ys)] and [jax.tree_map(f, xs, ys, zs)] on the
    leaves; trees of different structure are a ValueError. *)
Definition tree_map2 {A B C : Type} (f : A -> B -> result C)
           (xs : list A) (ys : list B) : result (list C) :=
  if length xs =? length ys
  then mapM (fun p : A * B => f (fst p) (snd p)) (combine xs ys)
  else Err ValueError.

Definition tree_map3 {A B C D : Type} (f : A -> B -> C -> result D)
           (xs : list A) (ys : list B) (zs : list C) : result (list D) :=
  if (length xs =? length ys) && (length xs =? length zs)
  then mapM (fun p : A * (B * C) => f (fst p) (fst (snd p)) (snd (snd p)))
            (combine xs (combine ys zs))
  else Err ValueError.

Section WithConfig.
Variable cfg : Config.

Definition should_factorize (s : list nat) : bool :=
  Policy.should_factorize (factored cfg) (min_dim_size_to_factor cfg) s.

(** [ind, outd = params.shape]. *)
Definition unpack2 (s : list nat) : result (nat * nat) :=
  match s with
  | [a; b] => Ok (a, b)
  | _ => Err ValueError
  end.

(** A use of [tau] as a dimension. *)
Definition get_tau : result nat :=
  match tau cfg with
  | Some t => Ok t
  | None => Err TypeError
  end.

(** Lines 166-169, 218-221, 267-270 and 332-335. *)
Definition pick_side (ind outd : nat) : string :=
  if (side cfg =? "auto")%string
  then (if ind <? outd then "right"%string else "left"%string)
  else side cfg.

(** [_side != "right"] and [_side != "left"]. *)
Definition has_left (_side : string) : bool := negb (_side =? "right")%string.
Definition has_right (_side : string) : bool := negb (_side =? "left")%string.

(** Reading the fields of a decomposition. *)
Definition get_data (dcomp : Decomposition) : result tensor :=
  match dcomp with
  | NaiveDecomposition d => Ok d
  | TwoSideRandomDecomposition _ => Err AttributeError
  end.

Definition get_fields (dcomp : Decomposition) : result TwoSide :=
  match dcomp with
  | NaiveDecomposition _ => Err AttributeError
  | TwoSideRandomDecomposition f => Ok f
  end.

(** The use of an optional field as an array or key. *)
Definition not_none {A : Type} (o : option A) : result A :=
  match o with
  | Some a => Ok a
  | None => Err TypeError
  end.

Definition as_key (p : Proj) : result Key :=
  match p with
  | SeedOnly k => Ok k
  | Materialized _ => Err TypeError
  end.

Definition as_tensor (p : Proj) : result tensor :=
  match p with
  | Materialized t => Ok t
  | SeedOnly _ => Err TypeError
  end.

(** [random_generate(proj, (rows, tau), mu_dtype) if rng_only else proj]. *)
Definition load_proj (p : option Proj) (shape_of : nat -> nat * nat)
  : result tensor :=
  p <- not_none p ;;
  if rng_only cfg then
    k <- as_key p ;;
    t <- get_tau ;;
    Ok (random_generate k (fst (shape_of t)) (snd (shape_of t)))
  else as_tensor p.

(** What is stored for a new projection:
    [new_key if rng_only else new_proj]. *)
Definition store_proj (new_key : Key) (new_proj : tensor) : Proj :=
  if rng_only cfg then SeedOnly new_key else Materialized new_proj.

(** [_init_layer], lines 161-195. *)
Definition _init_layer (params : tensor) (key : Key) : result Decomposition :=
  if should_factorize (shape params) then
    '(ind, outd) <- unpack2 (shape params) ;;
    let l_key := split key 2 0 in
    let r_key := split key 2 1 in
    t <- get_tau ;;
    let otau := t in
    let itau := t in
    let _side := pick_side ind outd in
    Ok (TwoSideRandomDecomposition
          {| r_data := if has_right _side then Some (zeros [outd; otau]) else None;
             r_proj := if has_right _side
                       then Some (store_proj r_key (random_generate r_key otau ind))
                       else None;
             l_data := if has_left _side then Some (zeros [itau; ind]) else None;
             l_proj := if has_left _side
                       then Some (store_proj l_key (random_generate l_key outd itau))
                       else None |})
  else Ok (NaiveDecomposition (zeros (shape params))).

(** [init_fn], lines 157-201. *)
Definition init_fn (params : list tensor) : result ScaleByFloraState :=
  let rng := PRNGKey (seed cfg) in
  let prngkey_tree := random_split_like_tree rng params in
  decomposition <- tree_map2 _init_layer params prngkey_tree ;;
  Ok {| count := 0; decomposition := decomposition; rng := rng |}.

(** [_naive_fn] of [update_state], lines 208-209. *)
Definition _naive_fn (grad : tensor) (dcomp : Decomposition) (key : Key)
  : result Decomposition :=
  d <- get_data dcomp ;;
  d' <- add (smul (beta cfg) d) (smul (rsub rone (beta cfg)) grad) ;;
  Ok (NaiveDecomposition d').

(** The left side of [_full_layer_fn], lines 226-236: the new
    compressed data and the projection to store. *)
Definition full_left (grad : tensor) (f : TwoSide) (l_key : Key)
           (outd itau : nat) : result (tensor * Proj) :=
  l_proj_ <- load_proj (l_proj f) (fun t => (outd, t)) ;;
  l_data_ <- not_none (l_data f) ;;
  new_l_key <- (if rng_only cfg
                then p <- not_none (l_proj f) ;; k <- as_key p ;;
                     Ok (next_rng_key k)
                else Ok l_key) ;;
  let new_l_proj := random_generate new_l_key outd itau in
  new_l_proj_T <- transpose new_l_proj ;;
  his_l <- multi_dot [new_l_proj_T; l_proj_; l_data_] ;;
  grad_T <- transpose grad ;;
  obs <- matmul new_l_proj_T grad_T ;;
  new_l_data <- add (smul (beta cfg) his_l) (smul (rsub rone (beta cfg)) obs) ;;
  Ok (new_l_data, store_proj new_l_key new_l_proj).

(** The right side of [_full_layer_fn], lines 238-248. *)
Definition full_right (grad : tensor) (f : TwoSide) (r_key : Key)
           (ind otau : nat) : result (tensor * Proj) :=
  r_proj_ <- load_proj (r_proj f) (fun t => (t, ind)) ;;
  r_data_ <- not_none (r_data f) ;;
  new_r_key <- (if rng_only cfg
                then p <- not_none (r_proj f) ;; k <- as_key p ;;
                     Ok (next_rng_key k)
                else Ok r_key) ;;
  let new_r_proj := random_generate new_r_key otau ind in
  new_r_proj_T <- transpose new_r_proj ;;
  his_r <- multi_dot [r_data_; r_proj_; new_r_proj_T] ;;
  grad_T <- transpose grad ;;
  obs <- matmul grad_T new_r_proj_T ;;
  new_r_data <- add (smul (beta cfg) his_r) (smul (rsub rone (beta cfg)) obs) ;;
  Ok (new_r_data, store_proj new_r_key new_r_proj).

(** [_full_layer_fn], lines 211-259. *)
Definition _full_layer_fn (grad : tensor) (dcomp : Decomposition) (key : Key)
  : result Decomposition :=
  if negb (should_factorize (shape grad)) then _naive_fn grad dcomp key
  else
    '(ind, outd) <- unpack2 (shape grad) ;;
    t <- get_tau ;;
    let otau := t in
    let itau := t in
    let _side := pick_side ind outd in
    let l_key := split key 2 0 in
    let r_key := split key 2 1 in
    f <- get_fields dcomp ;;
    left <- (if has_left _side
             then x <- full_left grad f l_key outd itau ;; Ok (Some x)
             else Ok None) ;;
    right <- (if has_right _side
              then x <- full_right grad f r_key ind otau ;; Ok (Some x)
              else Ok None) ;;
    Ok (TwoSideRandomDecomposition
          {| l_data := option_map fst left;
             l_proj := option_map snd left;
             r_data := option_map fst right;
             r_proj := option_map snd right |}).

(** The left side of [_partial_layer_fn], lines 272-278 and 289. *)
Definition partial_left (grad : tensor) (f : TwoSide) (outd : nat)
  : result tensor :=
  l_data_ <- not_none (l_data f) ;;
  l_proj_ <- load_proj (l_proj f) (fun t => (outd, t)) ;;
  l_proj_T <- transpose l_proj_ ;;
  grad_T <- transpose grad ;;
  obs <- matmul l_proj_T grad_T ;;
  add (smul (beta cfg) l_data_) (smul (rsub rone (beta cfg)) obs).

(** The right side of [_partial_layer_fn], lines 280-286 and 295. *)
Definition partial_right (grad : tensor) (f : TwoSide) (ind : nat)
  : result tensor :=
  r_data_ <- not_none (r_data f) ;;
  r_proj_ <- load_proj (r_proj f) (fun t => (t, ind)) ;;
  grad_T <- transpose grad ;;
  r_proj_T <- transpose r_proj_ ;;
  obs <- matmul grad_T r_proj_T ;;
  add (smul (beta cfg) r_data_) (smul (rsub rone (beta cfg)) obs).

(** [_partial_layer_fn], lines 261-301. *)
Definition _partial_layer_fn (grad : tensor) (dcomp : Decomposition) (key : Key)
  : result Decomposition :=
  if negb (should_factorize (shape grad)) then _naive_fn grad dcomp key
  else
    '(ind, outd) <- unpack2 (shape grad) ;;
    let _side := pick_side ind outd in
    f <- get_fields dcomp ;;
    left <- (if has_left _side
             then x <- partial_left grad f outd ;; Ok (Some x)
             else Ok None) ;;
    right <- (if has_right _side
              then x <- partial_right grad f ind ;; Ok (Some x)
              else Ok None) ;;
    Ok (TwoSideRandomDecomposition
          {| l_data := left;
             l_proj := if has_left _side then l_proj f else None;
             r_data := right;
             r_proj := if has_right _side then r_proj f else None |}).

(** The abstract value (tree structure and shapes) of a decomposition,
    which the two branches of [jax.lax.cond] must agree on. *)
Inductive ProjAval : Type :=
| AvalMatrix (s : list nat)
| AvalKey.

Inductive Aval : Type :=
| AvalNaive (s : list nat)
| AvalTwoSide (l_data l_proj r_data r_proj : option ProjAval).

Definition proj_aval (p : Proj) : ProjAval :=
  match p with
  | Materialized t => AvalMatrix (shape t)
  | SeedOnly _ => AvalKey
  end.

Definition data_aval (t : tensor) : ProjAval := AvalMatrix (shape t).

Definition aval (dcomp : Decomposition) : Aval :=
  match dcomp with
  | NaiveDecomposition d => AvalNaive (shape d)
  | TwoSideRandomDecomposition f =>
      AvalTwoSide (option_map data_aval (l_data f)) (option_map proj_aval (l_proj f))
                  (option_map data_aval (r_data f)) (option_map proj_aval (r_proj f))
  end.

Definition Aval_eq_dec (a b : list Aval) : {a = b} + {a <> b}.
Proof. repeat decide equality. Defined.

(** [jax.lax.cond(pred, true_fun, false_fun)]: both branches are traced,
    so an exception of either is raised, their outputs must have one
    abstract value, and the output is that of the branch [pred]
    selects. *)
Definition lax_cond (pred : bool) (true_fun false_fun : result (list Decomposition))
  : result (list Decomposition) :=
  a <- true_fun ;;
  b <- false_fun ;;
  if Aval_eq_dec (map aval a) (map aval b)
  then Ok (if pred then a else b)
  else Err TypeError.

(** [jnp.mod(a, k)] on int32: the remainder with the sign of the
    divisor, and [0] for the divisor [0]. *)
Definition jnp_mod (a k : Z) : Z :=
  (if k =? 0 then 0 else a mod k)%Z.

(** [update_state], lines 203-318. *)
Definition update_state (grads : list tensor) (state : ScaleByFloraState)
  : result ScaleByFloraState :=
  let prngkey_tree := random_split_like_tree (rng state) grads in
  let grads := map astype_mu_dtype grads in
  let rng' := next_rng_key (rng state) in
  decomposition <-
    lax_cond (jnp_mod (count state) (kappa cfg) =? 0)%Z
             (tree_map3 _full_layer_fn grads (decomposition state) prngkey_tree)
             (tree_map3 _partial_layer_fn grads (decomposition state) prngkey_tree) ;;
  Ok {| count := wrap32 (count state + 1);
        decomposition := decomposition;
        rng := rng' |}.

(** [_naive_fn] of [query], lines 322-323. *)
Definition query_naive_fn (dcomp : Decomposition) (g : tensor) : result tensor :=
  get_data dcomp.

(** [_layer_fn] of [query], lines 325-366. *)
Definition query_layer_fn (grads : tensor) (dcomp : Decomposition)
  : result tensor :=
  if negb (should_factorize (shape grads)) then query_naive_fn dcomp grads
  else
    '(ind, outd) <- unpack2 (shape grads) ;;
    let _side := pick_side ind outd in
    f <- get_fields dcomp ;;
    if (_side =? "left")%string then
      l_proj_ <- load_proj (l_proj f) (fun t => (outd, t)) ;;
      l_data_ <- not_none (l_data f) ;;
      m <- matmul l_proj_ l_data_ ;;
      transpose m
    else if (_side =? "right")%string then
      r_proj_ <- load_proj (r_proj f) (fun t => (t, ind)) ;;
      r_data_ <- not_none (r_data f) ;;
      m <- matmul r_data_ r_proj_ ;;
      transpose m
    else
      r_proj_ <- load_proj (r_proj f) (fun t => (t, ind)) ;;
      l_proj_ <- load_proj (l_proj f) (fun t => (outd, t)) ;;
      l_data_ <- not_none (l_data f) ;;
      r_data_ <- not_none (r_data f) ;;
      mr <- matmul r_data_ r_proj_ ;;
      ml <- matmul l_proj_ l_data_ ;;
      s <- add mr ml ;;
      s_T <- transpose s ;;
      Ok (divs s_T (rnat 2)).

(** [query], lines 320-368. *)
Definition query (grads : list tensor) (state : ScaleByFloraState)
  : result (list tensor) :=
  tree_map2 query_layer_fn grads (decomposition state).

(** [update_fn], lines 370-378. *)
Definition update_fn (grads : list tensor) (state : ScaleByFloraState)
  : result (list tensor * ScaleByFloraState) :=
  updates <- query grads state ;;
  updates <- tree_map2
               (fun m g => add (muls m (beta cfg)) (muls g (rsub rone (beta cfg))))
               updates grads ;;
  new_state <- update_state grads state ;;
  Ok (updates, new_state).

End WithConfig.

(** *** [scale_by_interp], lines 383-398 *)

(** [base.EmptyState()]. *)
Inductive EmptyState : Type := empty_state.

Definition interp_init_fn (params : list tensor) : EmptyState := empty_state.

(** [update_fn(grads, state, params=None, updates=None)].  The gradient
    tree is a container of arrays; with the default [None] of [updates],
    [jax.tree_map] meets [None] where it expects a container of that
    structure and raises a ValueError. *)
Definition interp_update_fn (weight : R)
           (transform_fn : option (tensor -> result tensor))
           (grads : list tensor) (state : EmptyState)
           (updates : option (list tensor))
  : result (list tensor * EmptyState) :=
  updates <- match updates with
             | Some u => Ok u
             | None => Err ValueError
             end ;;
  updates <- tree_map2
               (fun g u => add (smul (rsub rone weight) g) (smul weight u))
               grads updates ;;
  updates <- match transform_fn with
             | Some f => mapM f updates
             | None => Ok updates
             end ;;
  Ok (updates, state).

(** *** The plain exponential-moving-average momentum estimator

    The reference of the naive-equivalence property, written from the
    specification: one buffer per tensor, zero at the start, and
    [data' = beta * data + (1 - beta) * grad] at every step. *)
Definition ema_init (params : list tensor) : list tensor :=
  map (fun p => zeros (shape p)) params.

Definition ema_step (b : R) (moments grads : list tensor) : list tensor :=
  map (fun p : tensor * tensor =>
         (b *: fst p +: rsub rone b *: snd p)%tensor)
      (combine moments grads).

Definition ema_run (b : R) (params : list tensor) (steps : list (list tensor))
  : list tensor :=
  fold_left (ema_step b) steps (ema_init params).

End Estimator.

Arguments Config R : clear implicits.
Arguments Proj R Key : clear implicits.
Arguments TwoSide R Key : clear implicits.
Arguments Decomposition R Key : clear implicits.
Arguments ScaleByFloraState R Key : clear implicits.

End Flora.

(* ------------------------------------------------------------------ *)
(** ** Runs, reachable states and the state invariant *)

Module Inv.
Import Tensor Flora.

Section Invariant.
Context {R Key : Type} `{Scalar R} `{Prng Key R}.
Variable cfg : Config R.

Local Abbreviation tensor := (Tensor.tensor R).
Local Abbreviation Proj := (Flora.Proj R Key).
Local Abbreviation Decomposition := (Flora.Decomposition R Key).
Local Abbreviation State := (Flora.ScaleByFloraState R Key).

(** A gradient tree that fits a parameter tree: the same shapes, leaf by
    leaf, and as many elements in each array as its shape says. *)
Definition fits (params grads : list tensor) : Prop :=
  map shape grads = map shape params /\ Forall well_formed grads.

(** [update_fn] called on each gradient tree of [steps] in turn. *)
Fixpoint run_from (st : State) (steps : list (list tensor)) : result State :=
  match steps with
  | [] => Ok st
  | grads :: steps' =>
      '(_, st') <- update_fn cfg grads st ;;
      run_from st' steps'
  end.

(** [init_fn] and then [update_fn] on each gradient tree of [steps]. *)
Definition run (params : list tensor) (steps : list (list tensor))
  : result State :=
  st <- init_fn cfg params ;;
  run_from st steps.

(** The states [init_fn] and [update_fn] produce for [params]. *)
Inductive reachable (params : list tensor) : State -> Prop :=
| reachable_init st :
    init_fn cfg params = Ok st ->
    reachable params st
| reachable_update grads st updates st' :
    reachable params st ->
    fits params grads ->
    update_fn cfg grads st = Ok (updates, st') ->
    reachable params st'.

(** The variant of a decomposition: naive, or factored with the fields
    [l_data], [l_proj], [r_data], [r_proj] that are populated. *)
Inductive Variant : Type :=
| VNaive
| VFactored (has_l_data has_l_proj has_r_data has_r_proj : bool).

Definition is_some {A : Type} (o : option A) : bool :=
  match o with Some _ => true | None => false end.

Definition variant (dcomp : Decomposition) : Variant :=
  match dcomp with
  | NaiveDecomposition _ => VNaive
  | TwoSideRandomDecomposition f =>
      VFactored (is_some (l_data f)) (is_some (l_proj f))
                (is_some (r_data f)) (is_some (r_proj f))
  end.

(** The stored projections of a decomposition: the materialized matrices
    or, in [rng_only] mode, the keys. *)
Definition projections (dcomp : Decomposition) : option Proj * option Proj :=
  match dcomp with
  | NaiveDecomposition _ => (None, None)
  | TwoSideRandomDecomposition f => (l_proj f, r_proj f)
  end.

(** The matrix a stored projection stands for. *)
Definition proj_value (p : Proj) (rows cols : nat) : tensor :=
  match p with
  | Materialized t => t
  | SeedOnly k => random_generate k rows cols
  end.

(** The key a refresh draws the new projection from: the successor of
    the stored key in [rng_only] mode, else the fresh sub-key. *)
Definition refresh_key (p : Proj) (sub_key : Key) : Key :=
  match p with
  | SeedOnly k => next_rng_key k
  | Materialized _ => sub_key
  end.

(** An array of shape [s]. *)
Definition has_shape (s : list nat) (t : tensor) : Prop :=
  shape t = s /\ well_formed t.

Definition proj_ok (s : list nat) (p : Proj) : Prop :=
  match p with
  | Materialized t => rng_only cfg = false /\ has_shape s t
  | SeedOnly _ => rng_only cfg = true
  end.

Definition side_ok (present : bool) (d : option tensor) (p : option Proj)
           (ds ps : list nat) : Prop :=
  if present
  then exists D P, d = Some D /\ p = Some P /\ has_shape ds D /\ proj_ok ps P
  else d = None /\ p = None.

(** The invariant of the decomposition of a tensor of shape [s]: it is
    what [should_factorize] and the side policy say for [s]. *)
Definition dcomp_ok (s : list nat) (dcomp : Decomposition) : Prop :=
  if should_factorize cfg s then
    match s, tau cfg, dcomp with
    | [ind; outd], Some t, TwoSideRandomDecomposition f =>
        side_ok (has_left (pick_side cfg ind outd)) (l_data f) (l_proj f)
                [t; ind] [outd; t]
        /\ side_ok (has_right (pick_side cfg ind outd)) (r_data f) (r_proj f)
                   [outd; t] [t; ind]
    | _, _, _ => False
    end
  else
    match dcomp with
    | NaiveDecomposition d => has_shape s d
    | TwoSideRandomDecomposition _ => False
    end.

Definition state_ok (shapes : list (list nat)) (st : State) : Prop :=
  Forall2 dcomp_ok shapes (decomposition st).

(** The moment estimate a decomposition stands for, as the specification
    describes it for a tensor of shape [s]: the naive buffer itself;
    [l_proj @ l_data] transposed when the left side alone is populated;
    [r_data @ r_proj] transposed when the right side alone is; the mean of
    the two reconstructions, transposed, when both are. *)
Definition moment_of (s : list nat) (dcomp : Decomposition) : option tensor :=
  match dcomp with
  | NaiveDecomposition d => Some d
  | TwoSideRandomDecomposition f =>
      match s, tau cfg with
      | [ind; outd], Some t =>
          match l_data f, l_proj f, r_data f, r_proj f with
          | Some Dl, Some Pl, None, None =>
              Some ((proj_value Pl outd t @@ Dl)^T)%tensor
          | None, None, Some Dr, Some Pr =>
              Some ((Dr @@ proj_value Pr t ind)^T)%tensor
          | Some Dl, Some Pl, Some Dr, Some Pr =>
              Some (divs ((Dr @@ proj_value Pr t ind
                           +: proj_value Pl outd t @@ Dl)^T)%tensor
                         (rnat 2))
          | _, _, _, _ => None
          end
      | _, _ => None
      end
  end.

(** The update [update_fn] emits for one leaf, line 375:
    [m * beta + g * (1 - beta)]. *)
Definition emitted (m g : tensor) : tensor :=
  plus (muls m (beta cfg)) (muls g (rsub rone (beta cfg))).

End Invariant.
End Inv.

(* ------------------------------------------------------------------ *)
(** ** A concrete instance: rational scalars and counter keys *)

Module Sample.
Import Tensor Flora.

#[export] Instance Q_scalar : Scalar Q := {|
  rzero := 0%Q;
  rone := 1%Q;
  radd := Qplus;
  rsub := Qminus;
  rmul := Qmult;
  rdiv := Qdiv;
  rnat := fun n => inject_Z (Z.of_nat n);
  rsqrt := fun n => inject_Z (Z.of_nat (Nat.sqrt n))
|}.

#[export] Instance nat_prng : Prng nat Q := {|
  PRNGKey := Z.to_nat;
  split := fun k num i => 31 * k + i + 1;
  normal_at := fun k s idx => inject_Z (Z.of_nat ((k + 7 * idx) mod 5) - 2);
  next_rng_key := fun k => k + 101;
  leaf_key := fun k num i => 17 * k + i + 3
|}.

(** [scale_by_flora] with rank 1, refresh period 2 and a factorization
    threshold of 2. *)
Definition cfg (rng_only : bool) (side : string) : Config Q :=
  mkConfig true (9 # 10)%Q (Some 1) 0%Z 2%Z rng_only 2 side.

(** Two parameters: a 2 x 3 matrix, which is factorized, and a vector. *)
Definition params : list (tensor Q) := [zeros [2; 3]; zeros [3]].

Definition ones (s : list nat) : tensor Q := mkTensor s (repeat 1%Q (numel s)).

Definition grads : list (tensor Q) := [ones [2; 3]; ones [3]].

(** The state [init_fn] returns for [params], and the state after one
    update with [grads]. *)
Definition state0 (rng_only : bool) (side : string) : ScaleByFloraState Q nat :=
  match init_fn (cfg rng_only side) params with
  | Ok st => st
  | Err _ => mkState 0%Z [] 0
  end.

Definition state1 (rng_only : bool) (side : string) : ScaleByFloraState Q nat :=
  match update_fn (cfg rng_only side) grads (state0 rng_only side) with
  | Ok (_, st) => st
  | Err _ => state0 rng_only side
  end.

(** The state after a second update with [grads]: its count is 2, so with
    [kappa = 2] the next update is the second refresh. *)
Definition state2 (rng_only : bool) (side : string) : ScaleByFloraState Q nat :=
  match update_fn (cfg rng_only side) grads (state1 rng_only side) with
  | Ok (_, st) => st
  | Err _ => state1 rng_only side
  end.

(** A second instance, with integer scalars, where zero absorbs products
    exactly. *)
#[export] Instance Z_scalar : Scalar Z := {|
  rzero := 0%Z;
  rone := 1%Z;
  radd := Z.add;
  rsub := Z.sub;
  rmul := Z.mul;
  rdiv := Z.div;
  rnat := Z.of_nat;
  rsqrt := fun n => Z.of_nat (Nat.sqrt n)
|}.

#[export] Instance nat_prng_Z : Prng nat Z := {|
  PRNGKey := Z.to_nat;
  split := fun k num i => 31 * k + i + 1;
  normal_at := fun k s idx => (Z.of_nat ((k + 7 * idx) mod 5) - 2)%Z;
  next_rng_key := fun k => k + 101;
  leaf_key := fun k num i => 17 * k + i + 3
|}.

Definition cfgZ (rng_only : bool) (side : string) : Config Z :=
  mkConfig true 3%Z (Some 1) 0%Z 2%Z rng_only 2 side.

Definition paramsZ : list (tensor Z) := [zeros [2; 3]; zeros [3]].

Definition gradsZ : list (tensor Z) :=
  [mkTensor [2; 3] [1; 2; 3; 4; 5; 6]%Z; mkTensor [3] [1; 1; 1]%Z].

Definition stateZ (rng_only : bool) (side : string) : ScaleByFloraState Z nat :=
  match init_fn (cfgZ rng_only side) paramsZ with
  | Ok st => st
  | Err _ => mkState 0%Z [] 0
  end.

(** The sample configuration with [kappa = 0]. *)
Definition cfg_kappa_zero : Config Q :=
  mkConfig true (9 # 10)%Q (Some 1) 0%Z 0%Z false 2 "auto".

(** [scale_by_flora(factored=True, tau=None)]. *)
Definition cfg_without_tau : Config Q :=
  mkConfig true (9 # 10)%Q None 0%Z 2%Z false 2 "auto".

(** A transform over numbers that counts its calls in its state and adds
    [k] to the update. *)
Definition counting (k : nat) : Chain.GradientTransformation nat nat nat unit :=
  Chain.mkGT (fun _ => Ok 0)
             (fun u s _ (_ : list (Chain.PosArg nat)) _ => Ok (u + k, S s)).

Definition library : Chain.Library nat nat nat unit nat :=
  Chain.mkLibrary (counting 1) (counting 2) (counting 3)
                  (fun h => counting (4 + h)) (fun h => counting (5 + h))
                  (fun h => counting (6 + h)) (counting 7)
                  (fun h => counting (8 + h)) (counting 9).

Definition flora_options : Chain.FloraOptions nat :=
  Chain.mkFloraOptions 1 (Some 1) true None.

Definition adafactor_options : Chain.AdafactorOptions nat :=
  Chain.mkAdafactorOptions (Some 1) true (Some 1) None None false.

End Sample.

(* ------------------------------------------------------------------ *)
(** * Properties *)

Unset Implicit Arguments.

(** ** Batching *)

Module LoaderFacts.
Import Loader.

(** C9: for a dataset of length 10 and [batch_size = 3], [data_loader]
    with [drop_last = True] yields the three index batches [0..2],
    [3..5], [6..8], each of size 3; with [drop_last = False] it yields
    four batches of sizes 3, 3, 2, 2 (not 3, 3, 3, 1): [array_split]
    evens the sections out. *)
Theorem data_loader_ten_by_three :
  forall (Key : Type) (permutation : Key -> nat -> list nat) (rng : Key),
    batch_indices permutation rng 10 3 false true
    = Ok [[0; 1; 2]; [3; 4; 5]; [6; 7; 8]]
    /\ batch_indices permutation rng 10 3 false false
       = Ok [[0; 1; 2]; [3; 4; 5]; [6; 7]; [8; 9]]
    /\ data_loader permutation rng ten_rows 3 false true None
       = Ok [[("x"%string, [0; 1; 2])]; [("x"%string, [3; 4; 5])];
             [("x"%string, [6; 7; 8])]]
    /\ data_loader permutation rng ten_rows 3 false false None
       = Ok [[("x"%string, [0; 1; 2])]; [("x"%string, [3; 4; 5])];
             [("x"%string, [6; 7])]; [("x"%string, [8; 9])]]
    /\ (batches <- data_loader permutation rng ten_rows 3 false true None ;;
        Ok (map (@batch_sizes nat) batches)) = Ok [[3]; [3]; [3]]
    /\ (batches <- data_loader permutation rng ten_rows 3 false false None ;;
        Ok (map (@batch_sizes nat) batches)) = Ok [[3]; [3]; [2]; [2]].
Proof.
  intros Key permutation rng.
  repeat split; reflexivity.
Qed.

End LoaderFacts.

(** ** The factorization policy *)

Module PolicyFacts.
Import Policy.

Lemma shape_min_pair (a b : nat) : shape_min [a; b] = Nat.min b a.
Proof. reflexivity. Qed.

Lemma shape_max_pair (a b : nat) : shape_max [a; b] = Nat.max a b.
Proof. unfold shape_max; simpl. now rewrite Nat.max_0_r. Qed.

(** With a positive denominator, the rational ratio is at most 16 exactly
    when the numerator is at most 16 times the denominator. *)
Lemma ratio_le_16 (mx mn : nat) :
  0 < mn ->
  (inject_Z (Z.of_nat mx) / inject_Z (Z.of_nat mn) <= 16)%Q <-> mx <= mn * 16.
Proof.
  intros Hpos.
  assert (Hq : (0 < inject_Z (Z.of_nat mn))%Q).
  { change 0%Q with (inject_Z 0). rewrite <- Zlt_Qlt. lia. }
  assert (Hz : (inject_Z (Z.of_nat mx) <= 16 * inject_Z (Z.of_nat mn))%Q
               <-> mx <= mn * 16).
  { change 16%Q with (inject_Z 16). rewrite <- inject_Z_mult, <- Zle_Qle. lia. }
  rewrite <- Hz. split; intros Hle.
  - assert (Hne : ~ (inject_Z (Z.of_nat mn) == 0)%Q).
    { intros E. rewrite E in Hq. exact (Qlt_irrefl _ Hq). }
    rewrite <- (Qmult_div_r (inject_Z (Z.of_nat mx)) (inject_Z (Z.of_nat mn)) Hne) at 1.
    rewrite Qmult_comm.
    apply Qmult_le_compat_r; [exact Hle | apply Qlt_le_weak, Hq].
  - apply Qle_shift_div_r; assumption.
Qed.

(** C4: for a shape without a zero-sized dimension, [should_factorize] is
    true exactly when factorization is enabled, the tensor has two
    dimensions, [max(shape) / min(shape) <= 16] and
    [min(shape) >= min_dim_size_to_factor]; with the default threshold 128
    a [(128, 128)] tensor is factorized, a [(127, 127)] tensor and a
    [(2048, 16)] tensor are not. *)
Theorem should_factorize_iff :
  (forall (factored : bool) (min_dim_size_to_factor : nat) (shape : list nat),
      Forall (fun d => 0 < d) shape ->
      should_factorize factored min_dim_size_to_factor shape = true
      <-> (factored = true
           /\ length shape = 2
           /\ (aspect_ratio shape <= 16)%Q
           /\ min_dim_size_to_factor <= shape_min shape))
  /\ should_factorize true default_min_dim_size_to_factor [128; 128] = true
  /\ should_factorize true default_min_dim_size_to_factor [127; 127] = false
  /\ should_factorize true default_min_dim_size_to_factor [2048; 16] = false.
Proof.
  split; [| repeat split; vm_compute; reflexivity].
  intros factored mdim shape Hpos.
  unfold should_factorize.
  destruct factored; simpl; [| intuition discriminate].
  destruct (Nat.eqb_spec (length shape) 2) as [Hlen | Hlen]; simpl;
    [| intuition discriminate].
  destruct shape as [| a [| b [| c rest]]]; try discriminate.
  assert (Hmin : 0 < shape_min [a; b]).
  { rewrite shape_min_pair. inversion Hpos as [| ? ? Ha Hrest]; subst.
    inversion Hrest; subst. lia. }
  unfold aspect_ratio. rewrite (ratio_le_16 _ _ Hmin).
  destruct (Nat.ltb_spec (shape_min [a; b] * 16) (shape_max [a; b])) as [Hgt | Hle].
  - split; [discriminate | intros (_ & _ & Hr & _); lia].
  - rewrite Nat.leb_le. tauto.
Qed.

(** The shape [(128, 256)] has no zero-sized dimension and is factorized
    with the default threshold, so its ratio is at most 16 and its smaller
    dimension at least 128. *)
Lemma should_factorize_iff_witness :
  Forall (fun d => 0 < d) [128; 256]
  /\ should_factorize true default_min_dim_size_to_factor [128; 256] = true
  /\ (aspect_ratio [128; 256]%nat <= 16)%Q
  /\ default_min_dim_size_to_factor <= shape_min [128; 256].
Proof.
  assert (Hpos : Forall (fun d => 0 < d) [128; 256]) by (repeat constructor; lia).
  assert (Hsf : should_factorize true default_min_dim_size_to_factor [128; 256] = true)
    by (vm_compute; reflexivity).
  split; [exact Hpos |]. split; [exact Hsf |].
  destruct (proj1 (proj1 should_factorize_iff true default_min_dim_size_to_factor
                         [128; 256] Hpos) Hsf)
    as (_ & _ & Hratio & Hmin).
  split; [exact Hratio | exact Hmin].
Defined.

End PolicyFacts.

(** ** The error monad and tree maps *)

Module ResultFacts.

Lemma bind_ok {A B : Type} (m : result A) (k : A -> result B) (b : B) :
  bind m k = Ok b -> exists a, m = Ok a /\ k a = Ok b.
Proof.
  destruct m as [a | e]; simpl; intros Hk; [eauto | discriminate].
Qed.

Lemma mapM_length {A B : Type} (f : A -> result B) (xs : list A) :
  forall ys, mapM f xs = Ok ys -> length ys = length xs.
Proof.
  induction xs as [| x xs IH]; simpl; intros ys Hm.
  - now inversion Hm.
  - apply bind_ok in Hm as (y & _ & Hm).
    apply bind_ok in Hm as (ys' & Hys & Hm).
    inversion Hm; subst. simpl. f_equal. now apply IH.
Qed.

Lemma mapM_nth {A B : Type} (f : A -> result B) (xs : list A) :
  forall ys i x,
    mapM f xs = Ok ys -> nth_error xs i = Some x ->
    exists y, nth_error ys i = Some y /\ f x = Ok y.
Proof.
  induction xs as [| x0 xs IH]; simpl; intros ys i x Hm Hx.
  - destruct i; discriminate.
  - apply bind_ok in Hm as (y & Hy & Hm).
    apply bind_ok in Hm as (ys' & Hys & Hm).
    inversion Hm; subst.
    destruct i as [| i]; simpl in *.
    + inversion Hx; subst. eauto.
    + eapply IH; eauto.
Qed.

Lemma mapM_total {A B : Type} (f : A -> result B) (xs : list A) :
  Forall (fun x => exists y, f x = Ok y) xs ->
  exists ys, mapM f xs = Ok ys.
Proof.
  induction 1 as [| x xs (y & Hy) _ (ys & Hys)]; simpl.
  - eauto.
  - rewrite Hy; simpl. rewrite Hys; simpl. eauto.
Qed.

Lemma mapM_pure {A B : Type} (f : A -> result B) (g : A -> B) (xs : list A) :
  Forall (fun x => f x = Ok (g x)) xs ->
  mapM f xs = Ok (map g xs).
Proof.
  induction 1 as [| x xs Hx _ IH]; simpl; [reflexivity |].
  now rewrite Hx, IH.
Qed.

Lemma nth_error_combine {A B : Type} (xs : list A) :
  forall (ys : list B) i x y,
    nth_error xs i = Some x -> nth_error ys i = Some y ->
    nth_error (combine xs ys) i = Some (x, y).
Proof.
  induction xs as [| x0 xs IH]; intros [| y0 ys] [| i] x y Hx Hy;
    simpl in *; try discriminate.
  - now inversion Hx; inversion Hy.
  - now apply IH.
Qed.

Lemma nth_error_combine_inv {A B : Type} (xs : list A) :
  forall (ys : list B) i p,
    nth_error (combine xs ys) i = Some p ->
    nth_error xs i = Some (fst p) /\ nth_error ys i = Some (snd p).
Proof.
  induction xs as [| x0 xs IH]; intros [| y0 ys] [| i] p Hp;
    simpl in *; try discriminate.
  - now inversion Hp.
  - now apply IH.
Qed.

Lemma Forall_nth_error {A : Type} (P : A -> Prop) (xs : list A) :
  (forall i x, nth_error xs i = Some x -> P x) -> Forall P xs.
Proof.
  induction xs as [| x xs IH]; intros Hall; constructor.
  - exact (Hall 0 x eq_refl).
  - apply IH. intros i y Hy. exact (Hall (S i) y Hy).
Qed.

Lemma Forall2_nth_error {A B : Type} (P : A -> B -> Prop) (xs : list A) (ys : list B) :
  length xs = length ys ->
  (forall i x y, nth_error xs i = Some x -> nth_error ys i = Some y -> P x y) ->
  Forall2 P xs ys.
Proof.
  revert ys. induction xs as [| x xs IH]; intros [| y ys] Hlen Hall;
    simpl in *; try discriminate; constructor.
  - exact (Hall 0 x y eq_refl eq_refl).
  - apply IH; [lia |]. intros i a b Ha Hb. exact (Hall (S i) a b Ha Hb).
Qed.

Lemma Forall2_nth {A B : Type} (P : A -> B -> Prop) (xs : list A) (ys : list B) :
  Forall2 P xs ys ->
  forall i x y, nth_error xs i = Some x -> nth_error ys i = Some y -> P x y.
Proof.
  induction 1 as [| x0 y0 xs ys H0 _ IH]; intros [| i] x y Hx Hy;
    simpl in *; try discriminate.
  - now inversion Hx; inversion Hy; subst.
  - eapply IH; eauto.
Qed.

Lemma Forall2_len {A B : Type} (P : A -> B -> Prop) (xs : list A) (ys : list B) :
  Forall2 P xs ys -> length xs = length ys.
Proof. induction 1; simpl; congruence. Qed.

Lemma nth_error_some_lt {A B : Type} (xs : list A) (ys : list B) i x :
  length xs = length ys -> nth_error xs i = Some x ->
  exists y, nth_error ys i = Some y.
Proof.
  intros Hlen Hx.
  assert (Hi : i < length ys).
  { rewrite <- Hlen. apply nth_error_Some. congruence. }
  destruct (nth_error ys i) as [y |] eqn:E; [eauto |].
  apply nth_error_None in E. lia.
Qed.

End ResultFacts.

(** ** The transformation chains *)

Module ChainFacts.
Import Chain ResultFacts.

Section Arity.
Variables Updates Params TState Extra Hyper : Type.
Variable lib : Library Updates Params TState Extra Hyper.

Lemma chain_init_length (tx : list (GradientTransformation Updates Params TState Extra))
      (params : Params) (st : list TState) :
  init_fn tx params = Ok st -> length st = length tx.
Proof.
  unfold init_fn. intros Hm. apply mapM_length in Hm.
  now rewrite length_map in Hm.
Qed.

Lemma chain_init_total (tx : list (GradientTransformation Updates Params TState Extra))
      (params : Params) :
  Forall (fun t => is_ok (init t params) = true) tx ->
  exists st, init_fn tx params = Ok st.
Proof.
  intros Hall. unfold init_fn. apply mapM_total.
  apply Forall_map. eapply Forall_impl; [| exact Hall].
  intros t Ht. simpl in *. destruct (init t params); [eauto | discriminate].
Qed.

Lemma flora_arity_check (o : FloraOptions Hyper) grads state params extra :
  length state <> length (flora_tx lib o) ->
  flora_update_fn lib o grads state params extra = ([], Err ValueError).
Proof.
  intros Hne. unfold flora_update_fn. rewrite length_map.
  destruct (Nat.eqb_spec (length (flora_tx lib o)) (length state)) as [E | _];
    [congruence | reflexivity].
Qed.

Lemma adafactor_arity_check (o : AdafactorOptions Hyper) grads state params q extra :
  length state <> length (adafactor_tx lib o) ->
  adafactor_update_fn lib o grads state params q extra = ([], Err ValueError).
Proof.
  intros Hne. unfold adafactor_update_fn. rewrite length_map.
  destruct (Nat.eqb_spec (length (adafactor_tx lib o)) (length state)) as [E | _];
    [congruence | reflexivity].
Qed.

End Arity.

(** C8: for the chain of [flora] and for that of [adafactor], built from
    [T] transforms, [init] returns a state tuple of length [T] (and does
    return one when every transform's own [init] does), and [update]
    called with a state of another length raises ValueError without having
    invoked any update function. *)
Theorem chain_state_arity :
  forall (Updates Params TState Extra Hyper : Type)
         (lib : Library Updates Params TState Extra Hyper),
    (forall o params,
        (forall st, flora_init_fn lib o params = Ok st ->
                    length st = length (flora_tx lib o))
        /\ (Forall (fun t => is_ok (init t params) = true) (flora_tx lib o) ->
            exists st, flora_init_fn lib o params = Ok st
                       /\ length st = length (flora_tx lib o)))
    /\ (forall o grads state params extra,
           length state <> length (flora_tx lib o) ->
           flora_update_fn lib o grads state params extra = ([], Err ValueError))
    /\ (forall o params,
           (forall st, adafactor_init_fn lib o params = Ok st ->
                       length st = length (adafactor_tx lib o))
           /\ (Forall (fun t => is_ok (init t params) = true) (adafactor_tx lib o) ->
               exists st, adafactor_init_fn lib o params = Ok st
                          /\ length st = length (adafactor_tx lib o)))
    /\ (forall o grads state params query_only extra,
           length state <> length (adafactor_tx lib o) ->
           adafactor_update_fn lib o grads state params query_only extra
           = ([], Err ValueError)).
Proof.
  intros Updates Params TState Extra Hyper lib.
  split; [| split; [| split]].
  - intros o params. split.
    + intros st. apply chain_init_length.
    + intros Hall. destruct (chain_init_total _ _ _ _ (flora_tx lib o) params Hall) as (st & Hst).
      exists st. split; [exact Hst | now apply chain_init_length in Hst].
  - intros. now apply flora_arity_check.
  - intros o params. split.
    + intros st. apply chain_init_length.
    + intros Hall. destruct (chain_init_total _ _ _ _ (adafactor_tx lib o) params Hall) as (st & Hst).
      exists st. split; [exact Hst | now apply chain_init_length in Hst].
  - intros. now apply adafactor_arity_check.
Qed.

(** On the sample library: the Flora chain has six transforms, so an
    update with the empty state tuple, or with a five-element one, is
    rejected, and so is an Adafactor update with the empty tuple. *)
Lemma chain_state_arity_witness :
  (exists st, flora_init_fn Sample.library Sample.flora_options 0 = Ok st
              /\ length st = 6)
  /\ flora_update_fn Sample.library Sample.flora_options 0 [] None tt
     = ([], Err ValueError)
  /\ flora_update_fn Sample.library Sample.flora_options 0 [0; 0; 0; 0; 0] None tt
     = ([], Err ValueError)
  /\ adafactor_update_fn Sample.library Sample.adafactor_options 0 [] None false tt
     = ([], Err ValueError).
Proof.
  destruct (chain_state_arity _ _ _ _ _ Sample.library) as (Hfi & Hfu & _ & Hau).
  split; [| split; [| split]].
  - apply (proj2 (Hfi Sample.flora_options 0)).
    repeat constructor.
  - apply Hfu. simpl. lia.
  - apply Hfu. simpl. lia.
  - apply Hau. simpl. lia.
Defined.

End ChainFacts.

(** ** Shapes of array operations *)

Module TensorFacts.
Import Tensor Flora Inv.

Section Shapes.
Context {R Key : Type} `{Scalar R} `{Prng Key R}.

Local Abbreviation tensor := (Tensor.tensor R).

Lemma has_shape_shape (s : list nat) (t : tensor) : has_shape s t -> shape t = s.
Proof. now intros [Hs _]. Qed.

Lemma zeros_has_shape (s : list nat) : has_shape s (zeros s : tensor).
Proof. split; [reflexivity |]. unfold well_formed, zeros; simpl. apply repeat_length. Qed.

Lemma tmap_has_shape (f : R -> R) (s : list nat) (t : tensor) :
  has_shape s t -> has_shape s (tmap f t).
Proof.
  intros [Hs Hw]. split; [exact Hs |].
  unfold well_formed, tmap in *; simpl. now rewrite length_map.
Qed.

Lemma smul_has_shape (c : R) (s : list nat) (t : tensor) :
  has_shape s t -> has_shape s (smul c t).
Proof. apply tmap_has_shape. Qed.

Lemma muls_has_shape (c : R) (s : list nat) (t : tensor) :
  has_shape s t -> has_shape s (muls t c).
Proof. apply tmap_has_shape. Qed.

Lemma divs_has_shape (c : R) (s : list nat) (t : tensor) :
  has_shape s t -> has_shape s (divs t c).
Proof. apply tmap_has_shape. Qed.

Lemma plus_has_shape (s : list nat) (a b : tensor) :
  has_shape s a -> has_shape s b -> has_shape s (plus a b).
Proof.
  intros [Ha Wa] [Hb Wb]. split; [exact Ha |].
  unfold well_formed, plus in *; simpl.
  rewrite length_map, length_combine, Wa, Wb, Ha, Hb. apply Nat.min_id.
Qed.

Lemma add_ok (s : list nat) (a b : tensor) :
  shape a = s -> shape b = s -> add a b = Ok (plus a b).
Proof.
  intros Ha Hb. unfold add.
  destruct (list_eq_dec Nat.eq_dec (shape a) (shape b)); [reflexivity | congruence].
Qed.

Lemma T_has_shape (m n : nat) (t : tensor) :
  shape t = [m; n] -> has_shape [n; m] (T t).
Proof.
  intros Hs. unfold T. rewrite Hs. split; [reflexivity |].
  unfold well_formed; simpl. rewrite length_map, length_seq. lia.
Qed.

Lemma transpose_ok (m n : nat) (t : tensor) :
  shape t = [m; n] -> transpose t = Ok (T t).
Proof. intros Hs. unfold transpose. now rewrite Hs. Qed.

Lemma mm_has_shape (m k k' n : nat) (a b : tensor) :
  shape a = [m; k] -> shape b = [k'; n] -> has_shape [m; n] (mm a b).
Proof.
  intros Ha Hb. unfold mm. rewrite Ha, Hb. split; [reflexivity |].
  unfold well_formed; simpl. rewrite length_map, length_seq. lia.
Qed.

Lemma matmul_ok (m k n : nat) (a b : tensor) :
  shape a = [m; k] -> shape b = [k; n] -> matmul a b = Ok (mm a b).
Proof.
  intros Ha Hb. unfold matmul. now rewrite Ha, Hb, Nat.eqb_refl.
Qed.

Lemma chain3_has_shape (m k k' l l' n : nat) (a b c : tensor) :
  shape a = [m; k] -> shape b = [k'; l] -> shape c = [l'; n] ->
  has_shape [m; n] (chain3 a b c).
Proof.
  intros Ha Hb Hc. unfold chain3. rewrite Ha, Hb, Hc.
  destruct (left_first_cost m k l n <=? right_first_cost m k l n).
  - apply (mm_has_shape m l l' n); [| exact Hc].
    exact (has_shape_shape _ _ (mm_has_shape m k k' l a b Ha Hb)).
  - apply (mm_has_shape m k k' n); [exact Ha |].
    exact (has_shape_shape _ _ (mm_has_shape k' l l' n b c Hb Hc)).
Qed.

Lemma multi_dot3_ok (m k l n : nat) (a b c : tensor) :
  shape a = [m; k] -> shape b = [k; l] -> shape c = [l; n] ->
  multi_dot [a; b; c] = Ok (chain3 a b c).
Proof.
  intros Ha Hb Hc. unfold multi_dot.
  rewrite (matmul_ok m k l a b Ha Hb); cbn [bind].
  rewrite (matmul_ok m l n (mm a b) c); [reflexivity | | exact Hc].
  exact (has_shape_shape _ _ (mm_has_shape m k k l a b Ha Hb)).
Qed.

Lemma random_generate_has_shape (key : Key) (rows cols : nat) :
  has_shape [rows; cols] (random_generate key rows cols).
Proof.
  unfold random_generate. apply divs_has_shape.
  split; [reflexivity |].
  unfold well_formed, normal; simpl. now rewrite length_map, length_seq.
Qed.

End Shapes.

End TensorFacts.

(** ** One leaf of the estimator *)

Module LeafFacts.
Import Tensor Flora Inv ResultFacts TensorFacts.

Section Leaves.
Context {R Key : Type} `{Scalar R} `{Prng Key R}.
Variable cfg : Config R.

Local Abbreviation tensor := (Tensor.tensor R).
Local Abbreviation Proj := (Flora.Proj R Key).
Local Abbreviation TwoSide := (Flora.TwoSide R Key).
Local Abbreviation Decomposition := (Flora.Decomposition R Key).

Lemma load_proj_ok (P : Proj) (mk : nat -> nat * nat) (t : nat) :
  tau cfg = Some t ->
  proj_ok cfg [fst (mk t); snd (mk t)] P ->
  load_proj cfg (Some P) mk = Ok (proj_value P (fst (mk t)) (snd (mk t)))
  /\ has_shape [fst (mk t); snd (mk t)] (proj_value P (fst (mk t)) (snd (mk t))).
Proof.
  intros Htau Hok. unfold load_proj; simpl.
  destruct P as [p | k]; simpl in *.
  - destruct Hok as [Hr Hs]. rewrite Hr. simpl. now split.
  - rewrite Hok. simpl. unfold get_tau. rewrite Htau. simpl.
    split; [reflexivity | apply random_generate_has_shape].
Qed.

Lemma refresh_key_ok (P : Proj) (s : list nat) (sub_key : Key) :
  proj_ok cfg s P ->
  (if rng_only cfg
   then k <- as_key P ;; Ok (next_rng_key k)
   else Ok sub_key) = Ok (refresh_key P sub_key).
Proof.
  intros Hok. destruct P as [p | k]; simpl in *.
  - destruct Hok as [Hr _]. now rewrite Hr.
  - now rewrite Hok.
Qed.

Lemma store_proj_ok (k : Key) (rows cols : nat) :
  proj_ok cfg [rows; cols] (store_proj cfg k (random_generate k rows cols)).
Proof.
  unfold store_proj. destruct (rng_only cfg) eqn:E; simpl.
  - exact E.
  - split; [exact E | apply random_generate_has_shape].
Qed.

Lemma blend_ok (s : list nat) (a b : tensor) :
  has_shape s a -> has_shape s b ->
  add (beta cfg *: a)%tensor (rsub rone (beta cfg) *: b)%tensor
  = Ok (beta cfg *: a +: rsub rone (beta cfg) *: b)%tensor
  /\ has_shape s (beta cfg *: a +: rsub rone (beta cfg) *: b)%tensor.
Proof.
  intros Ha Hb.
  pose proof (smul_has_shape (beta cfg) s a Ha) as Ha'.
  pose proof (smul_has_shape (rsub rone (beta cfg)) s b Hb) as Hb'.
  split.
  - apply (add_ok s); apply has_shape_shape; assumption.
  - now apply plus_has_shape.
Qed.

Lemma full_left_ok (grad : tensor) (f : TwoSide) (l_key : Key) (ind outd t : nat)
      (D : tensor) (P : Proj) :
  tau cfg = Some t ->
  has_shape [ind; outd] grad ->
  l_data f = Some D -> l_proj f = Some P ->
  has_shape [t; ind] D -> proj_ok cfg [outd; t] P ->
  let new_key := refresh_key P l_key in
  let new_proj := random_generate new_key outd t in
  let new_data :=
    (beta cfg *: chain3 (new_proj^T) (proj_value P outd t) D
     +: rsub rone (beta cfg) *: (new_proj^T @@ grad^T))%tensor in
  full_left cfg grad f l_key outd t = Ok (new_data, store_proj cfg new_key new_proj)
  /\ has_shape [t; ind] new_data.
Proof.
  intros Htau [Hg Wg] HD HP [HsD WD] Hok new_key new_proj new_data.
  destruct (load_proj_ok P (fun t => (outd, t)) t Htau Hok) as [Hload [HsP WP]].
  simpl in HsP, Hload.
  pose proof (random_generate_has_shape new_key outd t) as [HsN _].
  fold new_proj in HsN.
  pose proof (T_has_shape _ _ _ HsN) as [HsNT _].
  pose proof (T_has_shape _ _ _ Hg) as [HsGT _].
  pose proof (chain3_has_shape _ _ _ _ _ _ _ _ _ HsNT HsP HsD) as Hhis.
  pose proof (mm_has_shape _ _ _ _ _ _ HsNT HsGT) as Hobs.
  destruct (blend_ok _ _ _ Hhis Hobs) as [Hadd Hnew].
  unfold full_left. rewrite HP, HD, Hload. cbn [bind not_none].
  rewrite (refresh_key_ok P _ l_key Hok). cbn [bind]. fold new_key new_proj.
  rewrite (transpose_ok _ _ _ HsN). cbn [bind].
  rewrite (multi_dot3_ok _ _ _ _ _ _ _ HsNT HsP HsD). cbn [bind].
  rewrite (transpose_ok _ _ _ Hg). cbn [bind].
  rewrite (matmul_ok _ _ _ _ _ HsNT HsGT). cbn [bind].
  rewrite Hadd. cbn [bind].
  split; [reflexivity | exact Hnew].
Qed.

Lemma full_right_ok (grad : tensor) (f : TwoSide) (r_key : Key) (ind outd t : nat)
      (D : tensor) (P : Proj) :
  tau cfg = Some t ->
  has_shape [ind; outd] grad ->
  r_data f = Some D -> r_proj f = Some P ->
  has_shape [outd; t] D -> proj_ok cfg [t; ind] P ->
  let new_key := refresh_key P r_key in
  let new_proj := random_generate new_key t ind in
  let new_data :=
    (beta cfg *: chain3 D (proj_value P t ind) (new_proj^T)
     +: rsub rone (beta cfg) *: (grad^T @@ new_proj^T))%tensor in
  full_right cfg grad f r_key ind t = Ok (new_data, store_proj cfg new_key new_proj)
  /\ has_shape [outd; t] new_data.
Proof.
  intros Htau [Hg Wg] HD HP [HsD WD] Hok new_key new_proj new_data.
  destruct (load_proj_ok P (fun t => (t, ind)) t Htau Hok) as [Hload [HsP WP]].
  simpl in HsP, Hload.
  pose proof (random_generate_has_shape new_key t ind) as [HsN _].
  fold new_proj in HsN.
  pose proof (T_has_shape _ _ _ HsN) as [HsNT _].
  pose proof (T_has_shape _ _ _ Hg) as [HsGT _].
  pose proof (chain3_has_shape _ _ _ _ _ _ _ _ _ HsD HsP HsNT) as Hhis.
  pose proof (mm_has_shape _ _ _ _ _ _ HsGT HsNT) as Hobs.
  destruct (blend_ok _ _ _ Hhis Hobs) as [Hadd Hnew].
  unfold full_right. rewrite HP, HD, Hload. cbn [bind not_none].
  rewrite (refresh_key_ok P _ r_key Hok). cbn [bind]. fold new_key new_proj.
  rewrite (transpose_ok _ _ _ HsN). cbn [bind].
  rewrite (multi_dot3_ok _ _ _ _ _ _ _ HsD HsP HsNT). cbn [bind].
  rewrite (transpose_ok _ _ _ Hg). cbn [bind].
  rewrite (matmul_ok _ _ _ _ _ HsGT HsNT). cbn [bind].
  rewrite Hadd. cbn [bind].
  split; [reflexivity | exact Hnew].
Qed.

Lemma partial_left_ok (grad : tensor) (f : TwoSide) (ind outd t : nat)
      (D : tensor) (P : Proj) :
  tau cfg = Some t ->
  has_shape [ind; outd] grad ->
  l_data f = Some D -> l_proj f = Some P ->
  has_shape [t; ind] D -> proj_ok cfg [outd; t] P ->
  let new_data :=
    (beta cfg *: D
     +: rsub rone (beta cfg) *: ((proj_value P outd t)^T @@ grad^T))%tensor in
  partial_left cfg grad f outd = Ok new_data /\ has_shape [t; ind] new_data.
Proof.
  intros Htau [Hg Wg] HD HP HDs Hok new_data.
  destruct (load_proj_ok P (fun t => (outd, t)) t Htau Hok) as [Hload [HsP WP]].
  simpl in HsP, Hload.
  pose proof (T_has_shape _ _ _ HsP) as [HsPT _].
  pose proof (T_has_shape _ _ _ Hg) as [HsGT _].
  pose proof (mm_has_shape _ _ _ _ _ _ HsPT HsGT) as Hobs.
  destruct (blend_ok _ _ _ HDs Hobs) as [Hadd Hnew].
  unfold partial_left. rewrite HP, HD, Hload. cbn [bind not_none].
  rewrite (transpose_ok _ _ _ HsP). cbn [bind].
  rewrite (transpose_ok _ _ _ Hg). cbn [bind].
  rewrite (matmul_ok _ _ _ _ _ HsPT HsGT). cbn [bind].
  split; [exact Hadd | exact Hnew].
Qed.

Lemma partial_right_ok (grad : tensor) (f : TwoSide) (ind outd t : nat)
      (D : tensor) (P : Proj) :
  tau cfg = Some t ->
  has_shape [ind; outd] grad ->
  r_data f = Some D -> r_proj f = Some P ->
  has_shape [outd; t] D -> proj_ok cfg [t; ind] P ->
  let new_data :=
    (beta cfg *: D
     +: rsub rone (beta cfg) *: (grad^T @@ (proj_value P t ind)^T))%tensor in
  partial_right cfg grad f ind = Ok new_data /\ has_shape [outd; t] new_data.
Proof.
  intros Htau [Hg Wg] HD HP HDs Hok new_data.
  destruct (load_proj_ok P (fun t => (t, ind)) t Htau Hok) as [Hload [HsP WP]].
  simpl in HsP, Hload.
  pose proof (T_has_shape _ _ _ HsP) as [HsPT _].
  pose proof (T_has_shape _ _ _ Hg) as [HsGT _].
  pose proof (mm_has_shape _ _ _ _ _ _ HsGT HsPT) as Hobs.
  destruct (blend_ok _ _ _ HDs Hobs) as [Hadd Hnew].
  unfold partial_right. rewrite HP, HD, Hload. cbn [bind not_none].
  rewrite (transpose_ok _ _ _ Hg). cbn [bind].
  rewrite (transpose_ok _ _ _ HsP). cbn [bind].
  rewrite (matmul_ok _ _ _ _ _ HsGT HsPT). cbn [bind].
  split; [exact Hadd | exact Hnew].
Qed.


Lemma blend_eq (a b : tensor) :
  shape a = shape b ->
  add (beta cfg *: a)%tensor (rsub rone (beta cfg) *: b)%tensor
  = Ok (beta cfg *: a +: rsub rone (beta cfg) *: b)%tensor.
Proof. intros Hs. apply (add_ok (shape a)); [reflexivity | simpl; congruence]. Qed.

Lemma naive_fn_eq (grad D : tensor) (key : Key) :
  shape D = shape grad ->
  _naive_fn cfg grad (NaiveDecomposition D) key
  = Ok (NaiveDecomposition (beta cfg *: D +: rsub rone (beta cfg) *: grad)%tensor).
Proof.
  intros Hs. unfold _naive_fn. cbn [get_data bind].
  now rewrite (blend_eq D grad Hs).
Qed.

Lemma side_cases (_side : string) :
  (_side = "left"%string /\ has_left _side = true /\ has_right _side = false)
  \/ (_side = "right"%string /\ has_left _side = false /\ has_right _side = true)
  \/ ((_side =? "left")%string = false /\ (_side =? "right")%string = false
      /\ has_left _side = true /\ has_right _side = true).
Proof.
  unfold has_left, has_right.
  destruct (_side =? "left")%string eqn:El;
    destruct (_side =? "right")%string eqn:Er; simpl.
  - apply String.eqb_eq in El, Er. subst. discriminate.
  - apply String.eqb_eq in El. left. repeat split. exact El.
  - apply String.eqb_eq in Er. right; left. repeat split. exact Er.
  - right; right. repeat split.
Qed.

Section Factored.
Variables (ind outd t : nat) (grad : tensor) (f : TwoSide) (key : Key).
Hypothesis Hsf : should_factorize cfg [ind; outd] = true.
Hypothesis Htau : tau cfg = Some t.
Hypothesis Hgrad : has_shape [ind; outd] grad.
Hypothesis Hleft :
  side_ok cfg (has_left (pick_side cfg ind outd)) (l_data f) (l_proj f)
          [t; ind] [outd; t].
Hypothesis Hright :
  side_ok cfg (has_right (pick_side cfg ind outd)) (r_data f) (r_proj f)
          [outd; t] [t; ind].

Lemma full_layer_factored :
  exists f' : TwoSide,
    _full_layer_fn cfg grad (TwoSideRandomDecomposition f) key
    = Ok (TwoSideRandomDecomposition f')
    /\ side_ok cfg (has_left (pick_side cfg ind outd)) (l_data f') (l_proj f')
               [t; ind] [outd; t]
    /\ side_ok cfg (has_right (pick_side cfg ind outd)) (r_data f') (r_proj f')
               [outd; t] [t; ind]
    /\ (forall D P, l_data f = Some D -> l_proj f = Some P ->
                    let new_key := refresh_key P (split key 2 0) in
                    let new_proj := random_generate new_key outd t in
                    l_proj f' = Some (store_proj cfg new_key new_proj)
                    /\ l_data f'
                       = Some (beta cfg *: chain3 (new_proj^T) (proj_value P outd t) D
                               +: rsub rone (beta cfg) *: (new_proj^T @@ grad^T))%tensor)
    /\ (forall D P, r_data f = Some D -> r_proj f = Some P ->
                    let new_key := refresh_key P (split key 2 1) in
                    let new_proj := random_generate new_key t ind in
                    r_proj f' = Some (store_proj cfg new_key new_proj)
                    /\ r_data f'
                       = Some (beta cfg *: chain3 D (proj_value P t ind) (new_proj^T)
                               +: rsub rone (beta cfg) *: (grad^T @@ new_proj^T))%tensor).
Proof.
  unfold _full_layer_fn.
  rewrite (has_shape_shape _ _ Hgrad), Hsf. cbn [negb unpack2 bind get_fields].
  unfold get_tau. rewrite Htau. cbn [bind].
  unfold side_ok in Hleft, Hright.
  destruct (has_left (pick_side cfg ind outd));
    destruct (has_right (pick_side cfg ind outd)).
  - destruct Hleft as (Dl & Pl & HDl & HPl & HsDl & HokPl).
    destruct Hright as (Dr & Pr & HDr & HPr & HsDr & HokPr).
    destruct (full_left_ok grad f (split key 2 0) ind outd t Dl Pl
                           Htau Hgrad HDl HPl HsDl HokPl) as [El Hl].
    destruct (full_right_ok grad f (split key 2 1) ind outd t Dr Pr
                            Htau Hgrad HDr HPr HsDr HokPr) as [Er Hr].
    rewrite El, Er. cbn [bind option_map fst snd].
    eexists. split; [reflexivity |]. cbn [l_data l_proj r_data r_proj].
    split; [| split; [| split]].
    + do 2 eexists. repeat split; try apply Hl. apply store_proj_ok.
    + do 2 eexists. repeat split; try apply Hr. apply store_proj_ok.
    + intros D P HD HP. rewrite HD in HDl. rewrite HP in HPl.
      inversion HDl; inversion HPl; subst. now split.
    + intros D P HD HP. rewrite HD in HDr. rewrite HP in HPr.
      inversion HDr; inversion HPr; subst. now split.
  - destruct Hleft as (Dl & Pl & HDl & HPl & HsDl & HokPl).
    destruct Hright as (HDr & HPr).
    destruct (full_left_ok grad f (split key 2 0) ind outd t Dl Pl
                           Htau Hgrad HDl HPl HsDl HokPl) as [El Hl].
    rewrite El. cbn [bind option_map fst snd].
    eexists. split; [reflexivity |]. cbn [l_data l_proj r_data r_proj].
    split; [| split; [| split]].
    + do 2 eexists. repeat split; try apply Hl. apply store_proj_ok.
    + now split.
    + intros D P HD HP. rewrite HD in HDl. rewrite HP in HPl.
      inversion HDl; inversion HPl; subst. now split.
    + intros D P HD HP. congruence.
  - destruct Hleft as (HDl & HPl).
    destruct Hright as (Dr & Pr & HDr & HPr & HsDr & HokPr).
    destruct (full_right_ok grad f (split key 2 1) ind outd t Dr Pr
                            Htau Hgrad HDr HPr HsDr HokPr) as [Er Hr].
    rewrite Er. cbn [bind option_map fst snd].
    eexists. split; [reflexivity |]. cbn [l_data l_proj r_data r_proj].
    split; [| split; [| split]].
    + now split.
    + do 2 eexists. repeat split; try apply Hr. apply store_proj_ok.
    + intros D P HD HP. congruence.
    + intros D P HD HP. rewrite HD in HDr. rewrite HP in HPr.
      inversion HDr; inversion HPr; subst. now split.
  - cbn [bind option_map].
    eexists. split; [reflexivity |]. cbn [l_data l_proj r_data r_proj].
    destruct Hleft, Hright.
    repeat split; intros; congruence.
Qed.

Lemma partial_layer_factored :
  exists f' : TwoSide,
    _partial_layer_fn cfg grad (TwoSideRandomDecomposition f) key
    = Ok (TwoSideRandomDecomposition f')
    /\ side_ok cfg (has_left (pick_side cfg ind outd)) (l_data f') (l_proj f')
               [t; ind] [outd; t]
    /\ side_ok cfg (has_right (pick_side cfg ind outd)) (r_data f') (r_proj f')
               [outd; t] [t; ind]
    /\ l_proj f' = l_proj f
    /\ r_proj f' = r_proj f
    /\ (forall D P, l_data f = Some D -> l_proj f = Some P ->
                    l_data f'
                    = Some (beta cfg *: D
                            +: rsub rone (beta cfg)
                               *: ((proj_value P outd t)^T @@ grad^T))%tensor)
    /\ (forall D P, r_data f = Some D -> r_proj f = Some P ->
                    r_data f'
                    = Some (beta cfg *: D
                            +: rsub rone (beta cfg)
                               *: (grad^T @@ (proj_value P t ind)^T))%tensor).
Proof.
  unfold _partial_layer_fn.
  rewrite (has_shape_shape _ _ Hgrad), Hsf. cbn [negb unpack2 bind get_fields].
  unfold side_ok in Hleft, Hright.
  destruct (has_left (pick_side cfg ind outd));
    destruct (has_right (pick_side cfg ind outd)).
  - destruct Hleft as (Dl & Pl & HDl & HPl & HsDl & HokPl).
    destruct Hright as (Dr & Pr & HDr & HPr & HsDr & HokPr).
    destruct (partial_left_ok grad f ind outd t Dl Pl
                              Htau Hgrad HDl HPl HsDl HokPl) as [El Hl].
    destruct (partial_right_ok grad f ind outd t Dr Pr
                               Htau Hgrad HDr HPr HsDr HokPr) as [Er Hr].
    rewrite El, Er. cbn [bind].
    eexists. split; [reflexivity |]. cbn [l_data l_proj r_data r_proj].
    split; [| split; [| split; [| split; [| split]]]]; try reflexivity.
    + do 2 eexists. repeat split; try apply Hl; eauto.
    + do 2 eexists. repeat split; try apply Hr; eauto.
    + intros D P HD HP. rewrite HD in HDl. rewrite HP in HPl.
      now inversion HDl; inversion HPl; subst.
    + intros D P HD HP. rewrite HD in HDr. rewrite HP in HPr.
      now inversion HDr; inversion HPr; subst.
  - destruct Hleft as (Dl & Pl & HDl & HPl & HsDl & HokPl).
    destruct Hright as (HDr & HPr).
    destruct (partial_left_ok grad f ind outd t Dl Pl
                              Htau Hgrad HDl HPl HsDl HokPl) as [El Hl].
    rewrite El. cbn [bind].
    eexists. split; [reflexivity |]. cbn [l_data l_proj r_data r_proj].
    split; [| split; [| split; [| split; [| split]]]]; try reflexivity.
    + do 2 eexists. repeat split; try apply Hl; eauto.
    + now split.
    + now rewrite HPr.
    + intros D P HD HP. rewrite HD in HDl. rewrite HP in HPl.
      now inversion HDl; inversion HPl; subst.
    + intros D P HD HP. congruence.
  - destruct Hleft as (HDl & HPl).
    destruct Hright as (Dr & Pr & HDr & HPr & HsDr & HokPr).
    destruct (partial_right_ok grad f ind outd t Dr Pr
                               Htau Hgrad HDr HPr HsDr HokPr) as [Er Hr].
    rewrite Er. cbn [bind].
    eexists. split; [reflexivity |]. cbn [l_data l_proj r_data r_proj].
    split; [| split; [| split; [| split; [| split]]]]; try reflexivity.
    + now split.
    + do 2 eexists. repeat split; try apply Hr; eauto.
    + now rewrite HPl.
    + intros D P HD HP. congruence.
    + intros D P HD HP. rewrite HD in HDr. rewrite HP in HPr.
      now inversion HDr; inversion HPr; subst.
  - cbn [bind].
    eexists. split; [reflexivity |]. cbn [l_data l_proj r_data r_proj].
    destruct Hleft as [HDl HPl], Hright as [HDr HPr].
    rewrite HPl, HPr.
    repeat split; intros; congruence.
Qed.

End Factored.

End Leaves.

Section Leaves2.
Context {R Key : Type} `{Scalar R} `{Prng Key R}.
Variable cfg : Config R.

Local Abbreviation tensor := (Tensor.tensor R).
Local Abbreviation Proj := (Flora.Proj R Key).
Local Abbreviation TwoSide := (Flora.TwoSide R Key).
Local Abbreviation Decomposition := (Flora.Decomposition R Key).

(** A decomposition that satisfies the invariant of a factorized shape. *)
Lemma dcomp_ok_factored (s : list nat) (dcomp : Decomposition) :
  should_factorize cfg s = true ->
  dcomp_ok cfg s dcomp ->
  exists ind outd t f,
    s = [ind; outd] /\ tau cfg = Some t
    /\ dcomp = TwoSideRandomDecomposition f
    /\ side_ok cfg (has_left (pick_side cfg ind outd)) (l_data f) (l_proj f)
               [t; ind] [outd; t]
    /\ side_ok cfg (has_right (pick_side cfg ind outd)) (r_data f) (r_proj f)
               [outd; t] [t; ind].
Proof.
  intros Hsf Hok. unfold dcomp_ok in Hok. rewrite Hsf in Hok.
  destruct s as [| ind [| outd [| ? ?]]]; try contradiction.
  destruct (tau cfg) as [t |]; try contradiction.
  destruct dcomp as [d | f]; try contradiction.
  destruct Hok as [Hl Hr]. exists ind, outd, t, f. auto.
Qed.

Lemma dcomp_ok_naive (s : list nat) (dcomp : Decomposition) :
  should_factorize cfg s = false ->
  dcomp_ok cfg s dcomp ->
  exists d, dcomp = NaiveDecomposition d /\ has_shape s d.
Proof.
  intros Hsf Hok. unfold dcomp_ok in Hok. rewrite Hsf in Hok.
  destruct dcomp as [d | f]; [eauto | contradiction].
Qed.

Lemma dcomp_ok_intro_factored (ind outd t : nat) (f : TwoSide) :
  should_factorize cfg [ind; outd] = true -> tau cfg = Some t ->
  side_ok cfg (has_left (pick_side cfg ind outd)) (l_data f) (l_proj f)
          [t; ind] [outd; t] ->
  side_ok cfg (has_right (pick_side cfg ind outd)) (r_data f) (r_proj f)
          [outd; t] [t; ind] ->
  dcomp_ok cfg [ind; outd] (TwoSideRandomDecomposition f).
Proof.
  intros Hsf Htau Hl Hr. unfold dcomp_ok. rewrite Hsf, Htau. now split.
Qed.

Lemma dcomp_ok_intro_naive (s : list nat) (d : tensor) :
  should_factorize cfg s = false -> has_shape s d ->
  dcomp_ok cfg s (NaiveDecomposition d : Decomposition).
Proof. intros Hsf Hd. unfold dcomp_ok. now rewrite Hsf. Qed.

Lemma full_layer_ok (s : list nat) (grad : tensor) (dcomp : Decomposition) (key : Key) :
  has_shape s grad -> dcomp_ok cfg s dcomp ->
  exists d', _full_layer_fn cfg grad dcomp key = Ok d' /\ dcomp_ok cfg s d'.
Proof.
  intros Hg Hok. destruct (should_factorize cfg s) eqn:Hsf.
  - destruct (dcomp_ok_factored s dcomp Hsf Hok)
      as (ind & outd & t & f & -> & Htau & -> & Hl & Hr).
    destruct (full_layer_factored cfg ind outd t grad f key Hsf Htau Hg Hl Hr)
      as (f' & E & Hl' & Hr' & _).
    exists (TwoSideRandomDecomposition f'). split; [exact E |].
    now apply (dcomp_ok_intro_factored ind outd t).
  - destruct (dcomp_ok_naive s dcomp Hsf Hok) as (d & -> & Hd).
    unfold _full_layer_fn. rewrite (has_shape_shape _ _ Hg), Hsf. cbn [negb].
    rewrite naive_fn_eq
      by (rewrite (has_shape_shape _ _ Hg); exact (has_shape_shape _ _ Hd)).
    eexists. split; [reflexivity |].
    apply dcomp_ok_intro_naive; [exact Hsf |].
    apply plus_has_shape; apply smul_has_shape; assumption.
Qed.

Lemma partial_layer_ok (s : list nat) (grad : tensor) (dcomp : Decomposition) (key : Key) :
  has_shape s grad -> dcomp_ok cfg s dcomp ->
  exists d', _partial_layer_fn cfg grad dcomp key = Ok d' /\ dcomp_ok cfg s d'.
Proof.
  intros Hg Hok. destruct (should_factorize cfg s) eqn:Hsf.
  - destruct (dcomp_ok_factored s dcomp Hsf Hok)
      as (ind & outd & t & f & -> & Htau & -> & Hl & Hr).
    destruct (partial_layer_factored cfg ind outd t grad f key Hsf Htau Hg Hl Hr)
      as (f' & E & Hl' & Hr' & _).
    exists (TwoSideRandomDecomposition f'). split; [exact E |].
    now apply (dcomp_ok_intro_factored ind outd t).
  - destruct (dcomp_ok_naive s dcomp Hsf Hok) as (d & -> & Hd).
    unfold _partial_layer_fn. rewrite (has_shape_shape _ _ Hg), Hsf. cbn [negb].
    rewrite naive_fn_eq
      by (rewrite (has_shape_shape _ _ Hg); exact (has_shape_shape _ _ Hd)).
    eexists. split; [reflexivity |].
    apply dcomp_ok_intro_naive; [exact Hsf |].
    apply plus_has_shape; apply smul_has_shape; assumption.
Qed.

Lemma init_layer_ok (params : tensor) (key : Key) (d : Decomposition) :
  _init_layer cfg params key = Ok d -> dcomp_ok cfg (shape params) d.
Proof.
  unfold _init_layer. destruct (should_factorize cfg (shape params)) eqn:Hsf.
  - assert (Hlen : length (shape params) = 2).
    { unfold should_factorize, Policy.should_factorize in Hsf.
      destruct (factored cfg); simpl in Hsf; [| discriminate].
      destruct (Nat.eqb_spec (length (shape params)) 2); [assumption | discriminate]. }
    destruct (shape params) as [| ind [| outd [| ? ?]]] eqn:Hs; try discriminate.
    cbn [unpack2 bind]. unfold get_tau.
    destruct (tau cfg) as [t |] eqn:Htau; cbn [bind]; [| discriminate].
    intros E. inversion E; subst; clear E.
    apply (dcomp_ok_intro_factored ind outd t); try assumption;
      cbn [l_data l_proj r_data r_proj]; unfold side_ok.
    + destruct (has_left (pick_side cfg ind outd)); [| now split].
      do 2 eexists. repeat split; try apply zeros_has_shape. apply store_proj_ok.
    + destruct (has_right (pick_side cfg ind outd)); [| now split].
      do 2 eexists. repeat split; try apply zeros_has_shape. apply store_proj_ok.
  - intros E. inversion E; subst.
    apply dcomp_ok_intro_naive; [exact Hsf | apply zeros_has_shape].
Qed.

(** [_init_layer] fails only for want of [tau]. *)
Lemma init_layer_total (params : tensor) (key : Key) (t : nat) :
  tau cfg = Some t -> exists d, _init_layer cfg params key = Ok d.
Proof.
  intros Htau. unfold _init_layer.
  destruct (should_factorize cfg (shape params)) eqn:Hsf; [| eauto].
  assert (Hlen : length (shape params) = 2).
  { unfold should_factorize, Policy.should_factorize in Hsf.
    destruct (factored cfg); simpl in Hsf; [| discriminate].
    destruct (Nat.eqb_spec (length (shape params)) 2); [assumption | discriminate]. }
  destruct (shape params) as [| ind [| outd [| ? ?]]] eqn:Hs; try discriminate.
  cbn [unpack2 bind]. unfold get_tau. rewrite Htau. cbn [bind]. eauto.
Qed.

Lemma query_layer_ok (s : list nat) (grad : tensor) (dcomp : Decomposition) :
  shape grad = s -> dcomp_ok cfg s dcomp ->
  exists out, query_layer_fn cfg grad dcomp = Ok out
              /\ has_shape s out
              /\ moment_of cfg s dcomp = Some out.
Proof.
  intros Hg Hok. unfold query_layer_fn. rewrite Hg.
  destruct (should_factorize cfg s) eqn:Hsf; cbn [negb].
  - destruct (dcomp_ok_factored s dcomp Hsf Hok)
      as (ind & outd & t & f & -> & Htau & -> & Hl & Hr).
    cbn [unpack2 bind get_fields moment_of]. rewrite Htau.
    unfold side_ok in Hl, Hr.
    destruct (side_cases (pick_side cfg ind outd))
      as [(E & El & Er) | [(E & El & Er) | (Enl & Enr & El & Er)]];
      rewrite El in Hl; rewrite Er in Hr.
    + rewrite E. cbn [String.eqb Ascii.eqb Bool.eqb].
      destruct Hl as (D & P & HD & HP & [HsD WD] & HokP).
      destruct Hr as (HDr & HPr).
      destruct (load_proj_ok cfg P (fun t => (outd, t)) t Htau HokP)
        as [Hload [HsP WP]]. simpl in HsP, Hload.
      rewrite HP, HD, HDr, HPr, Hload. cbn [bind not_none].
      rewrite (matmul_ok _ _ _ _ _ HsP HsD). cbn [bind].
      pose proof (mm_has_shape _ _ _ _ _ _ HsP HsD) as [Hm _].
      rewrite (transpose_ok _ _ _ Hm).
      eexists. split; [reflexivity |]. split; [| reflexivity].
      exact (T_has_shape _ _ _ Hm).
    + rewrite E. cbn [String.eqb Ascii.eqb Bool.eqb].
      destruct Hr as (D & P & HD & HP & [HsD WD] & HokP).
      destruct Hl as (HDl & HPl).
      destruct (load_proj_ok cfg P (fun t => (t, ind)) t Htau HokP)
        as [Hload [HsP WP]]. simpl in HsP, Hload.
      rewrite HP, HD, HDl, HPl, Hload. cbn [bind not_none].
      rewrite (matmul_ok _ _ _ _ _ HsD HsP). cbn [bind].
      pose proof (mm_has_shape _ _ _ _ _ _ HsD HsP) as [Hm _].
      rewrite (transpose_ok _ _ _ Hm).
      eexists. split; [reflexivity |]. split; [| reflexivity].
      exact (T_has_shape _ _ _ Hm).
    + rewrite Enl, Enr.
      destruct Hl as (Dl & Pl & HDl & HPl & [HsDl WDl] & HokPl).
      destruct Hr as (Dr & Pr & HDr & HPr & [HsDr WDr] & HokPr).
      destruct (load_proj_ok cfg Pl (fun t => (outd, t)) t Htau HokPl)
        as [Hloadl [HsPl WPl]]. simpl in HsPl, Hloadl.
      destruct (load_proj_ok cfg Pr (fun t => (t, ind)) t Htau HokPr)
        as [Hloadr [HsPr WPr]]. simpl in HsPr, Hloadr.
      rewrite HPl, HDl, HPr, HDr, Hloadl, Hloadr. cbn [bind not_none].
      rewrite (matmul_ok _ _ _ _ _ HsDr HsPr). cbn [bind].
      rewrite (matmul_ok _ _ _ _ _ HsPl HsDl). cbn [bind].
      pose proof (mm_has_shape _ _ _ _ _ _ HsDr HsPr) as Hmr.
      pose proof (mm_has_shape _ _ _ _ _ _ HsPl HsDl) as Hml.
      rewrite (add_ok [outd; ind]) by (apply has_shape_shape; assumption).
      cbn [bind].
      pose proof (plus_has_shape _ _ _ Hmr Hml) as [Hsum _].
      rewrite (transpose_ok _ _ _ Hsum). cbn [bind].
      eexists. split; [reflexivity |]. split; [| reflexivity].
      apply divs_has_shape. exact (T_has_shape _ _ _ Hsum).
  - destruct (dcomp_ok_naive s dcomp Hsf Hok) as (d & -> & Hd).
    exists d. split; [reflexivity |]. split; [exact Hd | reflexivity].
Qed.

End Leaves2.

End LeafFacts.

(** ** Whole states *)

Module StateFacts.
Import Tensor Flora Inv ResultFacts TensorFacts LeafFacts.

Section Trees.
Context {R Key : Type} `{Scalar R} `{Prng Key R}.

Lemma tree_map2_inv {A B C : Type} (f : A -> B -> result C) xs ys zs :
  tree_map2 f xs ys = Ok zs ->
  length xs = length ys /\ length zs = length xs
  /\ forall i x y, nth_error xs i = Some x -> nth_error ys i = Some y ->
                   exists z, nth_error zs i = Some z /\ f x y = Ok z.
Proof.
  unfold tree_map2. destruct (Nat.eqb_spec (length xs) (length ys)) as [E | E];
    [| discriminate].
  intros Hm. split; [exact E |]. split.
  - apply mapM_length in Hm. rewrite Hm, length_combine, <- E. apply Nat.min_id.
  - intros i x y Hx Hy.
    exact (mapM_nth _ _ _ i (x, y) Hm (nth_error_combine xs ys i x y Hx Hy)).
Qed.

Lemma tree_map2_total {A B C : Type} (f : A -> B -> result C) xs ys :
  length xs = length ys ->
  (forall i x y, nth_error xs i = Some x -> nth_error ys i = Some y ->
                 exists z, f x y = Ok z) ->
  exists zs, tree_map2 f xs ys = Ok zs.
Proof.
  intros E Hall. unfold tree_map2. rewrite E, Nat.eqb_refl.
  apply mapM_total. apply Forall_nth_error. intros i p Hp.
  apply nth_error_combine_inv in Hp as [Hx Hy]. exact (Hall i _ _ Hx Hy).
Qed.

Lemma tree_map3_inv {A B C D : Type} (f : A -> B -> C -> result D) xs ys zs ds :
  tree_map3 f xs ys zs = Ok ds ->
  length xs = length ys /\ length xs = length zs /\ length ds = length xs
  /\ forall i x y z,
      nth_error xs i = Some x -> nth_error ys i = Some y -> nth_error zs i = Some z ->
      exists d, nth_error ds i = Some d /\ f x y z = Ok d.
Proof.
  unfold tree_map3.
  destruct (Nat.eqb_spec (length xs) (length ys)) as [E1 | E1]; [| discriminate].
  destruct (Nat.eqb_spec (length xs) (length zs)) as [E2 | E2]; [| discriminate].
  simpl. intros Hm. split; [exact E1 |]. split; [exact E2 |]. split.
  - apply mapM_length in Hm. rewrite Hm, !length_combine. lia.
  - intros i x y z Hx Hy Hz.
    exact (mapM_nth _ _ _ i (x, (y, z)) Hm
             (nth_error_combine xs _ i x (y, z) Hx
                (nth_error_combine ys zs i y z Hy Hz))).
Qed.

Lemma tree_map3_total {A B C D : Type} (f : A -> B -> C -> result D) xs ys zs :
  length xs = length ys -> length xs = length zs ->
  (forall i x y z,
      nth_error xs i = Some x -> nth_error ys i = Some y -> nth_error zs i = Some z ->
      exists d, f x y z = Ok d) ->
  exists ds, tree_map3 f xs ys zs = Ok ds.
Proof.
  intros E1 E2 Hall. unfold tree_map3. rewrite <- E1, <- E2, Nat.eqb_refl. simpl.
  apply mapM_total. apply Forall_nth_error. intros i p Hp.
  apply nth_error_combine_inv in Hp as [Hx Hyz].
  apply nth_error_combine_inv in Hyz as [Hy Hz].
  exact (Hall i _ _ _ Hx Hy Hz).
Qed.

Lemma split_like_tree_length {A : Type} (rng : Key) (tree : list A) :
  length (random_split_like_tree rng tree) = length tree.
Proof. unfold random_split_like_tree. now rewrite length_map, length_seq. Qed.

Lemma split_like_tree_nth {A : Type} (rng : Key) (tree : list A) i k :
  nth_error (random_split_like_tree rng tree) i = Some k ->
  k = leaf_key rng (length tree) i.
Proof.
  unfold random_split_like_tree. intros Hk.
  rewrite nth_error_map in Hk.
  destruct (nth_error (seq 0 (length tree)) i) as [j |] eqn:Ej; [| discriminate].
  simpl in Hk. inversion Hk; subst. f_equal.
  assert (Hi : i < length (seq 0 (length tree))).
  { apply nth_error_Some. congruence. }
  rewrite length_seq in Hi.
  rewrite (nth_error_nth' _ 0) in Ej by (rewrite length_seq; exact Hi).
  rewrite seq_nth in Ej by exact Hi. now inversion Ej.
Qed.

End Trees.

Section States.
Context {R Key : Type} `{Scalar R} `{Prng Key R}.
Variable cfg : Config R.

Local Abbreviation tensor := (Tensor.tensor R).
Local Abbreviation Proj := (Flora.Proj R Key).
Local Abbreviation TwoSide := (Flora.TwoSide R Key).
Local Abbreviation Decomposition := (Flora.Decomposition R Key).
Local Abbreviation State := (Flora.ScaleByFloraState R Key).

Lemma side_ok_aval present (d : option tensor) (p : option Proj) ds ps :
  side_ok cfg present d p ds ps ->
  option_map data_aval d = (if present then Some (AvalMatrix ds) else None)
  /\ option_map proj_aval p
     = (if present
        then Some (if rng_only cfg then AvalKey else AvalMatrix ps)
        else None).
Proof.
  unfold side_ok. destruct present.
  - intros (D & P & -> & -> & [HsD _] & HokP). simpl. unfold data_aval.
    rewrite HsD. split; [reflexivity |].
    destruct P as [t | k]; simpl in *.
    + destruct HokP as [-> [-> _]]. reflexivity.
    + now rewrite HokP.
  - now intros [-> ->].
Qed.

Lemma dcomp_ok_aval (s : list nat) (d1 d2 : Decomposition) :
  dcomp_ok cfg s d1 -> dcomp_ok cfg s d2 -> aval d1 = aval d2.
Proof.
  intros H1 H2. destruct (should_factorize cfg s) eqn:Hsf.
  - destruct (dcomp_ok_factored cfg s d1 Hsf H1)
      as (ind & outd & t & f1 & -> & Htau & -> & Hl1 & Hr1).
    destruct (dcomp_ok_factored cfg _ d2 Hsf H2)
      as (ind' & outd' & t' & f2 & Es & Htau' & -> & Hl2 & Hr2).
    inversion Es; subst ind' outd'. rewrite Htau in Htau'. inversion Htau'; subst t'.
    simpl.
    destruct (side_ok_aval _ _ _ _ _ Hl1) as [-> ->].
    destruct (side_ok_aval _ _ _ _ _ Hl2) as [-> ->].
    destruct (side_ok_aval _ _ _ _ _ Hr1) as [-> ->].
    destruct (side_ok_aval _ _ _ _ _ Hr2) as [-> ->].
    reflexivity.
  - destruct (dcomp_ok_naive cfg s d1 Hsf H1) as (x1 & -> & [E1 _]).
    destruct (dcomp_ok_naive cfg s d2 Hsf H2) as (x2 & -> & [E2 _]).
    simpl. congruence.
Qed.

Lemma Forall2_aval (shapes : list (list nat)) (ds1 ds2 : list Decomposition) :
  Forall2 (dcomp_ok cfg) shapes ds1 -> Forall2 (dcomp_ok cfg) shapes ds2 ->
  map aval ds1 = map aval ds2.
Proof.
  intros H1. revert ds2. induction H1 as [| s d1 shapes ds1 Hd1 _ IH];
    intros ds2 H2; inversion H2; subst; simpl; [reflexivity |].
  f_equal; [eapply dcomp_ok_aval; eauto | now apply IH].
Qed.

Lemma lax_cond_inv (pred : bool) (a b : result (list Decomposition)) r :
  lax_cond pred a b = Ok r ->
  exists x y, a = Ok x /\ b = Ok y /\ r = if pred then x else y.
Proof.
  unfold lax_cond. destruct a as [x | e]; [| discriminate].
  destruct b as [y | e]; [| discriminate]. cbn [bind].
  destruct (Aval_eq_dec (map aval x) (map aval y)); [| discriminate].
  intros E. inversion E. eauto.
Qed.

Lemma shapes_nth (grads : list tensor) (shapes : list (list nat)) i g :
  map shape grads = shapes -> nth_error grads i = Some g ->
  nth_error shapes i = Some (shape g).
Proof. intros <- Hg. now apply map_nth_error. Qed.

Lemma jnp_mod_0_l (k : Z) : jnp_mod 0 k = 0%Z.
Proof. unfold jnp_mod. destruct (k =? 0)%Z; [reflexivity | apply Zmod_0_l]. Qed.

Lemma jnp_mod_mod (a k : Z) : k <> 0%Z -> jnp_mod a k = (a mod k)%Z.
Proof. intros Hk. unfold jnp_mod. apply Z.eqb_neq in Hk. now rewrite Hk. Qed.

Lemma jnp_mod_zero_divisor (a : Z) : jnp_mod a 0 = 0%Z.
Proof. reflexivity. Qed.

(** What one [update_state] does, leaf by leaf. *)
Lemma update_state_inv (grads : list tensor) (st st' : State) :
  update_state cfg grads st = Ok st' ->
  count st' = wrap32 (count st + 1)
  /\ rng st' = next_rng_key (rng st)
  /\ length (decomposition st') = length grads
  /\ length (decomposition st) = length grads
  /\ forall i grad dcomp,
      nth_error grads i = Some grad ->
      nth_error (decomposition st) i = Some dcomp ->
      exists d',
        nth_error (decomposition st') i = Some d'
        /\ (if (jnp_mod (count st) (kappa cfg) =? 0)%Z
            then _full_layer_fn cfg grad dcomp (leaf_key (rng st) (length grads) i)
            else _partial_layer_fn cfg grad dcomp (leaf_key (rng st) (length grads) i))
           = Ok d'.
Proof.
  unfold update_state. intros Hu.
  apply bind_ok in Hu as (ds & Hc & Hu). inversion Hu; subst; clear Hu.
  cbn [count rng decomposition].
  apply lax_cond_inv in Hc as (x & y & Hx & Hy & ->).
  unfold astype_mu_dtype in Hx, Hy. rewrite map_id in Hx, Hy.
  apply tree_map3_inv in Hx as (Lx1 & Lx2 & Lx3 & Hx).
  apply tree_map3_inv in Hy as (Ly1 & Ly2 & Ly3 & Hy).
  split; [reflexivity |]. split; [reflexivity |].
  split; [now destruct (jnp_mod (count st) (kappa cfg) =? 0)%Z |].
  split; [now symmetry |].
  intros i grad dcomp Hg Hd.
  destruct (nth_error_some_lt grads (random_split_like_tree (rng st) grads) i grad Lx2 Hg)
    as (k & Hk).
  pose proof (split_like_tree_nth _ _ _ _ Hk) as ->.
  destruct (jnp_mod (count st) (kappa cfg) =? 0)%Z.
  - exact (Hx i grad dcomp _ Hg Hd Hk).
  - exact (Hy i grad dcomp _ Hg Hd Hk).
Qed.

(** On a state that satisfies the invariant, [update_state] returns a
    state and the state satisfies the invariant. *)
Lemma update_state_ok (shapes : list (list nat)) (grads : list tensor) (st : State) :
  state_ok cfg shapes st ->
  map shape grads = shapes -> Forall well_formed grads ->
  exists st', update_state cfg grads st = Ok st' /\ state_ok cfg shapes st'.
Proof.
  intros Hok Hs Hw.
  pose proof (Forall2_len _ _ _ Hok) as Hlen.
  assert (Lg : length grads = length shapes) by (rewrite <- Hs; now rewrite length_map).
  assert (Hleaf : forall i grad dcomp,
             nth_error grads i = Some grad ->
             nth_error (decomposition st) i = Some dcomp ->
             has_shape (shape grad) grad /\ dcomp_ok cfg (shape grad) dcomp).
  { intros i grad dcomp Hg Hd. split.
    - split; [reflexivity |]. rewrite Forall_forall in Hw. apply Hw.
      eapply nth_error_In; eauto.
    - exact (Forall2_nth _ _ _ Hok i _ _ (shapes_nth _ _ _ _ Hs Hg) Hd). }
  assert (Hfull : exists ds,
             tree_map3 (_full_layer_fn cfg) grads (decomposition st)
                       (random_split_like_tree (rng st) grads) = Ok ds).
  { apply tree_map3_total; [lia | now rewrite split_like_tree_length |].
    intros i x y z Hx Hy _. destruct (Hleaf i x y Hx Hy) as [Hg Hd].
    destruct (full_layer_ok cfg _ x y z Hg Hd) as (d' & E & _). eauto. }
  assert (Hpart : exists ds,
             tree_map3 (_partial_layer_fn cfg) grads (decomposition st)
                       (random_split_like_tree (rng st) grads) = Ok ds).
  { apply tree_map3_total; [lia | now rewrite split_like_tree_length |].
    intros i x y z Hx Hy _. destruct (Hleaf i x y Hx Hy) as [Hg Hd].
    destruct (partial_layer_ok cfg _ x y z Hg Hd) as (d' & E & _). eauto. }
  destruct Hfull as (fs & Hfs). destruct Hpart as (ps & Hps).
  assert (Hfs_ok : Forall2 (dcomp_ok cfg) shapes fs).
  { pose proof (tree_map3_inv _ _ _ _ _ Hfs) as (_ & L2 & L3 & Hn).
    apply Forall2_nth_error; [lia |].
    intros i s d Hsi Hdi.
    destruct (nth_error_some_lt shapes grads i s (eq_sym Lg) Hsi) as (g & Hg).
    destruct (nth_error_some_lt grads (decomposition st) i g ltac:(lia) Hg) as (dc & Hdc).
    destruct (nth_error_some_lt grads (random_split_like_tree (rng st) grads) i g L2 Hg)
      as (k & Hk).
    destruct (Hn i g dc k Hg Hdc Hk) as (d' & Hd' & E).
    rewrite Hdi in Hd'. inversion Hd'; subst d'.
    rewrite (shapes_nth _ _ _ _ Hs Hg) in Hsi. inversion Hsi; subst s.
    destruct (Hleaf i g dc Hg Hdc) as [Hgs Hdo].
    destruct (full_layer_ok cfg _ g dc k Hgs Hdo) as (d'' & E' & Hd'').
    congruence. }
  assert (Hps_ok : Forall2 (dcomp_ok cfg) shapes ps).
  { pose proof (tree_map3_inv _ _ _ _ _ Hps) as (_ & L2 & L3 & Hn).
    apply Forall2_nth_error; [lia |].
    intros i s d Hsi Hdi.
    destruct (nth_error_some_lt shapes grads i s (eq_sym Lg) Hsi) as (g & Hg).
    destruct (nth_error_some_lt grads (decomposition st) i g ltac:(lia) Hg) as (dc & Hdc).
    destruct (nth_error_some_lt grads (random_split_like_tree (rng st) grads) i g L2 Hg)
      as (k & Hk).
    destruct (Hn i g dc k Hg Hdc Hk) as (d' & Hd' & E).
    rewrite Hdi in Hd'. inversion Hd'; subst d'.
    rewrite (shapes_nth _ _ _ _ Hs Hg) in Hsi. inversion Hsi; subst s.
    destruct (Hleaf i g dc Hg Hdc) as [Hgs Hdo].
    destruct (partial_layer_ok cfg _ g dc k Hgs Hdo) as (d'' & E' & Hd'').
    congruence. }
  unfold update_state, astype_mu_dtype. rewrite map_id, Hfs, Hps.
  unfold lax_cond. cbn [bind].
  destruct (Aval_eq_dec (map aval fs) (map aval ps)) as [_ | Hne];
    [| exfalso; apply Hne; eapply Forall2_aval; eauto].
  eexists. split; [reflexivity |].
  unfold state_ok. cbn [decomposition].
  now destruct (jnp_mod (count st) (kappa cfg) =? 0)%Z.
Qed.

(** On a state that satisfies the invariant, [query] returns one array
    for each tensor: the moment its decomposition stands for, of the
    shape of the tensor. *)
Lemma query_ok (shapes : list (list nat)) (grads : list tensor) (st : State) :
  state_ok cfg shapes st ->
  map shape grads = shapes ->
  exists out,
    query cfg grads st = Ok out
    /\ Forall2 has_shape shapes out
    /\ Forall2 (fun s_d o => moment_of cfg (fst s_d) (snd s_d) = Some o)
               (combine shapes (decomposition st)) out.
Proof.
  intros Hok Hs.
  pose proof (Forall2_len _ _ _ Hok) as Hlen.
  assert (Lg : length grads = length shapes) by (rewrite <- Hs; now rewrite length_map).
  assert (Hleaf : forall i grad dcomp,
             nth_error grads i = Some grad ->
             nth_error (decomposition st) i = Some dcomp ->
             dcomp_ok cfg (shape grad) dcomp).
  { intros i grad dcomp Hg Hd.
    exact (Forall2_nth _ _ _ Hok i _ _ (shapes_nth _ _ _ _ Hs Hg) Hd). }
  destruct (tree_map2_total (query_layer_fn cfg) grads (decomposition st)) as (out & Hq).
  { lia. }
  { intros i x y Hx Hy.
    destruct (query_layer_ok cfg _ x y eq_refl (Hleaf i x y Hx Hy)) as (o & E & _).
    eauto. }
  exists out. split; [exact Hq |].
  apply tree_map2_inv in Hq as (L1 & L2 & Hn).
  assert (Hpt : forall i s d o,
             nth_error shapes i = Some s ->
             nth_error (decomposition st) i = Some d ->
             nth_error out i = Some o ->
             has_shape s o /\ moment_of cfg s d = Some o).
  { intros i s d o Hsi Hdi Hoi.
    destruct (nth_error_some_lt shapes grads i s (eq_sym Lg) Hsi) as (g & Hg).
    destruct (Hn i g d Hg Hdi) as (o' & Ho' & E).
    rewrite Hoi in Ho'. inversion Ho'; subst o'.
    rewrite (shapes_nth _ _ _ _ Hs Hg) in Hsi. inversion Hsi; subst s.
    destruct (query_layer_ok cfg _ g d eq_refl (Hleaf i g d Hg Hdi))
      as (o'' & E' & Hsh & Hm).
    assert (o'' = o) by congruence. subst o''. now split. }
  split.
  - apply Forall2_nth_error; [lia |].
    intros i s o Hsi Hoi.
    destruct (nth_error_some_lt shapes (decomposition st) i s Hlen Hsi) as (d & Hd).
    exact (proj1 (Hpt i s d o Hsi Hd Hoi)).
  - apply Forall2_nth_error; [rewrite length_combine; lia |].
    intros i p o Hp Hoi.
    apply nth_error_combine_inv in Hp as [Hsi Hd].
    exact (proj2 (Hpt i _ _ o Hsi Hd Hoi)).
Qed.

Lemma emit_ok (shapes : list (list nat)) (q grads : list tensor) :
  Forall2 has_shape shapes q ->
  map shape grads = shapes ->
  tree_map2 (fun m g => add (muls m (beta cfg)) (muls g (rsub rone (beta cfg))))
            q grads
  = Ok (map (fun p => emitted cfg (fst p) (snd p)) (combine q grads)).
Proof.
  intros Hq Hs.
  pose proof (Forall2_len _ _ _ Hq) as Lq.
  assert (Lg : length grads = length shapes) by (rewrite <- Hs; now rewrite length_map).
  unfold tree_map2. replace (length q =? length grads) with true
    by (symmetry; apply Nat.eqb_eq; lia).
  apply mapM_pure. apply Forall_nth_error. intros i [m g] Hp.
  apply nth_error_combine_inv in Hp as [Hm Hg]. simpl in Hm, Hg. simpl.
  destruct (nth_error_some_lt q shapes i m (eq_sym Lq) Hm) as (s & Hsi).
  pose proof (Forall2_nth _ _ _ Hq i s m Hsi Hm) as [Hms _].
  rewrite (shapes_nth _ _ _ _ Hs Hg) in Hsi. inversion Hsi; subst s.
  apply (add_ok (shape g)); simpl; congruence.
Qed.

(** On a state that satisfies the invariant, [update_fn] returns the
    blend of the queried moments with the gradients, and the state
    [update_state] returns. *)
Lemma update_fn_ok (shapes : list (list nat)) (grads : list tensor) (st : State) :
  state_ok cfg shapes st ->
  map shape grads = shapes -> Forall well_formed grads ->
  exists q st',
    query cfg grads st = Ok q
    /\ update_state cfg grads st = Ok st'
    /\ state_ok cfg shapes st'
    /\ update_fn cfg grads st
       = Ok (map (fun p => emitted cfg (fst p) (snd p)) (combine q grads), st').
Proof.
  intros Hok Hs Hw.
  destruct (query_ok shapes grads st Hok Hs) as (q & Hq & Hqs & _).
  destruct (update_state_ok shapes grads st Hok Hs Hw) as (st' & Hu & Hok').
  exists q, st'. repeat split; try assumption.
  unfold update_fn. rewrite Hq. cbn [bind].
  rewrite (emit_ok shapes q grads Hqs Hs). cbn [bind].
  now rewrite Hu.
Qed.

Lemma update_fn_inv (grads : list tensor) (st : State) u st' :
  update_fn cfg grads st = Ok (u, st') -> update_state cfg grads st = Ok st'.
Proof.
  unfold update_fn. intros Hu.
  apply bind_ok in Hu as (q & _ & Hu).
  apply bind_ok in Hu as (u' & _ & Hu).
  apply bind_ok in Hu as (s' & Hs' & Hu).
  inversion Hu; subst. exact Hs'.
Qed.

Lemma init_fn_inv (params : list tensor) (st : State) :
  init_fn cfg params = Ok st ->
  count st = 0%Z
  /\ rng st = PRNGKey (seed cfg)
  /\ state_ok cfg (map shape params) st.
Proof.
  unfold init_fn. intros Hi.
  apply bind_ok in Hi as (ds & Hds & Hi). inversion Hi; subst; clear Hi.
  split; [reflexivity |]. split; [reflexivity |].
  unfold state_ok. cbn [decomposition].
  apply tree_map2_inv in Hds as (L1 & L2 & Hn).
  apply Forall2_nth_error; [rewrite length_map; lia |].
  intros i s d Hsi Hdi.
  rewrite nth_error_map in Hsi.
  destruct (nth_error params i) as [p |] eqn:Hp; [| discriminate].
  simpl in Hsi. inversion Hsi; subst s.
  destruct (nth_error_some_lt params
              (random_split_like_tree (PRNGKey (seed cfg)) params) i p L1 Hp)
    as (k & Hk).
  destruct (Hn i p k Hp Hk) as (d' & Hd' & E).
  rewrite Hdi in Hd'. inversion Hd'; subst d'.
  exact (init_layer_ok cfg p k d E).
Qed.

(** [init_fn] fails only for want of [tau]. *)
Lemma init_fn_total (params : list tensor) (t : nat) :
  tau cfg = Some t -> exists st, init_fn cfg params = Ok st.
Proof.
  intros Htau. unfold init_fn.
  destruct (tree_map2_total (_init_layer cfg) params
              (random_split_like_tree (PRNGKey (seed cfg)) params)) as (ds & Hds).
  { now rewrite split_like_tree_length. }
  { intros i x y _ _. exact (init_layer_total cfg x y t Htau). }
  rewrite Hds. cbn [bind]. eauto.
Qed.

(** On a step the code does not take for a refresh, [update_state]
    returns every stored projection as it was. *)
Lemma partial_step_projections (shapes : list (list nat)) (grads : list tensor)
      (st st' : State) :
  state_ok cfg shapes st ->
  map shape grads = shapes -> Forall well_formed grads ->
  update_state cfg grads st = Ok st' ->
  (jnp_mod (count st) (kappa cfg) =? 0)%Z = false ->
  map projections (decomposition st') = map projections (decomposition st).
Proof.
  intros Hok Hs Hw Hu Hne.
  pose proof (update_state_inv grads st st' Hu) as (_ & _ & L' & L & Hn).
  apply nth_error_ext. intros i. rewrite !nth_error_map.
  destruct (nth_error (decomposition st) i) as [d |] eqn:Hd.
  - destruct (nth_error_some_lt (decomposition st) grads i d L Hd) as (g & Hg).
    destruct (Hn i g d Hg Hd) as (d' & Hd' & E). rewrite Hne in E.
    rewrite Hd'. simpl. f_equal.
    pose proof (Forall2_nth _ _ _ Hok i _ _ (shapes_nth _ _ _ _ Hs Hg) Hd) as Hdo.
    assert (Hgs : has_shape (shape g) g).
    { split; [reflexivity |]. rewrite Forall_forall in Hw. apply Hw.
      eapply nth_error_In; eauto. }
    destruct (should_factorize cfg (shape g)) eqn:Hsf.
    + destruct (dcomp_ok_factored cfg _ _ Hsf Hdo)
        as (ind & outd & t & f & Es & Htau & -> & Hl & Hr).
      rewrite Es in Hsf, Hgs.
      destruct (partial_layer_factored cfg ind outd t g f
                  (leaf_key (rng st) (length grads) i) Hsf Htau Hgs Hl Hr)
        as (f' & E' & _ & _ & HL & HR & _).
      rewrite E' in E. inversion E; subst d'. simpl. now rewrite HL, HR.
    + destruct (dcomp_ok_naive cfg _ _ Hsf Hdo) as (x & -> & [Hx _]).
      unfold _partial_layer_fn in E. rewrite Hsf in E. cbn [negb] in E.
      rewrite (naive_fn_eq cfg g x _ Hx) in E. now inversion E.
  - apply nth_error_None in Hd.
    assert (Hnone : nth_error (decomposition st') i = None)
      by (apply nth_error_None; lia).
    now rewrite Hnone.
Qed.

(** Every reachable state satisfies the invariant. *)
Lemma reachable_state_ok (params : list tensor) (st : State) :
  reachable cfg params st -> state_ok cfg (map shape params) st.
Proof.
  induction 1 as [st Hi | grads st u st' _ IH [Hs Hw] Hu].
  - apply (init_fn_inv params st Hi).
  - apply update_fn_inv in Hu.
    destruct (update_state_ok _ grads st IH Hs Hw) as (st'' & Hu' & Hok).
    congruence.
Qed.

End States.

End StateFacts.

(** ** The estimator *)

Module EstimatorFacts.
Import Tensor Flora Inv ResultFacts TensorFacts LeafFacts StateFacts.

Section Estimator.
Context {R Key : Type} `{Scalar R} `{Prng Key R}.
Variable cfg : Config R.

Local Abbreviation tensor := (Tensor.tensor R).
Local Abbreviation Proj := (Flora.Proj R Key).
Local Abbreviation TwoSide := (Flora.TwoSide R Key).
Local Abbreviation Decomposition := (Flora.Decomposition R Key).
Local Abbreviation State := (Flora.ScaleByFloraState R Key).

Lemma dcomp_ok_two_side (s : list nat) (f : TwoSide) :
  dcomp_ok cfg s (TwoSideRandomDecomposition f) -> should_factorize cfg s = true.
Proof.
  unfold dcomp_ok. destruct (should_factorize cfg s); [reflexivity | contradiction].
Qed.


(** C2: for a refresh period [kappa] other than 0, on a step whose count
    is not a multiple of [kappa] the update of a reachable state leaves
    the stored projections of every decomposition as they were (the
    matrices, or the keys in [rng_only] mode); stored projections differ
    after an update only when the count is a multiple of [kappa]. *)
Theorem partial_step_keeps_projections :
  forall (params grads : list tensor) (st : State),
    kappa cfg <> 0%Z ->
    reachable cfg params st ->
    fits params grads ->
    exists u st',
      update_fn cfg grads st = Ok (u, st')
      /\ ((count st mod kappa cfg)%Z <> 0%Z ->
          map projections (decomposition st') = map projections (decomposition st))
      /\ (map projections (decomposition st') <> map projections (decomposition st) ->
          exists m, count st = (m * kappa cfg)%Z).
Proof.
  intros params grads st Hkappa Hreach [Hs Hw].
  pose proof (reachable_state_ok cfg params st Hreach) as Hok.
  destruct (update_fn_ok cfg _ grads st Hok Hs Hw) as (q & st' & _ & Hu & _ & Hfn).
  eexists; exists st'. split; [exact Hfn |].
  assert (Hkeep : (count st mod kappa cfg)%Z <> 0%Z ->
                  map projections (decomposition st')
                  = map projections (decomposition st)).
  { intros Hne. rewrite <- (jnp_mod_mod _ _ Hkappa) in Hne. apply Z.eqb_neq in Hne.
    exact (partial_step_projections cfg _ grads st st' Hok Hs Hw Hu Hne). }
  split; [exact Hkeep |].
  intros Hdiff.
  destruct (Z.eq_dec (count st mod kappa cfg) 0) as [E | Hne];
    [| now elim Hdiff; apply Hkeep].
  exists (count st / kappa cfg)%Z.
  pose proof (Z_div_mod_eq_full (count st) (kappa cfg)). lia.
Qed.

Lemma muls_comm (c : R) (t : tensor) :
  (forall x y : R, rmul x y = rmul y x) -> muls t c = smul c t.
Proof.
  intros Hcomm. unfold muls, smul, tmap. f_equal.
  apply map_ext. intros x. apply Hcomm.
Qed.

(** C3: where scalar multiplication commutes, [update_fn] on a reachable
    state emits [beta * m + (1 - beta) * g] for every leaf, [m] being the
    moment [query] reads from the state as it is before the call, and
    returns next to it the state [update_state] computes from that same
    state, whose count and key have advanced by one. *)
Theorem update_fn_emits_from_old_state :
  (forall x y : R, rmul x y = rmul y x) ->
  forall (params grads : list tensor) (st : State),
    reachable cfg params st ->
    fits params grads ->
    exists q st',
      query cfg grads st = Ok q
      /\ update_state cfg grads st = Ok st'
      /\ update_fn cfg grads st
         = Ok (map (fun p : tensor * tensor =>
                      (beta cfg *: fst p +: rsub rone (beta cfg) *: snd p)%tensor)
                   (combine q grads),
               st')
      /\ count st' = wrap32 (count st + 1)
      /\ rng st' = next_rng_key (rng st).
Proof.
  intros Hcomm params grads st Hreach [Hs Hw].
  pose proof (reachable_state_ok cfg params st Hreach) as Hok.
  destruct (update_fn_ok cfg _ grads st Hok Hs Hw) as (q & st' & Hq & Hu & _ & Hfn).
  exists q, st'. split; [exact Hq |]. split; [exact Hu |].
  pose proof (update_state_inv cfg grads st st' Hu) as (Hc & Hr & _).
  split; [| now split].
  rewrite Hfn. do 2 f_equal. apply map_ext. intros [m g]. unfold emitted. simpl.
  now rewrite !muls_comm by exact Hcomm.
Qed.

Lemma dcomp_ok_variant (s : list nat) (d1 d2 : Decomposition) :
  dcomp_ok cfg s d1 -> dcomp_ok cfg s d2 -> variant d1 = variant d2.
Proof.
  intros H1 H2. pose proof (dcomp_ok_aval cfg s d1 d2 H1 H2) as Ha.
  destruct d1 as [x1 | f1], d2 as [x2 | f2]; simpl in *; try discriminate;
    [reflexivity |].
  inversion Ha as [[E1 E2 E3 E4]].
  destruct (l_data f1), (l_data f2), (l_proj f1), (l_proj f2),
    (r_data f1), (r_data f2), (r_proj f1), (r_proj f2); simpl in *;
    try discriminate; reflexivity.
Qed.

(** C6: every state reachable from [init_fn] by updates whose gradients
    fit the parameters has, tensor by tensor, the variant of the initial
    state: naive stays naive, and a factored decomposition keeps the
    fields that are populated; and every such update returns a state. *)
Theorem decomposition_variant_is_fixed :
  forall (params : list tensor) (st0 st : State),
    init_fn cfg params = Ok st0 ->
    reachable cfg params st ->
    map variant (decomposition st) = map variant (decomposition st0)
    /\ forall grads, fits params grads ->
                     exists u st', update_fn cfg grads st = Ok (u, st').
Proof.
  intros params st0 st Hi Hreach.
  pose proof (reachable_state_ok cfg params st Hreach) as Hok.
  destruct (init_fn_inv cfg params st0 Hi) as (_ & _ & Hok0).
  split.
  - unfold state_ok in Hok, Hok0. revert Hok0.
    generalize (decomposition st0).
    induction Hok as [| s d shapes ds Hd _ IH]; intros ds0 Hok0;
      inversion Hok0; subst; simpl; [reflexivity |].
    f_equal; [eapply dcomp_ok_variant; eauto | now apply IH].
  - intros grads [Hs Hw].
    destruct (update_fn_ok cfg _ grads st Hok Hs Hw) as (q & st' & _ & _ & _ & Hfn).
    eauto.
Qed.

(** C7: on a reachable state, for gradients of the shapes of the
    parameters, [query] returns for every tensor an array of the shape of
    the tensor, with as many elements as the shape says; it is the naive
    buffer, [(l_proj @ l_data)^T], [(r_data @ r_proj)^T] or
    [((r_data @ r_proj + l_proj @ l_data)^T) / 2] according to the sides
    the decomposition populates. *)
Theorem query_preserves_shape :
  forall (params grads : list tensor) (st : State),
    reachable cfg params st ->
    map shape grads = map shape params ->
    exists out,
      query cfg grads st = Ok out
      /\ Forall2 has_shape (map shape params) out
      /\ Forall2 (fun s_d o => moment_of cfg (fst s_d) (snd s_d) = Some o)
                 (combine (map shape params) (decomposition st)) out.
Proof.
  intros params grads st Hreach Hs.
  exact (query_ok cfg _ grads st (reachable_state_ok cfg params st Hreach) Hs).
Qed.

Lemma invalid_side_has_both (ind outd : nat) :
  side cfg <> "left"%string -> side cfg <> "right"%string ->
  side cfg <> "auto"%string ->
  has_left (pick_side cfg ind outd) = true
  /\ has_right (pick_side cfg ind outd) = true.
Proof.
  intros Hl Hr Ha. unfold pick_side, has_left, has_right.
  apply String.eqb_neq in Hl, Hr, Ha. now rewrite Ha, Hl, Hr.
Qed.

(** C10 as amended: a [side] other than "left", "right" and "auto" raises
    nothing.  [init_fn] returns a state whenever [tau] is a number; in
    every reachable state each decomposition is naive or has all four
    fields populated; [update_fn] returns on it; and [query] returns on
    it one array for each parameter: the stored data for a naive
    decomposition and, for a factorized one, the mean of the two
    reconstructions, [((r_data @ r_proj + l_proj @ l_data)^T) / 2]. *)
Theorem invalid_side_populates_both :
  side cfg <> "left"%string -> side cfg <> "right"%string ->
  side cfg <> "auto"%string ->
  forall params : list tensor,
    (forall t, tau cfg = Some t -> exists st0, init_fn cfg params = Ok st0)
    /\ forall st : State,
        reachable cfg params st ->
        Forall (fun d => variant d = VNaive
                         \/ variant d = VFactored true true true true)
               (decomposition st)
        /\ forall grads,
            fits params grads ->
            (exists u st', update_fn cfg grads st = Ok (u, st'))
            /\ (exists out,
                   query cfg grads st = Ok out
                   /\ length out = length params
                   /\ forall i p d o,
                       nth_error params i = Some p ->
                       nth_error (decomposition st) i = Some d ->
                       nth_error out i = Some o ->
                       match d with
                       | NaiveDecomposition x => o = x
                       | TwoSideRandomDecomposition f =>
                           exists ind outd t Dl Pl Dr Pr,
                             shape p = [ind; outd] /\ tau cfg = Some t
                             /\ l_data f = Some Dl /\ l_proj f = Some Pl
                             /\ r_data f = Some Dr /\ r_proj f = Some Pr
                             /\ o = divs ((Dr @@ proj_value Pr t ind
                                           +: proj_value Pl outd t @@ Dl)^T)%tensor
                                         (rnat 2)
                       end).
Proof.
  intros Hl Hr Ha params. split.
  - intros t Htau. exact (init_fn_total cfg params t Htau).
  - intros st Hreach.
    pose proof (reachable_state_ok cfg params st Hreach) as Hok.
    split.
    + unfold state_ok in Hok.
      induction Hok as [| s d shapes ds Hd _ IH]; constructor; [| exact IH].
      destruct (should_factorize cfg s) eqn:Hsf.
      * destruct (dcomp_ok_factored cfg s d Hsf Hd)
          as (ind & outd & t & f & -> & Htau & -> & HL & HR).
        destruct (invalid_side_has_both ind outd Hl Hr Ha) as [El Er].
        rewrite El in HL. rewrite Er in HR.
        destruct HL as (Dl & Pl & EDl & EPl & _).
        destruct HR as (Dr & Pr & EDr & EPr & _).
        right. simpl. now rewrite EDl, EPl, EDr, EPr.
      * destruct (dcomp_ok_naive cfg s d Hsf Hd) as (x & -> & _). now left.
    + intros grads [Hs Hw]. split.
      * destruct (update_fn_ok cfg _ grads st Hok Hs Hw)
          as (q & st' & _ & _ & _ & Hfn). eauto.
      * destruct (query_ok cfg _ grads st Hok Hs) as (out & Hq & Hsh & Hm).
        exists out. split; [exact Hq |].
        split; [apply Forall2_len in Hsh; now rewrite length_map in Hsh |].
        intros i p d o Hp Hd Ho.
        assert (Hsi : nth_error (map shape params) i = Some (shape p))
          by now apply map_nth_error.
        pose proof (Forall2_nth _ _ _ Hm i _ _
                      (nth_error_combine _ _ _ _ _ Hsi Hd) Ho) as Hmo.
        cbn [fst snd] in Hmo.
        pose proof (Forall2_nth _ _ _ Hok i _ _ Hsi Hd) as Hdo.
        destruct d as [x | f]; [simpl in Hmo; congruence |].
        pose proof (dcomp_ok_two_side _ _ Hdo) as Hsf.
        destruct (dcomp_ok_factored cfg _ _ Hsf Hdo)
          as (ind & outd & t & f0 & Es & Htau & Ef & HL & HR).
        inversion Ef; subst f0.
        destruct (invalid_side_has_both ind outd Hl Hr Ha) as [El Er].
        rewrite El in HL. rewrite Er in HR.
        destruct HL as (Dl & Pl & EDl & EPl & _).
        destruct HR as (Dr & Pr & EDr & EPr & _).
        exists ind, outd, t, Dl, Pl, Dr, Pr.
        repeat (split; [assumption |]).
        unfold moment_of in Hmo. rewrite Es, Htau, EDl, EPl, EDr, EPr in Hmo.
        congruence.
Qed.

End Estimator.

Section Naive.
Context {R Key : Type} `{Scalar R} `{Prng Key R}.
Variable cfg : Config R.
Hypothesis Hdisabled : factored cfg = false.

Local Abbreviation tensor := (Tensor.tensor R).
Local Abbreviation Decomposition := (Flora.Decomposition R Key).
Local Abbreviation State := (Flora.ScaleByFloraState R Key).
Local Abbreviation Naive := (@NaiveDecomposition R Key).

Lemma never_factorized (s : list nat) : should_factorize cfg s = false.
Proof. unfold should_factorize, Policy.should_factorize. now rewrite Hdisabled. Qed.

Lemma full_layer_naive (g m : tensor) (k : Key) :
  shape m = shape g ->
  _full_layer_fn cfg g (Naive m) k
  = Ok (Naive (beta cfg *: m +: rsub rone (beta cfg) *: g)%tensor).
Proof.
  intros Hs. unfold _full_layer_fn. rewrite never_factorized. cbn [negb].
  now apply naive_fn_eq.
Qed.

Lemma partial_layer_naive (g m : tensor) (k : Key) :
  shape m = shape g ->
  _partial_layer_fn cfg g (Naive m) k
  = Ok (Naive (beta cfg *: m +: rsub rone (beta cfg) *: g)%tensor).
Proof.
  intros Hs. unfold _partial_layer_fn. rewrite never_factorized. cbn [negb].
  now apply naive_fn_eq.
Qed.

Lemma tree_map3_naive (layer : tensor -> Decomposition -> Key -> result Decomposition) :
  (forall g m k, shape m = shape g ->
                 layer g (Naive m) k
                 = Ok (Naive (beta cfg *: m +: rsub rone (beta cfg) *: g)%tensor)) ->
  forall (moments grads : list tensor) (keys : list Key),
    map shape moments = map shape grads ->
    length keys = length grads ->
    tree_map3 layer grads (map Naive moments) keys
    = Ok (map Naive (ema_step (beta cfg) moments grads)).
Proof.
  intros Hlayer moments grads keys Hs Hk.
  assert (Hm : length moments = length grads).
  { rewrite <- (length_map shape moments), Hs. apply length_map. }
  unfold tree_map3. rewrite length_map, Hm, Hk, !Nat.eqb_refl. simpl.
  revert grads keys Hs Hk Hm.
  induction moments as [| m moments IH]; intros [| g grads] [| k keys] Hs Hk Hm;
    simpl in *; try discriminate; [reflexivity |].
  inversion Hs as [[Hmg Hrest]].
  rewrite (Hlayer g m k Hmg). cbn [bind].
  unfold ema_step in IH. rewrite (IH grads keys Hrest) by lia.
  reflexivity.
Qed.

Lemma ema_step_shape (b : R) (moments grads : list tensor) :
  map shape moments = map shape grads ->
  map shape (ema_step b moments grads) = map shape moments.
Proof.
  revert grads. induction moments as [| m moments IH]; intros [| g grads] Hs;
    simpl in *; try discriminate; [reflexivity |].
  inversion Hs. unfold ema_step in *. simpl. f_equal. now apply IH.
Qed.

Lemma naive_update_state (moments grads : list tensor) (c : Z) (r : Key) :
  map shape moments = map shape grads ->
  update_state cfg grads (mkState c (map Naive moments) r)
  = Ok (mkState (wrap32 (c + 1))
                (map Naive (ema_step (beta cfg) moments grads))
                (next_rng_key r)).
Proof.
  intros Hs. unfold update_state, astype_mu_dtype. cbn [count decomposition rng].
  rewrite map_id.
  rewrite (tree_map3_naive _ full_layer_naive moments grads _ Hs)
    by apply split_like_tree_length.
  rewrite (tree_map3_naive _ partial_layer_naive moments grads _ Hs)
    by apply split_like_tree_length.
  unfold lax_cond. cbn [bind].
  destruct (Aval_eq_dec _ _) as [_ | Hne]; [| now elim Hne].
  now destruct (jnp_mod c (kappa cfg) =? 0)%Z.
Qed.

Lemma naive_query (moments grads : list tensor) (c : Z) (r : Key) :
  length grads = length moments ->
  query cfg grads (mkState c (map Naive moments) r) = Ok moments.
Proof.
  intros Hl. unfold query, tree_map2. cbn [decomposition].
  rewrite length_map, Hl, Nat.eqb_refl. clear c r.
  revert grads Hl. induction moments as [| m moments IH]; intros [| g grads] Hl;
    simpl in *; try discriminate; [reflexivity |].
  unfold query_layer_fn at 1. rewrite never_factorized. cbn [negb].
  unfold query_naive_fn. cbn [get_data bind].
  rewrite (IH grads) by lia. reflexivity.
Qed.

Lemma naive_emit (moments grads : list tensor) :
  map shape moments = map shape grads ->
  exists u,
    tree_map2 (fun m g => add (muls m (beta cfg)) (muls g (rsub rone (beta cfg))))
              moments grads = Ok u.
Proof.
  intros Hs.
  assert (Hm : length moments = length grads).
  { rewrite <- (length_map shape moments), Hs. apply length_map. }
  apply tree_map2_total; [exact Hm |].
  intros i m g Hmi Hgi. eexists. apply (add_ok (shape m)); [reflexivity |].
  simpl. symmetry.
  pose proof (map_nth_error shape i moments Hmi) as E1.
  pose proof (map_nth_error shape i grads Hgi) as E2.
  rewrite Hs in E1. congruence.
Qed.

Lemma naive_update_fn (moments grads : list tensor) (c : Z) (r : Key) :
  map shape moments = map shape grads ->
  exists u,
    update_fn cfg grads (mkState c (map Naive moments) r)
    = Ok (u, mkState (wrap32 (c + 1))
                     (map Naive (ema_step (beta cfg) moments grads))
                     (next_rng_key r)).
Proof.
  intros Hs.
  assert (Hm : length grads = length moments).
  { rewrite <- (length_map shape moments), Hs. symmetry. apply length_map. }
  destruct (naive_emit moments grads Hs) as (u & Hu).
  exists u. unfold update_fn.
  rewrite (naive_query moments grads c r Hm). cbn [bind].
  rewrite Hu. cbn [bind].
  now rewrite (naive_update_state moments grads c r Hs).
Qed.

Lemma naive_run_from (steps : list (list tensor)) :
  forall (moments : list tensor) (c : Z) (r : Key),
    Forall (fun grads => map shape grads = map shape moments) steps ->
    exists c' r',
      run_from cfg (mkState c (map Naive moments) r) steps
      = Ok (mkState c' (map Naive (fold_left (ema_step (beta cfg)) steps moments)) r').
Proof.
  induction steps as [| grads steps IH]; intros moments c r Hall; simpl.
  - eauto.
  - inversion Hall as [| ? ? Hg Hrest]; subst.
    destruct (naive_update_fn moments grads c r (eq_sym Hg)) as (u & Hu).
    rewrite Hu. cbn [bind].
    apply IH. eapply Forall_impl; [| exact Hrest].
    intros g' Hg'. simpl in Hg'.
    now rewrite ema_step_shape by (symmetry; exact Hg).
Qed.

Lemma naive_init (params : list tensor) :
  init_fn cfg params
  = Ok (mkState 0%Z (map Naive (ema_init params)) (PRNGKey (seed cfg))).
Proof.
  unfold init_fn, tree_map2. rewrite split_like_tree_length, Nat.eqb_refl.
  pose proof (split_like_tree_length (PRNGKey (seed cfg)) params) as Hk.
  revert Hk. generalize (random_split_like_tree (PRNGKey (seed cfg)) params).
  intros keys Hk.
  assert (E : mapM (fun p : tensor * Key => _init_layer cfg (fst p) (snd p))
                   (combine params keys)
              = Ok (map Naive (ema_init params))).
  { revert keys Hk. induction params as [| p params IH]; intros [| k keys] Hk;
      simpl in *; try discriminate; [reflexivity |].
    unfold _init_layer at 1. rewrite never_factorized.
    cbn [bind]. rewrite (IH keys) by lia. reflexivity. }
  now rewrite E.
Qed.

End Naive.

Section NaiveEquivalence.
Context {R Key : Type} `{Scalar R} `{Prng Key R}.

Local Abbreviation tensor := (Tensor.tensor R).
Local Abbreviation State := (Flora.ScaleByFloraState R Key).

Lemma ema_init_shape (params : list tensor) :
  map shape (ema_init params) = map shape params.
Proof. unfold ema_init. rewrite map_map. reflexivity. Qed.

Lemma ema_run_shape (b : R) (params : list tensor) (steps : list (list tensor)) :
  Forall (fun grads => map shape grads = map shape params) steps ->
  map shape (ema_run b params steps) = map shape params.
Proof.
  unfold ema_run. rewrite <- (ema_init_shape params).
  generalize (ema_init params) as moments. intros moments Hall.
  revert moments Hall. induction steps as [| g steps IH]; intros moments Hall;
    simpl; [reflexivity |].
  inversion Hall as [| ? ? Hg Hrest]; subst.
  rewrite IH.
  - apply ema_step_shape. now symmetry.
  - eapply Forall_impl; [| exact Hrest]. intros g' Hg'. simpl in *.
    now rewrite ema_step_shape by (symmetry; exact Hg).
Qed.

(** C5: with [tau = None], so that [flora] passes [factored = False], the
    estimator is the plain exponential moving average: after any number
    of updates with gradients of the shapes of the parameters, whatever
    [kappa], the state holds for every tensor the naive buffer that
    [data' = beta * data + (1 - beta) * grad] yields from zero, and
    [query] returns these buffers as they are. *)
Theorem flora_without_tau_is_ema :
  forall (b1 : R) (seed kappa : Z) (rng_only : bool)
         (min_dim_size_to_factor : nat) (side : string)
         (params : list tensor) (steps : list (list tensor)),
    let cfg :=
      flora_config b1 None seed kappa rng_only min_dim_size_to_factor side in
    Forall (fun grads => map shape grads = map shape params) steps ->
    exists st : State,
      run cfg params steps = Ok st
      /\ decomposition st = map (@NaiveDecomposition R Key) (ema_run b1 params steps)
      /\ forall grads,
          map shape grads = map shape params ->
          query cfg grads st = Ok (ema_run b1 params steps).
Proof.
  intros b1 seed kappa rng_only mdim side params steps cfg Hall.
  assert (Hd : factored cfg = false) by reflexivity.
  unfold run. rewrite (naive_init cfg Hd params). cbn [bind].
  destruct (naive_run_from cfg Hd steps (ema_init params) 0%Z
              (PRNGKey (Flora.seed cfg))) as (c' & r' & Hrun).
  { eapply Forall_impl; [| exact Hall]. intros g Hg. simpl in *.
    now rewrite ema_init_shape. }
  rewrite Hrun. eexists. split; [reflexivity |]. split; [reflexivity |].
  intros grads Hg. apply (naive_query cfg Hd).
  rewrite <- (length_map shape grads), Hg, <- (ema_run_shape b1 params steps Hall).
  apply length_map.
Qed.

End NaiveEquivalence.

Section Counting.
Context {R Key : Type} `{Scalar R} `{Prng Key R}.
Variable cfg : Config R.

Local Abbreviation tensor := (Tensor.tensor R).
Local Abbreviation State := (Flora.ScaleByFloraState R Key).

Lemma wrap32_small (z : Z) :
  (- 2 ^ 31 <= z < 2 ^ 31)%Z -> wrap32 z = z.
Proof.
  intros Hz. unfold wrap32.
  rewrite Z.mod_small by lia. lia.
Qed.

Lemma run_from_count (steps : list (list tensor)) :
  forall st st' : State,
    run_from cfg st steps = Ok st' ->
    (0 <= count st)%Z ->
    (count st + Z.of_nat (length steps) < 2 ^ 31)%Z ->
    count st' = (count st + Z.of_nat (length steps))%Z.
Proof.
  induction steps as [| grads steps IH]; intros st st' Hrun Hpos Hlt.
  - simpl in *. inversion Hrun; subst. lia.
  - cbn [run_from] in Hrun.
    apply bind_ok in Hrun as ([u st1] & Hu & Hrun).
    apply update_fn_inv in Hu.
    pose proof (update_state_inv cfg grads st st1 Hu) as (Hc & _).
    cbn [length] in Hlt. rewrite Nat2Z.inj_succ in Hlt.
    rewrite wrap32_small in Hc by lia.
    rewrite (IH st1 st' Hrun) by lia.
    cbn [length]. lia.
Qed.

(** Until the int32 counter wraps, the count of a state is the number of
    updates that produced it. *)
Lemma count_is_step_number (params : list tensor) (steps : list (list tensor))
      (st : State) :
  run cfg params steps = Ok st ->
  (Z.of_nat (length steps) < 2 ^ 31)%Z ->
  count st = Z.of_nat (length steps).
Proof.
  unfold run. intros Hrun Hlt.
  apply bind_ok in Hrun as (st0 & Hi & Hrun).
  destruct (init_fn_inv cfg params st0 Hi) as (Hc & _).
  rewrite (run_from_count steps st0 st Hrun) by (rewrite Hc; lia).
  rewrite Hc. lia.
Qed.

End Counting.

End EstimatorFacts.

(** ** The sample instance *)

Module SampleFacts.
Import Tensor Flora Inv ResultFacts TensorFacts LeafFacts StateFacts EstimatorFacts Sample.

Lemma fits_sample : fits params grads.
Proof. split; [reflexivity | repeat constructor]. Defined.

Lemma reachable_state0 (rng_only : bool) (side : string) :
  reachable (cfg rng_only side) params (state0 rng_only side).
Proof.
  apply reachable_init. unfold state0, init_fn, cfg. simpl. reflexivity.
Defined.

Lemma reachable_state1 (rng_only : bool) (side : string) :
  reachable (cfg rng_only side) params (state1 rng_only side).
Proof.
  destruct fits_sample as [Hs Hw].
  destruct (update_fn_ok (cfg rng_only side) _ grads (state0 rng_only side)
              (reachable_state_ok _ _ _ (reachable_state0 rng_only side)) Hs Hw)
    as (q & st' & _ & _ & _ & Hu).
  eapply (@reachable_update _ _ _ _ (cfg rng_only side) params grads
            (state0 rng_only side) _ (state1 rng_only side)
            (reachable_state0 rng_only side) fits_sample).
  unfold state1. rewrite Hu. reflexivity.
Qed.

Lemma reachable_state2 (rng_only : bool) (side : string) :
  reachable (cfg rng_only side) params (state2 rng_only side).
Proof.
  destruct fits_sample as [Hs Hw].
  destruct (update_fn_ok (cfg rng_only side) _ grads (state1 rng_only side)
              (reachable_state_ok _ _ _ (reachable_state1 rng_only side)) Hs Hw)
    as (q & st' & _ & _ & _ & Hu).
  eapply (@reachable_update _ _ _ _ (cfg rng_only side) params grads
            (state1 rng_only side) _ (state2 rng_only side)
            (reachable_state1 rng_only side) fits_sample).
  unfold state2. rewrite Hu. reflexivity.
Qed.


(** The second update of the sample state, at count 1 with [kappa = 2],
    succeeds and keeps the stored projections. *)
Lemma partial_step_keeps_projections_witness :
  kappa (cfg false "auto") <> 0%Z
  /\ reachable (cfg false "auto") params (state1 false "auto")
  /\ fits params grads
  /\ (count (state1 false "auto") mod kappa (cfg false "auto"))%Z <> 0%Z
  /\ exists u st',
      update_fn (cfg false "auto") grads (state1 false "auto") = Ok (u, st')
      /\ map projections (decomposition st')
         = map projections (decomposition (state1 false "auto")).
Proof.
  assert (Hstep : (count (state1 false "auto") mod kappa (cfg false "auto"))%Z <> 0%Z)
    by (vm_compute; discriminate).
  assert (Hkappa : kappa (cfg false "auto") <> 0%Z) by discriminate.
  split; [exact Hkappa |].
  split; [apply reachable_state1 |]. split; [exact fits_sample |].
  split; [exact Hstep |].
  destruct (partial_step_keeps_projections (cfg false "auto") params grads
              (state1 false "auto") Hkappa (reachable_state1 false "auto") fits_sample)
    as (u & st' & Hu & Hkeep & _).
  exists u, st'. split; [exact Hu | exact (Hkeep Hstep)].
Defined.

Lemma Qmult_comm_eq (x y : Q) : rmul x y = rmul y x.
Proof.
  destruct x as [a b], y as [c d]. simpl. unfold Qmult; simpl.
  now rewrite Z.mul_comm, Pos.mul_comm.
Qed.

(** Rational multiplication commutes, so the first update of the sample
    state emits the blend of the queried moments with the gradients. *)
Lemma update_fn_emits_from_old_state_witness :
  (forall x y : Q, rmul x y = rmul y x)
  /\ reachable (cfg false "auto") params (state0 false "auto")
  /\ fits params grads
  /\ exists q st',
      query (cfg false "auto") grads (state0 false "auto") = Ok q
      /\ update_fn (cfg false "auto") grads (state0 false "auto")
         = Ok (map (fun p : tensor Q * tensor Q =>
                      ((9 # 10)%Q *: fst p +: rsub rone (9 # 10)%Q *: snd p)%tensor)
                   (combine q grads),
               st').
Proof.
  split; [exact Qmult_comm_eq |].
  split; [apply reachable_state0 |]. split; [exact fits_sample |].
  destruct (update_fn_emits_from_old_state (cfg false "auto") Qmult_comm_eq
              params grads (state0 false "auto")
              (reachable_state0 false "auto") fits_sample)
    as (q & st' & Hq & _ & Hu & _).
  exists q, st'. split; [exact Hq | exact Hu].
Defined.

(** Two updates of the sample parameters with [tau = None]. *)
Lemma flora_without_tau_is_ema_witness :
  Forall (fun g : list (tensor Q) => map shape g = map shape params) [grads; grads]
  /\ exists st : ScaleByFloraState Q nat,
      run (flora_config (9 # 10)%Q None 0%Z 2%Z false 2 "auto") params [grads; grads]
      = Ok st
      /\ decomposition st
         = map (@NaiveDecomposition Q nat) (ema_run (9 # 10)%Q params [grads; grads]).
Proof.
  assert (Hall : Forall (fun g : list (tensor Q) => map shape g = map shape params)
                        [grads; grads]) by (repeat constructor).
  split; [exact Hall |].
  destruct (flora_without_tau_is_ema (9 # 10)%Q 0%Z 2%Z false 2 "auto"%string
              params [grads; grads] Hall)
    as (st & Hrun & Hdec & _).
  exists st. split; [exact Hrun | exact Hdec].
Defined.

(** The sample state after one update has the variants of the initial
    state. *)
Lemma decomposition_variant_is_fixed_witness :
  init_fn (cfg false "auto") params = Ok (state0 false "auto")
  /\ reachable (cfg false "auto") params (state1 false "auto")
  /\ map variant (decomposition (state1 false "auto"))
     = map variant (decomposition (state0 false "auto")).
Proof.
  assert (Hi : init_fn (cfg false "auto") params = Ok (state0 false "auto"))
    by reflexivity.
  split; [exact Hi |]. split; [apply reachable_state1 |].
  exact (proj1 (decomposition_variant_is_fixed (cfg false "auto") params
                  (state0 false "auto") (state1 false "auto") Hi
                  (reachable_state1 false "auto"))).
Defined.

(** [query] on the sample state after one update. *)
Lemma query_preserves_shape_witness :
  reachable (cfg true "auto") params (state1 true "auto")
  /\ map shape grads = map shape params
  /\ exists out,
      query (cfg true "auto") grads (state1 true "auto") = Ok out
      /\ Forall2 has_shape [[2; 3]; [3]] out.
Proof.
  split; [apply reachable_state1 |]. split; [reflexivity |].
  destruct (query_preserves_shape (cfg true "auto") params grads
              (state1 true "auto") (reachable_state1 true "auto") eq_refl)
    as (out & Hq & Hshape & _).
  exists out. split; [exact Hq | exact Hshape].
Defined.

(** C10, the claim as stated fails: with [side = "both"], which is none
    of "left", "right" and "auto", [init_fn] returns a state whose
    factored tensor has both sides populated, and [update_fn] and [query]
    return on it. *)
Lemma invalid_side_is_accepted :
  init_fn (cfg false "both") params
  = Ok (mkState 0%Z
          [TwoSideRandomDecomposition
             (mkTwoSide (Some (zeros [1; 2]))
                        (Some (Materialized (mkTensor [3; 1] [2; -1; 1]%Q)))
                        (Some (zeros [3; 1]))
                        (Some (Materialized (mkTensor [1; 2] [-2; 0]%Q))));
           NaiveDecomposition (zeros [3])]
          0)
  /\ is_ok (update_fn (cfg false "both") grads (state0 false "both")) = true
  /\ is_ok (query (cfg false "both") grads (state0 false "both")) = true.
Proof. repeat split; vm_compute; reflexivity. Qed.

(** With [side = "both"], every decomposition of the sample state after
    one update is naive or fully populated, updates return, and the
    moment [query] reads for the factored matrix is the mean of its two
    reconstructions. *)
Lemma invalid_side_populates_both_witness :
  ("both" <> "left" /\ "both" <> "right" /\ "both" <> "auto")%string
  /\ (exists st0, init_fn (cfg false "both") params = Ok st0)
  /\ Forall (fun d => variant d = VNaive
                      \/ variant d = VFactored true true true true)
            (decomposition (state1 false "both"))
  /\ (exists u st', update_fn (cfg false "both") grads (state1 false "both")
                    = Ok (u, st'))
  /\ exists out o f Dl Pl Dr Pr,
      query (cfg false "both") grads (state1 false "both") = Ok out
      /\ nth_error out 0 = Some o
      /\ nth_error (decomposition (state1 false "both")) 0
         = Some (TwoSideRandomDecomposition f)
      /\ l_data f = Some Dl /\ l_proj f = Some Pl
      /\ r_data f = Some Dr /\ r_proj f = Some Pr
      /\ o = divs ((Dr @@ proj_value Pr 1 2 +: proj_value Pl 3 1 @@ Dl)^T)%tensor
                  (rnat 2).
Proof.
  assert (Hl : "both"%string <> "left"%string) by discriminate.
  assert (Hr : "both"%string <> "right"%string) by discriminate.
  assert (Ha : "both"%string <> "auto"%string) by discriminate.
  split; [repeat split; assumption |].
  destruct (invalid_side_populates_both (cfg false "both") Hl Hr Ha params)
    as [Hinit Hreach].
  split; [exact (Hinit 1 eq_refl) |].
  destruct (Hreach (state1 false "both") (reachable_state1 false "both"))
    as [Hvar Hstep].
  split; [exact Hvar |].
  destruct (Hstep grads fits_sample) as [Hu (out & Hq & Hlen & Hleaf)].
  split; [exact Hu |].
  destruct out as [| o out]; [discriminate Hlen |].
  destruct (nth_error (decomposition (state1 false "both")) 0) as [[x | f] |] eqn:E;
    try (vm_compute in E; discriminate).
  destruct (Hleaf 0 (zeros [2; 3]) _ o eq_refl E eq_refl)
    as (ind & outd & t & Dl & Pl & Dr & Pr & Hshape & Htau & HDl & HPl & HDr & HPr & Ho).
  inversion Hshape; subst ind outd. inversion Htau; subst t.
  exists (o :: out), o, f, Dl, Pl, Dr, Pr.
  repeat (split; [assumption || reflexivity |]). exact Ho.
Defined.

(** In materialized mode the first update draws its sub-keys from the key
    [init_fn] used, so the refresh at count 0 generates every projection
    again from the key and the shape it was generated from; [random_generate]
    being a function of the two here, the stored projections of the
    sample state are the same after it. *)
Example first_refresh_repeats_projection :
  map projections (decomposition (state1 false "auto"))
  = map projections (decomposition (state0 false "auto")).
Proof. vm_compute. reflexivity. Qed.

(** With [kappa = 0] every step is a refresh: the second update, at
    count 1, stores another projection. *)
Example kappa_zero_refreshes_every_step :
  exists st0 u1 st1 u2 st2,
    init_fn cfg_kappa_zero params = Ok st0
    /\ update_fn cfg_kappa_zero grads st0 = Ok (u1, st1)
    /\ update_fn cfg_kappa_zero grads st1 = Ok (u2, st2)
    /\ count st1 = 1%Z
    /\ map projections (decomposition st1) <> map projections (decomposition st2).
Proof.
  do 5 eexists.
  split; [vm_compute; reflexivity |].
  split; [vm_compute; reflexivity |].
  split; [vm_compute; reflexivity |].
  split; [reflexivity |].
  intros E. vm_compute in E. discriminate E.
Qed.

(** [jnp.mod] with the divisor 0, and with the sign of the divisor. *)
Example jnp_mod_values :
  jnp_mod 5 0 = 0%Z /\ jnp_mod 0 0 = 0%Z /\ jnp_mod 5 2 = 1%Z
  /\ jnp_mod 4 2 = 0%Z /\ jnp_mod (-1) 2 = 1%Z.
Proof. repeat split. Qed.

(** The bracketing [multi_dot] takes for the shapes of the two sides of
    the sample matrix: [(a b) c] for [1 x 3], [3 x 1], [1 x 2] on the left,
    [a (b c)] for [3 x 1], [1 x 2], [2 x 1] on the right. *)
Example multi_dot_bracketing :
  (left_first_cost 1 3 1 2 <=? right_first_cost 1 3 1 2) = true
  /\ (left_first_cost 3 1 2 1 <=? right_first_cost 3 1 2 1) = false.
Proof. split; reflexivity. Qed.

(** The array operations on small matrices. *)
Example transpose_2x3 :
  T (mkTensor [2; 3] [1; 2; 3; 4; 5; 6]%Q)
  = mkTensor [3; 2] [1; 4; 2; 5; 3; 6]%Q.
Proof. reflexivity. Qed.

Example matmul_2x3_3x2 :
  matmul (mkTensor [2; 3] [1; 2; 3; 4; 5; 6]%Q) (mkTensor [3; 2] [1; 0; 0; 1; 1; 1]%Q)
  = Ok (mkTensor [2; 2] [4; 5; 10; 11]%Q).
Proof. vm_compute. reflexivity. Qed.

Example matmul_inner_mismatch :
  matmul (mkTensor [2; 3] [1; 2; 3; 4; 5; 6]%Q) (mkTensor [2; 3] [1; 2; 3; 4; 5; 6]%Q)
  = Err TypeError.
Proof. reflexivity. Qed.

(** [numpy.array_split] of seven elements in three sections. *)
Example array_split_7_3 :
  Loader.array_split (seq 0 7) 3 = Ok [[0; 1; 2]; [3; 4]; [5; 6]].
Proof. reflexivity. Qed.

(** A Flora chain update with a state of the right length runs its six
    update functions in order. *)
Example flora_chain_runs :
  Chain.flora_update_fn library flora_options 0 [0; 0; 0; 0; 0; 0] None tt
  = ([0; 1; 2; 3; 4; 5], Ok (31, [1; 1; 1; 1; 1; 1])).
Proof. reflexivity. Qed.

End SampleFacts.

(** * Further properties *)

(** ** Batching *)

Module LoaderMore.
Import ResultFacts Loader.

Section Sections.
Context {A : Type}.

Lemma in_firstn (n : nat) (l : list A) (x : A) : In x (firstn n l) -> In x l.
Proof.
  intros Hx. rewrite <- (firstn_skipn n l). apply in_or_app. now left.
Qed.

Lemma in_skipn (n : nat) (l : list A) (x : A) : In x (skipn n l) -> In x l.
Proof.
  intros Hx. rewrite <- (firstn_skipn n l). apply in_or_app. now right.
Qed.

Lemma in_slice (st en : nat) (l : list A) (x : A) : In x (slice st en l) -> In x l.
Proof. unfold slice. intros Hx. eapply in_skipn, in_firstn, Hx. Qed.

Lemma chunks_length (sizes : list nat) :
  forall ary : list A, length (chunks sizes ary) = length sizes.
Proof. induction sizes as [| s sizes IH]; intros ary; simpl; [| rewrite IH]; reflexivity. Qed.

Lemma chunks_concat (sizes : list nat) :
  forall ary : list A, concat (chunks sizes ary) = firstn (list_sum sizes) ary.
Proof.
  induction sizes as [| s sizes IH]; intros ary; simpl; [reflexivity |].
  rewrite IH. rewrite <- (firstn_skipn s ary) at 3.
  rewrite firstn_app, length_firstn.
  destruct (Nat.le_gt_cases s (length ary)) as [Hle | Hgt].
  - rewrite Nat.min_l by exact Hle.
    rewrite firstn_firstn, Nat.min_r by lia.
    f_equal. f_equal. lia.
  - rewrite Nat.min_r by lia.
    rewrite firstn_firstn, Nat.min_r by lia.
    rewrite (skipn_all2 ary) by lia. now rewrite !firstn_nil.
Qed.

Lemma chunks_sizes (sizes : list nat) :
  forall ary : list A,
    list_sum sizes <= length ary ->
    map (@length A) (chunks sizes ary) = sizes.
Proof.
  induction sizes as [| s sizes IH]; intros ary Hsum; simpl in *; [reflexivity |].
  rewrite length_firstn, Nat.min_l by lia. f_equal.
  apply IH. rewrite length_skipn. lia.
Qed.

(** Slicing at the running sums cuts the sections off one after another. *)
Lemma slices_at_cumsum (ary : list A) (sizes : list nat) :
  forall acc,
    map (fun i => slice (nth i (acc :: cumsum_from acc sizes) 0)
                        (nth (i + 1) (acc :: cumsum_from acc sizes) 0) ary)
        (seq 0 (length sizes))
    = chunks sizes (skipn acc ary).
Proof.
  induction sizes as [| s sizes IH]; intros acc; [reflexivity |].
  cbn [length seq map chunks cumsum_from]. f_equal.
  - cbn [nth Nat.add]. unfold slice. f_equal. lia.
  - rewrite <- seq_shift, map_map, skipn_skipn, (Nat.add_comm s acc).
    rewrite <- (IH (acc + s)). apply map_ext. intros i. reflexivity.
Qed.

Lemma rows_are_chunks (ary : list A) (cols : nat) (rows : nat) :
  forall a,
    map (fun i => slice (a + i * cols) (a + (i + 1) * cols) ary) (seq 0 rows)
    = chunks (repeat cols rows) (skipn a ary).
Proof.
  induction rows as [| rows IH]; intros a; [reflexivity |].
  cbn [seq map repeat chunks]. f_equal.
  - unfold slice. f_equal; [lia | f_equal; lia].
  - rewrite <- seq_shift, map_map, skipn_skipn, (Nat.add_comm cols a).
    rewrite <- (IH (a + cols)). apply map_ext. intros i.
    f_equal; lia.
Qed.

Lemma array_split_chunks (ary : list A) (Nsections : nat) :
  Nsections <> 0 ->
  array_split ary Nsections
  = Ok (chunks (repeat (length ary / Nsections + 1) (length ary mod Nsections)
                ++ repeat (length ary / Nsections)
                          (Nsections - length ary mod Nsections))
               ary).
Proof.
  intros Hk. unfold array_split.
  destruct (Nat.eqb_spec Nsections 0) as [E | _]; [contradiction |].
  f_equal. unfold cumsum. cbn [app cumsum_from Nat.add].
  set (sizes := repeat _ _ ++ repeat _ _).
  assert (Hlen : length sizes = Nsections).
  { unfold sizes. rewrite length_app, !repeat_length.
    pose proof (Nat.mod_upper_bound (length ary) Nsections Hk). lia. }
  rewrite <- Hlen at 1.
  exact (slices_at_cumsum ary sizes 0).
Qed.

Lemma reshape_rows_chunks (ary : list A) (rows cols : nat) :
  length ary = rows * cols ->
  reshape_rows ary rows cols = Ok (chunks (repeat cols rows) ary).
Proof.
  intros Hlen. unfold reshape_rows. rewrite Hlen, Nat.eqb_refl. f_equal.
  exact (rows_are_chunks ary cols rows 0).
Qed.

Lemma list_sum_repeat (x n : nat) : list_sum (repeat x n) = n * x.
Proof. induction n as [| n IH]; simpl; [reflexivity | rewrite IH; lia]. Qed.

End Sections.

Section LoaderProps.
Variables (Key V : Type) (permutation : Key -> nat -> list nat).

(** The index array [data_loader] starts from. *)
Local Abbreviation source rng n shuffle :=
  (if shuffle then permutation rng n else seq 0 n : list nat).

(** X1: with [drop_last = True] and a positive batch size, the index
    batches are [len // batch_size] arrays of exactly [batch_size] indices:
    the first [len // batch_size * batch_size] indices in order; fewer than
    [batch_size] rows are left out. *)
Theorem drop_last_batches_are_full :
  forall (rng : Key) (n batch_size : nat) (shuffle : bool),
    batch_size <> 0 ->
    length (source rng n shuffle) = n ->
    exists batches,
      batch_indices permutation rng n batch_size shuffle true = Ok batches
      /\ length batches = n / batch_size
      /\ Forall (fun b => length b = batch_size) batches
      /\ concat batches = firstn (n / batch_size * batch_size) (source rng n shuffle)
      /\ n - length (concat batches) < batch_size.
Proof.
  intros rng n bs shuffle Hbs Hsrc.
  unfold batch_indices, floor_div.
  destruct (Nat.eqb_spec bs 0) as [E | _]; [contradiction |]. cbn [bind].
  set (src := source rng n shuffle) in *.
  pose proof (Nat.div_mod_eq n bs) as Hdm.
  pose proof (Nat.mod_upper_bound n bs Hbs) as Hmod.
  assert (Hlen : length (firstn (n / bs * bs) src) = n / bs * bs).
  { rewrite length_firstn, Hsrc. apply Nat.min_l. nia. }
  rewrite (reshape_rows_chunks _ _ _ Hlen).
  eexists. split; [reflexivity |].
  split; [now rewrite chunks_length, repeat_length |].
  assert (Hsum : list_sum (repeat bs (n / bs)) = n / bs * bs) by apply list_sum_repeat.
  split.
  - pose proof (chunks_sizes (repeat bs (n / bs)) (firstn (n / bs * bs) src)) as Hs.
    rewrite Hsum, Hlen in Hs. specialize (Hs (le_n _)).
    apply Forall_forall. intros b Hb.
    apply (in_map (@length nat)) in Hb. rewrite Hs in Hb.
    exact (repeat_spec _ _ _ Hb).
  - rewrite chunks_concat, Hsum, firstn_firstn, Nat.min_id.
    split; [reflexivity |]. rewrite Hlen. nia.
Qed.

(** X2: with [drop_last = False], a positive batch size and a dataset
    that is not empty, the index batches are [ceil(len / batch_size)]
    arrays that together hold every index once, in order; the first
    [len mod k] of the [k] batches hold one index more than the others,
    and no batch is empty or larger than [batch_size]. *)
Theorem keep_last_batches_partition :
  forall (rng : Key) (n batch_size : nat) (shuffle : bool),
    batch_size <> 0 -> n <> 0 ->
    length (source rng n shuffle) = n ->
    let k := (n + batch_size - 1) / batch_size in
    exists batches,
      batch_indices permutation rng n batch_size shuffle false = Ok batches
      /\ length batches = k
      /\ concat batches = source rng n shuffle
      /\ map (@length nat) batches
         = repeat (n / k + 1) (n mod k) ++ repeat (n / k) (k - n mod k)
      /\ Forall (fun b => 1 <= length b <= batch_size) batches.
Proof.
  intros rng n bs shuffle Hbs Hn Hsrc k.
  unfold batch_indices, ceil_div.
  destruct (Nat.eqb_spec bs 0) as [E | _]; [contradiction |]. cbn [bind].
  fold k. set (src := source rng n shuffle) in *.
  pose proof (Nat.div_mod_eq (n + bs - 1) bs) as Hdm.
  pose proof (Nat.mod_upper_bound (n + bs - 1) bs Hbs) as Hmod.
  fold k in Hdm.
  assert (Hk1 : n <= bs * k) by lia.
  assert (Hk0 : k <> 0) by (intros E; rewrite E in Hk1; lia).
  assert (Hkn : k <= n) by nia.
  pose proof (Nat.div_mod_eq n k) as Hdk.
  pose proof (Nat.mod_upper_bound n k Hk0) as Hmk.
  rewrite (array_split_chunks src k Hk0), Hsrc.
  set (sizes := repeat (n / k + 1) (n mod k) ++ repeat (n / k) (k - n mod k)).
  assert (Hsum : list_sum sizes = n).
  { unfold sizes. rewrite list_sum_app, !list_sum_repeat. nia. }
  assert (Hsz : map (@length nat) (chunks sizes src) = sizes).
  { apply chunks_sizes. rewrite Hsum, Hsrc. apply le_n. }
  eexists. split; [reflexivity |].
  split.
  { rewrite chunks_length. unfold sizes. rewrite length_app, !repeat_length. lia. }
  split.
  { rewrite chunks_concat, Hsum, <- Hsrc. apply firstn_all. }
  split; [exact Hsz |].
  assert (Heach : 1 <= n / k) by nia.
  assert (Hbound : Forall (fun s => 1 <= s <= bs) sizes).
  { unfold sizes. apply Forall_app. split; apply Forall_forall; intros s Hs.
    - destruct (n mod k) as [| e] eqn:Ee; [inversion Hs |].
      apply repeat_spec in Hs; subst s. nia.
    - apply repeat_spec in Hs; subst s. nia. }
  rewrite <- Hsz in Hbound. now rewrite Forall_map in Hbound.
Qed.

(** X3: a batch size of zero is a ZeroDivisionError in either mode; on
    an empty dataset [drop_last = True] yields no batch, and
    [drop_last = False] is a ValueError ([array_split] in zero
    sections). *)
Theorem data_loader_edge_cases :
  forall (rng : Key) (dataset : Dataset V) (shuffle : bool)
         (transform_fn : option (Batch V -> Batch V)),
    (forall drop_last,
        data_loader permutation rng dataset 0 shuffle drop_last transform_fn
        = Err ZeroDivisionError)
    /\ (forall batch_size,
           num_rows dataset = 0 -> batch_size <> 0 ->
           data_loader permutation rng dataset batch_size shuffle true transform_fn
           = Ok []
           /\ data_loader permutation rng dataset batch_size shuffle false transform_fn
              = Err ValueError).
Proof.
  intros rng dataset shuffle transform_fn. split.
  - intros [|]; reflexivity.
  - intros bs Hrows Hbs. unfold data_loader, batch_indices, floor_div, ceil_div.
    rewrite Hrows.
    destruct (Nat.eqb_spec bs 0) as [E | _]; [contradiction |]. cbn [bind].
    assert (Hz : (0 + bs - 1) / bs = 0) by (apply Nat.div_small; lia).
    rewrite Hz, Nat.Div0.div_0_l. split; reflexivity.
Qed.

Lemma batch_indices_sub (rng : Key) (n bs : nat) (shuffle drop_last : bool) idxs :
  batch_indices permutation rng n bs shuffle drop_last = Ok idxs ->
  forall b i, In b idxs -> In i b -> In i (source rng n shuffle).
Proof.
  unfold batch_indices. intros Hb b i Hin Hi.
  destruct drop_last.
  - apply bind_ok in Hb as (steps & _ & Hb). unfold reshape_rows in Hb.
    destruct (_ =? _); [| discriminate]. inversion Hb; subst idxs.
    apply in_map_iff in Hin as (j & <- & _).
    eapply in_firstn, in_slice, Hi.
  - apply bind_ok in Hb as (steps & _ & Hb). unfold array_split in Hb.
    destruct (_ =? _); [discriminate |]. inversion Hb; subst idxs.
    apply in_map_iff in Hin as (j & <- & _).
    eapply in_slice, Hi.
Qed.

Lemma to_arrays_id (b : Batch V) : to_arrays b = b.
Proof.
  unfold to_arrays, np_array. rewrite <- (map_id b) at 2.
  apply map_ext. now intros [k v].
Qed.

Lemma getitem_ok (dataset : Dataset V) (idx : list nat) :
  Forall (fun kv => length (snd kv) = num_rows dataset) (columns dataset) ->
  Forall (fun i => i < num_rows dataset) idx ->
  exists b,
    getitem dataset idx = Ok b
    /\ map fst b = map fst (columns dataset)
    /\ Forall (fun kv => length (snd kv) = length idx) b.
Proof.
  intros Hwf Hidx. unfold getitem.
  induction Hwf as [| kv cols Hkv _ IH]; simpl.
  - exists []. repeat split. constructor.
  - destruct (mapM_total (fun i => match nth_error (snd kv) i with
                                   | Some v => Ok v
                                   | None => Err IndexError
                                   end) idx) as (vs & Hvs).
    { eapply Forall_impl; [| exact Hidx]. intros i Hi. simpl in Hi.
      destruct (nth_error (snd kv) i) as [v |] eqn:E; [eauto |].
      apply nth_error_None in E. lia. }
    destruct IH as (b & Hb & Hf & Hl).
    rewrite Hvs. cbn [bind]. rewrite Hb. cbn [bind].
    eexists. split; [reflexivity |]. simpl. split; [now f_equal |].
    constructor; [| exact Hl]. simpl. exact (mapM_length _ _ _ Hvs).
Qed.

(** X4: on a dataset whose columns all have [num_rows] entries, with
    indices below [num_rows], [data_loader] without a transform yields one
    batch for each index batch: a mapping with the fields of the dataset,
    in their order, each holding as many values as the batch has
    indices. *)
Theorem data_loader_batches_have_fields :
  forall (rng : Key) (dataset : Dataset V) (batch_size : nat)
         (shuffle drop_last : bool) (idxs : list (list nat)),
    Forall (fun kv => length (snd kv) = num_rows dataset) (columns dataset) ->
    Forall (fun i => i < num_rows dataset) (source rng (num_rows dataset) shuffle) ->
    batch_indices permutation rng (num_rows dataset) batch_size shuffle drop_last
    = Ok idxs ->
    exists batches,
      data_loader permutation rng dataset batch_size shuffle drop_last None
      = Ok batches
      /\ Forall2 (fun idx b =>
                    map fst b = map fst (columns dataset)
                    /\ Forall (fun kv => length (snd kv) = length idx) b)
                 idxs batches.
Proof.
  intros rng dataset bs shuffle drop_last idxs Hwf Hsrc Hidx.
  unfold data_loader. rewrite Hidx. cbn [bind].
  pose proof (batch_indices_sub _ _ _ _ _ _ Hidx) as Hsub. clear Hidx.
  rewrite Forall_forall in Hsrc.
  induction idxs as [| idx idxs IH]; simpl.
  - exists []. split; [reflexivity | constructor].
  - destruct (getitem_ok dataset idx Hwf) as (b & Hb & Hf & Hl).
    { apply Forall_forall. intros i Hi. apply Hsrc.
      apply (Hsub idx i); [now left | exact Hi]. }
    destruct IH as (bs' & Hbs & Hall).
    { intros b0 i Hb0 Hi. apply (Hsub b0 i); [now right | exact Hi]. }
    rewrite Hb. cbn [bind]. rewrite to_arrays_id, Hbs. cbn [bind].
    eexists. split; [reflexivity |]. constructor; [now split | exact Hall].
Qed.

End LoaderProps.

End LoaderMore.

(** ** Chain updates and the state tuple *)

Module ChainMore.
Import ResultFacts Chain.

Section Runs.
Variables Updates Params TState Extra Hyper : Type.
Variable lib : Library Updates Params TState Extra Hyper.

Local Abbreviation GT := (GradientTransformation Updates Params TState Extra).
Local Abbreviation UpdateFn := (Chain.UpdateFn Updates Params TState Extra).

Lemma run_rest_positional (params : option Params) (extra : Extra)
      (rest : list GT) :
  forall (srest : list TState) i updates new_state,
    match snd (run_rest i (combine srest (map (@update _ _ _ _) rest))
                        updates new_state params extra) with
    | Ok (_, st') =>
        length st' = length new_state + Nat.min (length srest) (length rest)
    | Err e =>
        exists j t s u,
          nth_error rest j = Some t /\ nth_error srest j = Some s
          /\ update t u s params [] extra = Err e
    end.
Proof.
  induction rest as [| t rest IH]; intros srest i updates new_state.
  - destruct srest; simpl; lia.
  - destruct srest as [| s srest]; [simpl; lia |].
    cbn [map combine run_rest]. unfold call, bindT.
    destruct (update t updates s params [] extra) as [[u' new_s] | e] eqn:Efn.
    + specialize (IH srest (S i) u' (new_state ++ [new_s])).
      destruct (run_rest (S i) (combine srest (map (@update _ _ _ _) rest)) u'
                         (new_state ++ [new_s]) params extra) as [log r].
      cbn [fst snd] in *. destruct r as [[u'' st'] | e].
      * rewrite length_app in IH. simpl in *. lia.
      * destruct IH as (j & t0 & s0 & u0 & Ht & Hs & E).
        exists (S j), t0, s0, u0. auto.
    + cbn [snd]. exists 0, t, s, updates. auto.
Qed.

Lemma flora_tx_heads (o : FloraOptions Hyper) :
  exists rest,
    flora_tx lib o = scale_by_flora lib :: scale_by_factored_rms lib :: rest.
Proof.
  unfold flora_tx, append_some, append_if.
  destruct (f_clipping_threshold o), (f_multiply_by_parameter_scale o),
    (f_weight_decay o); simpl; eexists; reflexivity.
Qed.


Lemma adafactor_tx_heads (o : AdafactorOptions Hyper) :
  let main := if a_sign o then scale_by_sign lib else scale_by_factored_rms lib in
  match a_momentum o with
  | Some h => exists rest, adafactor_tx lib o = ema lib h :: main :: rest
  | None => exists rest, adafactor_tx lib o = main :: rest
  end.
Proof.
  unfold adafactor_tx, append_some, append_if.
  destruct (a_momentum o), (a_clipping_threshold o), (a_learning_rate o),
    (a_multiply_by_parameter_scale o), (a_weight_decay_rate o);
    simpl; eexists; reflexivity.
Qed.


End Runs.

End ChainMore.

(** ** The estimator *)

Module EstimatorMore.
Import Tensor Flora Inv ResultFacts TensorFacts LeafFacts StateFacts.

Section More.
Context {R Key : Type} `{Scalar R} `{Prng Key R}.
Variable cfg : Config R.

Local Abbreviation tensor := (Tensor.tensor R).
Local Abbreviation Proj := (Flora.Proj R Key).
Local Abbreviation TwoSide := (Flora.TwoSide R Key).
Local Abbreviation Decomposition := (Flora.Decomposition R Key).
Local Abbreviation State := (Flora.ScaleByFloraState R Key).

Lemma two_side_is_factorized (s : list nat) (f : TwoSide) :
  dcomp_ok cfg s (TwoSideRandomDecomposition f) -> should_factorize cfg s = true.
Proof.
  unfold dcomp_ok. destruct (should_factorize cfg s); [reflexivity | contradiction].
Qed.

Lemma naive_is_not_factorized (s : list nat) (d : tensor) :
  dcomp_ok cfg s (NaiveDecomposition d : Decomposition) ->
  should_factorize cfg s = false /\ has_shape s d.
Proof.
  intros Hok. destruct (should_factorize cfg s) eqn:Hsf.
  - destruct (dcomp_ok_factored cfg s _ Hsf Hok) as (? & ? & ? & ? & _ & _ & E & _).
    discriminate.
  - destruct (dcomp_ok_naive cfg s _ Hsf Hok) as (x & E & Hx).
    inversion E; subst. now split.
Qed.

Lemma side_ok_fields present (d : option tensor) (p : option Proj) ds ps :
  side_ok cfg present d p ds ps ->
  (forall D, d = Some D -> has_shape ds D)
  /\ (forall P, p = Some P -> proj_ok cfg ps P).
Proof.
  unfold side_ok. destruct present.
  - intros (D0 & P0 & -> & -> & HD & HP).
    split; intros ? E; inversion E; subst; assumption.
  - intros [-> ->]. split; intros; discriminate.
Qed.

Lemma reachable_leaf (params : list tensor) (st : State) i p d :
  reachable cfg params st ->
  nth_error params i = Some p ->
  nth_error (decomposition st) i = Some d ->
  dcomp_ok cfg (shape p) d.
Proof.
  intros Hreach Hp Hd.
  pose proof (reachable_state_ok cfg params st Hreach) as Hok.
  exact (Forall2_nth _ _ _ Hok i _ _ (map_nth_error shape i params Hp) Hd).
Qed.

(** X7: the layout of every reachable state.  There is one decomposition
    for each parameter.  A naive one belongs to a tensor [should_factorize]
    rejects and holds a buffer of the tensor's shape.  A factored one
    belongs to an [(ind, outd)] matrix that [should_factorize] accepts,
    with [tau] a number: [l_data] is [(tau, ind)], [r_data] is
    [(outd, tau)], and a stored projection is a key exactly in [rng_only]
    mode and otherwise a matrix, [(outd, tau)] on the left and [(tau, ind)]
    on the right. *)
Theorem reachable_state_layout :
  forall (params : list tensor) (st : State),
    reachable cfg params st ->
    length (decomposition st) = length params
    /\ forall i p d,
        nth_error params i = Some p ->
        nth_error (decomposition st) i = Some d ->
        match d with
        | NaiveDecomposition x =>
            should_factorize cfg (shape p) = false /\ has_shape (shape p) x
        | TwoSideRandomDecomposition f =>
            should_factorize cfg (shape p) = true
            /\ exists ind outd t,
                shape p = [ind; outd] /\ tau cfg = Some t
                /\ (forall D, l_data f = Some D -> has_shape [t; ind] D)
                /\ (forall D, r_data f = Some D -> has_shape [outd; t] D)
                /\ (forall P, l_proj f = Some P ->
                              match P with
                              | Materialized m =>
                                  rng_only cfg = false /\ has_shape [outd; t] m
                              | SeedOnly _ => rng_only cfg = true
                              end)
                /\ (forall P, r_proj f = Some P ->
                              match P with
                              | Materialized m =>
                                  rng_only cfg = false /\ has_shape [t; ind] m
                              | SeedOnly _ => rng_only cfg = true
                              end)
        end.
Proof.
  intros params st Hreach. split.
  - pose proof (Forall2_len _ _ _ (reachable_state_ok cfg params st Hreach)) as L.
    rewrite length_map in L. now symmetry.
  - intros i p d Hp Hd.
    pose proof (reachable_leaf params st i p d Hreach Hp Hd) as Hok.
    destruct d as [x | f].
    + exact (naive_is_not_factorized _ _ Hok).
    + pose proof (two_side_is_factorized _ _ Hok) as Hsf. split; [exact Hsf |].
      destruct (dcomp_ok_factored cfg _ _ Hsf Hok)
        as (ind & outd & t & f0 & Es & Htau & Ef & Hl & Hr).
      inversion Ef; subst f0. exists ind, outd, t.
      split; [exact Es |]. split; [exact Htau |].
      destruct (side_ok_fields _ _ _ _ _ Hl) as [HlD HlP].
      destruct (side_ok_fields _ _ _ _ _ Hr) as [HrD HrP].
      split; [exact HlD |]. split; [exact HrD |].
      split; [exact HlP | exact HrP].
Qed.

(** X8: the side policy.  In every reachable state a factored
    decomposition of an [(ind, outd)] matrix populates, with
    [side = "auto"], the right side alone when [outd > ind] and the left
    side alone otherwise; with [side = "left"] the left side alone; with
    [side = "right"] the right side alone. *)
Theorem side_policy_picks_one_side :
  forall (params : list tensor) (st : State) i p f ind outd,
    reachable cfg params st ->
    nth_error params i = Some p ->
    shape p = [ind; outd] ->
    nth_error (decomposition st) i = Some (TwoSideRandomDecomposition f) ->
    (side cfg = "auto"%string ->
     variant (TwoSideRandomDecomposition f)
     = if ind <? outd then VFactored false false true true
       else VFactored true true false false)
    /\ (side cfg = "left"%string ->
        variant (TwoSideRandomDecomposition f) = VFactored true true false false)
    /\ (side cfg = "right"%string ->
        variant (TwoSideRandomDecomposition f) = VFactored false false true true).
Proof.
  intros params st i p f ind outd Hreach Hp Hs Hd.
  pose proof (reachable_leaf params st i p _ Hreach Hp Hd) as Hok.
  pose proof (two_side_is_factorized _ _ Hok) as Hsf.
  destruct (dcomp_ok_factored cfg _ _ Hsf Hok)
    as (ind' & outd' & t & f0 & Es & Htau & Ef & Hl & Hr).
  inversion Ef; subst f0. rewrite Hs in Es. inversion Es; subst ind' outd'.
  assert (Hv : forall sd,
             pick_side cfg ind outd = sd ->
             variant (TwoSideRandomDecomposition f)
             = VFactored (has_left sd) (has_left sd) (has_right sd) (has_right sd)).
  { intros sd <-. unfold side_ok in Hl, Hr. simpl.
    destruct (has_left _).
    - destruct Hl as (? & ? & -> & -> & _). destruct (has_right _).
      + now destruct Hr as (? & ? & -> & -> & _).
      + now destruct Hr as (-> & ->).
    - destruct Hl as (-> & ->). destruct (has_right _).
      + now destruct Hr as (? & ? & -> & -> & _).
      + now destruct Hr as (-> & ->). }
  split; [| split]; intros Eside.
  - assert (E : pick_side cfg ind outd
                = if ind <? outd then "right"%string else "left"%string)
      by (unfold pick_side; now rewrite Eside).
    rewrite (Hv _ E). now destruct (ind <? outd).
  - assert (E : pick_side cfg ind outd = "left"%string)
      by (unfold pick_side; now rewrite Eside).
    now rewrite (Hv _ E).
  - assert (E : pick_side cfg ind outd = "right"%string)
      by (unfold pick_side; now rewrite Eside).
    now rewrite (Hv _ E).
Qed.

Lemma mapM_first_error {A B : Type} (f : A -> result B) (e : error) (xs : list A) :
  Forall (fun x => f x = Err e \/ exists y, f x = Ok y) xs ->
  Exists (fun x => f x = Err e) xs ->
  mapM f xs = Err e.
Proof.
  induction 1 as [| x xs Hx _ IH]; intros Hex; inversion Hex; subst; simpl.
  - now match goal with E : f x = Err e |- _ => rewrite E end.
  - destruct Hx as [E | (y & E)]; rewrite E; simpl; [reflexivity |].
    now rewrite IH.
Qed.

Lemma init_layer_without_tau (p : tensor) (k : Key) :
  tau cfg = None ->
  _init_layer cfg p k
  = if should_factorize cfg (shape p) then Err TypeError
    else Ok (NaiveDecomposition (zeros (shape p))).
Proof.
  intros Htau. unfold _init_layer.
  destruct (should_factorize cfg (shape p)) eqn:Hsf; [| reflexivity].
  assert (Hlen : length (shape p) = 2).
  { unfold should_factorize, Policy.should_factorize in Hsf.
    destruct (factored cfg); simpl in Hsf; [| discriminate].
    destruct (Nat.eqb_spec (length (shape p)) 2); [assumption | discriminate]. }
  destruct (shape p) as [| ind [| outd [| ? ?]]]; try discriminate.
  cbn [unpack2 bind]. unfold get_tau. now rewrite Htau.
Qed.

Lemma init_layer_not_factorized (p : tensor) (k : Key) :
  should_factorize cfg (shape p) = false ->
  _init_layer cfg p k = Ok (NaiveDecomposition (zeros (shape p))).
Proof. intros Hsf. unfold _init_layer. now rewrite Hsf. Qed.

(** X9: [init_fn] raises exactly when [tau] is [None] and some
    parameter passes [should_factorize], and then it is a TypeError; with
    [tau] a number, or with no parameter to factorize, it returns a
    state. *)
Theorem init_fn_fails_only_without_tau :
  forall params : list tensor,
    (tau cfg = None ->
     Exists (fun p => should_factorize cfg (shape p) = true) params ->
     init_fn cfg params = Err TypeError)
    /\ (tau cfg <> None
        \/ Forall (fun p => should_factorize cfg (shape p) = false) params ->
        exists st, init_fn cfg params = Ok st).
Proof.
  intros params. split.
  - intros Htau Hex. unfold init_fn, tree_map2.
    rewrite split_like_tree_length, Nat.eqb_refl.
    pose proof (split_like_tree_length (PRNGKey (seed cfg)) params) as Hk.
    revert Hk. generalize (random_split_like_tree (PRNGKey (seed cfg)) params).
    intros keys Hk.
    rewrite (mapM_first_error _ TypeError); [reflexivity | |].
    + apply Forall_forall. intros [p k] _. simpl.
      rewrite (init_layer_without_tau p k Htau).
      destruct (should_factorize cfg (shape p)); [now left | right; eauto].
    + revert keys Hk. induction Hex as [p ps Hp | p ps _ IH];
        intros [| k keys] Hk; simpl in Hk; try discriminate; simpl.
      * left. simpl. rewrite (init_layer_without_tau p k Htau). now rewrite Hp.
      * right. apply IH. lia.
  - intros [Htau | Hall].
    + destruct (tau cfg) as [t |] eqn:E; [| contradiction].
      exact (init_fn_total cfg params t E).
    + unfold init_fn.
      destruct (tree_map2_total (_init_layer cfg) params
                  (random_split_like_tree (PRNGKey (seed cfg)) params))
        as (ds & Hds).
      { now rewrite split_like_tree_length. }
      { intros i p k Hp _. rewrite Forall_forall in Hall.
        rewrite init_layer_not_factorized; [eauto |].
        apply Hall. eapply nth_error_In; eauto. }
      rewrite Hds. cbn [bind]. eauto.
Qed.

(** X10: a gradient tree with another number of leaves than the state
    has decompositions is a ValueError of [query], of [update_state] and
    of [update_fn]; no state is returned. *)
Theorem tree_mismatch_is_value_error :
  forall (grads : list tensor) (st : State),
    length grads <> length (decomposition st) ->
    query cfg grads st = Err ValueError
    /\ update_state cfg grads st = Err ValueError
    /\ update_fn cfg grads st = Err ValueError.
Proof.
  intros grads st Hne.
  assert (Hq : query cfg grads st = Err ValueError).
  { unfold query, tree_map2.
    destruct (Nat.eqb_spec (length grads) (length (decomposition st)));
      [contradiction | reflexivity]. }
  split; [exact Hq |]. split.
  - unfold update_state, astype_mu_dtype, tree_map3. rewrite map_id.
    destruct (Nat.eqb_spec (length grads) (length (decomposition st)));
      [contradiction | reflexivity].
  - unfold update_fn. now rewrite Hq.
Qed.

(** X11: a tensor that is not factorized follows the plain moving
    average in every configuration and at every step: when the
    decomposition of leaf [i] of a reachable state is the naive buffer
    [d], [query] returns [d] for it and the update stores
    [beta * d + (1 - beta) * g]. *)
Theorem naive_leaf_follows_ema :
  forall (params grads : list tensor) (st : State) i g d,
    reachable cfg params st ->
    fits params grads ->
    nth_error grads i = Some g ->
    nth_error (decomposition st) i = Some (NaiveDecomposition d) ->
    exists q u st',
      query cfg grads st = Ok q
      /\ nth_error q i = Some d
      /\ update_fn cfg grads st = Ok (u, st')
      /\ nth_error (decomposition st') i
         = Some (NaiveDecomposition
                   (beta cfg *: d +: rsub rone (beta cfg) *: g)%tensor).
Proof.
  intros params grads st i g d Hreach [Hs Hw] Hg Hd.
  pose proof (reachable_state_ok cfg params st Hreach) as Hok.
  destruct (update_fn_ok cfg _ grads st Hok Hs Hw) as (q & st' & Hq & Hu & _ & Hfn).
  pose proof (Forall2_nth _ _ _ Hok i _ _ (shapes_nth _ _ _ _ Hs Hg) Hd) as Hdo.
  destruct (naive_is_not_factorized _ _ Hdo) as [Hsf [Hsd _]].
  exists q. eexists. exists st'. split; [exact Hq |]. split; [| split; [exact Hfn |]].
  - pose proof (tree_map2_inv _ _ _ _ Hq) as (_ & _ & Hn).
    destruct (Hn i g _ Hg Hd) as (o & Ho & E).
    unfold query_layer_fn in E. rewrite Hsf in E. cbn in E.
    inversion E; subst. exact Ho.
  - pose proof (update_state_inv cfg grads st st' Hu) as (_ & _ & _ & _ & Hn).
    destruct (Hn i g _ Hg Hd) as (d' & Hd' & E).
    assert (E' : _naive_fn cfg g (NaiveDecomposition d)
                           (leaf_key (rng st) (length grads) i) = Ok d').
    { destruct (jnp_mod (count st) (kappa cfg) =? 0)%Z;
        [unfold _full_layer_fn in E | unfold _partial_layer_fn in E];
        rewrite Hsf in E; exact E. }
    rewrite (naive_fn_eq cfg g d _ Hsd) in E'. inversion E'; subst. exact Hd'.
Qed.

(** X12: on a step that is no refresh, where [jnp.mod(count, kappa)] is
    not 0 (so never with [kappa = 0]), the update of a reachable state
    sets the compressed data of a factored
    [(ind, outd)] tensor to
    [beta * l_data + (1 - beta) * (l_proj^T @ grad^T)] on the left and
    [beta * r_data + (1 - beta) * (grad^T @ r_proj^T)] on the right, with
    the projections it already has. *)
Theorem partial_step_blends_data :
  forall (params grads : list tensor) (st : State),
    reachable cfg params st ->
    fits params grads ->
    (jnp_mod (count st) (kappa cfg) =? 0)%Z = false ->
    exists u st',
      update_fn cfg grads st = Ok (u, st')
      /\ forall i grad f,
          nth_error grads i = Some grad ->
          nth_error (decomposition st) i = Some (TwoSideRandomDecomposition f) ->
          exists ind outd t f',
            shape grad = [ind; outd]
            /\ tau cfg = Some t
            /\ nth_error (decomposition st') i = Some (TwoSideRandomDecomposition f')
            /\ (forall D P,
                   l_data f = Some D -> l_proj f = Some P ->
                   l_data f'
                   = Some (beta cfg *: D
                           +: rsub rone (beta cfg)
                              *: ((proj_value P outd t)^T @@ grad^T))%tensor)
            /\ (forall D P,
                   r_data f = Some D -> r_proj f = Some P ->
                   r_data f'
                   = Some (beta cfg *: D
                           +: rsub rone (beta cfg)
                              *: (grad^T @@ (proj_value P t ind)^T))%tensor).
Proof.
  intros params grads st Hreach [Hs Hw] Hstep.
  pose proof (reachable_state_ok cfg params st Hreach) as Hok.
  destruct (update_fn_ok cfg _ grads st Hok Hs Hw) as (q & st' & _ & Hu & _ & Hfn).
  eexists; exists st'. split; [exact Hfn |].
  intros i grad f Hg Hd.
  pose proof (update_state_inv cfg grads st st' Hu) as (_ & _ & _ & _ & Hn).
  destruct (Hn i grad _ Hg Hd) as (d' & Hd' & E). rewrite Hstep in E.
  pose proof (Forall2_nth _ _ _ Hok i _ _ (shapes_nth _ _ _ _ Hs Hg) Hd) as Hdo.
  pose proof (two_side_is_factorized _ _ Hdo) as Hsf.
  destruct (dcomp_ok_factored cfg _ _ Hsf Hdo)
    as (ind & outd & t & f0 & Es & Htau & Ef & Hl & Hr).
  inversion Ef; subst f0.
  assert (Hgs : has_shape [ind; outd] grad).
  { split; [exact Es |]. rewrite Forall_forall in Hw. apply Hw.
    eapply nth_error_In; eauto. }
  rewrite Es in Hsf.
  destruct (partial_layer_factored cfg ind outd t grad f
              (leaf_key (rng st) (length grads) i) Hsf Htau Hgs Hl Hr)
    as (f' & E' & _ & _ & _ & _ & HL & HR).
  rewrite E' in E. inversion E; subst d'.
  exists ind, outd, t, f'. repeat split; assumption.
Qed.

Lemma emitted_has_shape (s : list nat) (m g : tensor) :
  has_shape s m -> has_shape s g -> has_shape s (emitted cfg m g).
Proof. intros Hm Hg. unfold emitted. apply plus_has_shape; now apply muls_has_shape. Qed.

(** X13: the updates [update_fn] emits on a reachable state have, leaf
    by leaf, the shapes of the parameters, with as many elements as the
    shape says. *)
Theorem emitted_updates_fit_parameters :
  forall (params grads : list tensor) (st : State),
    reachable cfg params st ->
    fits params grads ->
    exists u st',
      update_fn cfg grads st = Ok (u, st')
      /\ Forall2 has_shape (map shape params) u.
Proof.
  intros params grads st Hreach [Hs Hw].
  pose proof (reachable_state_ok cfg params st Hreach) as Hok.
  destruct (update_fn_ok cfg _ grads st Hok Hs Hw) as (q & st' & Hq & _ & _ & Hfn).
  destruct (query_ok cfg _ grads st Hok Hs) as (q' & Hq' & Hqs & _).
  assert (q' = q) by congruence. subst q'.
  eexists; exists st'. split; [exact Hfn |].
  pose proof (Forall2_len _ _ _ Hqs) as Lq.
  assert (Lg : length grads = length (map shape params))
    by (rewrite <- Hs; now rewrite length_map).
  apply Forall2_nth_error.
  - rewrite !length_map, length_combine. rewrite length_map in Lq, Lg. lia.
  - intros i s o Hsi Ho. rewrite nth_error_map in Ho.
    destruct (nth_error (combine q grads) i) as [[m g] |] eqn:Ec; [| discriminate].
    simpl in Ho. inversion Ho; subst o.
    apply nth_error_combine_inv in Ec as [Hm Hg]. simpl in Hm, Hg.
    apply emitted_has_shape.
    + exact (Forall2_nth _ _ _ Hqs i s m Hsi Hm).
    + pose proof (shapes_nth _ _ _ _ Hs Hg) as Hsg. rewrite Hsi in Hsg.
      inversion Hsg; subst s. split; [reflexivity |].
      rewrite Forall_forall in Hw. apply Hw. eapply nth_error_In; eauto.
Qed.

End More.

Section Starts.
Context {R Key : Type} `{Scalar R} `{Prng Key R}.
Variable cfg : Config R.

Local Abbreviation tensor := (Tensor.tensor R).
Local Abbreviation Proj := (Flora.Proj R Key).
Local Abbreviation TwoSide := (Flora.TwoSide R Key).
Local Abbreviation Decomposition := (Flora.Decomposition R Key).
Local Abbreviation State := (Flora.ScaleByFloraState R Key).

(** The decomposition [init_fn] builds for leaf [i]. *)
Lemma init_leaf (params : list tensor) (st0 : State) i p d :
  init_fn cfg params = Ok st0 ->
  nth_error params i = Some p ->
  nth_error (decomposition st0) i = Some d ->
  _init_layer cfg p (leaf_key (PRNGKey (seed cfg)) (length params) i) = Ok d.
Proof.
  unfold init_fn. intros Hi Hp Hd.
  apply bind_ok in Hi as (ds & Hds & Hi). inversion Hi; subst; clear Hi.
  cbn [decomposition] in Hd.
  apply tree_map2_inv in Hds as (L1 & _ & Hn).
  destruct (nth_error_some_lt params _ i p L1 Hp) as (k & Hk).
  destruct (Hn i p k Hp Hk) as (d' & Hd' & E).
  rewrite (split_like_tree_nth _ _ _ _ Hk) in E. congruence.
Qed.

Lemma init_layer_factored (p : tensor) (k : Key) (ind outd t : nat) :
  should_factorize cfg [ind; outd] = true ->
  shape p = [ind; outd] -> tau cfg = Some t ->
  _init_layer cfg p k
  = Ok (TwoSideRandomDecomposition
          {| l_data := if has_left (pick_side cfg ind outd)
                       then Some (zeros [t; ind]) else None;
             l_proj := if has_left (pick_side cfg ind outd)
                       then Some (store_proj cfg (split k 2 0)
                                    (random_generate (split k 2 0) outd t))
                       else None;
             r_data := if has_right (pick_side cfg ind outd)
                       then Some (zeros [outd; t]) else None;
             r_proj := if has_right (pick_side cfg ind outd)
                       then Some (store_proj cfg (split k 2 1)
                                    (random_generate (split k 2 1) t ind))
                       else None |}).
Proof.
  intros Hsf Hs Htau. unfold _init_layer. rewrite Hs, Hsf.
  cbn [unpack2 bind]. unfold get_tau. now rewrite Htau.
Qed.

Lemma factorized_shape (s : list nat) :
  should_factorize cfg s = true -> exists ind outd, s = [ind; outd].
Proof.
  intros Hsf. unfold should_factorize, Policy.should_factorize in Hsf.
  destruct (factored cfg); simpl in Hsf; [| discriminate].
  destruct (Nat.eqb_spec (length s) 2) as [Hlen | _]; [| discriminate].
  destruct s as [| ind [| outd [| ? ?]]]; try discriminate. eauto.
Qed.

(** X14: [init_fn] returns the key it split, so the first update splits
    the same key again: in materialized mode ([rng_only = False]) the
    refresh at count 0 generates the projection of every populated side
    from the sub-key and the shape [init_fn] generated it from. *)
Theorem first_refresh_reuses_init_keys :
  forall (params grads : list tensor) (st0 : State),
    rng_only cfg = false ->
    init_fn cfg params = Ok st0 ->
    fits params grads ->
    exists u st1,
      update_fn cfg grads st0 = Ok (u, st1)
      /\ (jnp_mod (count st0) (kappa cfg) =? 0)%Z = true
      /\ forall i p f0,
          nth_error params i = Some p ->
          nth_error (decomposition st0) i = Some (TwoSideRandomDecomposition f0) ->
          exists ind outd t f1,
            shape p = [ind; outd]
            /\ tau cfg = Some t
            /\ nth_error (decomposition st1) i = Some (TwoSideRandomDecomposition f1)
            /\ let k := leaf_key (PRNGKey (seed cfg)) (length params) i in
               (forall P, l_proj f0 = Some P ->
                          P = Materialized (random_generate (split k 2 0) outd t)
                          /\ l_proj f1
                             = Some (Materialized (random_generate (split k 2 0) outd t)))
               /\ (forall P, r_proj f0 = Some P ->
                             P = Materialized (random_generate (split k 2 1) t ind)
                             /\ r_proj f1
                                = Some (Materialized (random_generate (split k 2 1) t ind))).
Proof.
  intros params grads st0 Hmat Hi [Hs Hw].
  destruct (init_fn_inv cfg params st0 Hi) as (Hc & Hrng & Hok).
  destruct (update_fn_ok cfg _ grads st0 Hok Hs Hw) as (q & st1 & _ & Hu & _ & Hfn).
  eexists; exists st1. split; [exact Hfn |].
  assert (Hrefresh : (jnp_mod (count st0) (kappa cfg) =? 0)%Z = true)
    by (rewrite Hc; now rewrite jnp_mod_0_l).
  split; [exact Hrefresh |].
  pose proof (update_state_inv cfg grads st0 st1 Hu) as (_ & _ & L1 & L0 & Hn).
  assert (Lp : length grads = length params).
  { rewrite <- (length_map shape grads), Hs. apply length_map. }
  intros i p f0 Hp Hd.
  destruct (nth_error_some_lt (decomposition st0) grads i _ L0 Hd) as (g & Hg).
  destruct (Hn i g _ Hg Hd) as (d' & Hd' & E). rewrite Hrefresh in E.
  pose proof (init_leaf params st0 i p _ Hi Hp Hd) as Einit.
  assert (Hsp : shape g = shape p).
  { pose proof (map_nth_error shape i grads Hg) as E1.
    pose proof (map_nth_error shape i params Hp) as E2.
    rewrite Hs in E1. congruence. }
  assert (Hgs : has_shape (shape g) g).
  { split; [reflexivity |]. rewrite Forall_forall in Hw. apply Hw.
    eapply nth_error_In; eauto. }
  pose proof (Forall2_nth _ _ _ Hok i _ _ (map_nth_error shape i params Hp) Hd)
    as Hdo.
  rewrite <- Hsp in Hdo.
  pose proof (two_side_is_factorized cfg _ _ Hdo) as Hsf.
  destruct (dcomp_ok_factored cfg _ _ Hsf Hdo)
    as (ind & outd & t & f & Es & Htau & Ef & Hl & Hr).
  inversion Ef; subst f; clear Ef.
  rewrite Es in Hsf, Hgs.
  rewrite (init_layer_factored p _ ind outd t Hsf) in Einit
    by (congruence || assumption).
  inversion Einit as [Ef0]; clear Einit; try subst f0.
  destruct (full_layer_factored cfg ind outd t g _
              (leaf_key (rng st0) (length grads) i) Hsf Htau Hgs Hl Hr)
    as (f1 & E' & _ & _ & HL & HR).
  rewrite E' in E. inversion E; subst d'.
  rewrite Hrng, Lp in HL, HR.
  exists ind, outd, t, f1.
  split; [congruence |]. split; [exact Htau |]. split; [exact Hd' |].
  cbv zeta. unfold store_proj in *. rewrite Hmat in *.
  split; intros P HP.
  - assert (EP : P = Materialized
                       (random_generate
                          (split (leaf_key (PRNGKey (seed cfg)) (length params) i) 2 0)
                          outd t)).
    { cbn [l_proj] in HP.
      destruct (has_left (pick_side cfg ind outd)); [congruence | discriminate]. }
    split; [exact EP |].
    cbn [l_proj l_data] in HL, HP.
    destruct (has_left (pick_side cfg ind outd)); [| discriminate].
    destruct (HL _ P eq_refl HP) as [-> _]. now rewrite EP.
  - assert (EP : P = Materialized
                       (random_generate
                          (split (leaf_key (PRNGKey (seed cfg)) (length params) i) 2 1)
                          t ind)).
    { cbn [r_proj] in HP.
      destruct (has_right (pick_side cfg ind outd)); [congruence | discriminate]. }
    split; [exact EP |].
    cbn [r_proj r_data] in HR, HP.
    destruct (has_right (pick_side cfg ind outd)); [| discriminate].
    destruct (HR _ P eq_refl HP) as [-> _]. now rewrite EP.
Qed.

Lemma run_from_rng (steps : list (list tensor)) :
  forall st st' : State,
    run_from cfg st steps = Ok st' ->
    rng st' = Nat.iter (length steps) next_rng_key (rng st).
Proof.
  induction steps as [| grads steps IH]; intros st st' Hrun.
  - simpl in *. now inversion Hrun.
  - cbn [run_from] in Hrun.
    apply bind_ok in Hrun as ([u st1] & Hu & Hrun).
    apply update_fn_inv in Hu.
    pose proof (update_state_inv cfg grads st st1 Hu) as (_ & Hr & _).
    rewrite (IH st1 st' Hrun), Hr. cbn [length].
    now rewrite Nat.iter_succ_r.
Qed.

(** X15: after [init_fn] and [n] updates the key of the state is the
    seed key advanced [n] times by [next_rng_key], and the count is [n] as
    long as [n < 2^31]; the int32 count wraps: the update of a state whose
    count is [2^31 - 1] returns one whose count is [-2^31]. *)
Theorem run_advances_count_and_rng :
  (forall (params : list tensor) (steps : list (list tensor)) (st : State),
      run cfg params steps = Ok st ->
      rng st = Nat.iter (length steps) next_rng_key (PRNGKey (seed cfg))
      /\ ((Z.of_nat (length steps) < 2 ^ 31)%Z ->
          count st = Z.of_nat (length steps)))
  /\ (forall (grads : list tensor) (st st' : State),
         update_state cfg grads st = Ok st' ->
         count st = (2 ^ 31 - 1)%Z ->
         count st' = (- 2 ^ 31)%Z).
Proof.
  split.
  - intros params steps st Hrun. unfold run in Hrun.
    apply bind_ok in Hrun as (st0 & Hi & Hrun).
    destruct (init_fn_inv cfg params st0 Hi) as (Hc & Hr & _).
    split.
    + now rewrite (run_from_rng steps st0 st Hrun), Hr.
    + intros Hlt.
      rewrite (EstimatorFacts.run_from_count cfg steps st0 st Hrun) by (rewrite Hc; lia).
      rewrite Hc. lia.
  - intros grads st st' Hu Hc.
    pose proof (update_state_inv cfg grads st st' Hu) as (Hc' & _).
    rewrite Hc', Hc. reflexivity.
Qed.

End Starts.

Section Zeros.
Context {R Key : Type} `{Scalar R} `{Prng Key R}.

Local Abbreviation tensor := (Tensor.tensor R).

Hypothesis mul_zero_r : forall x : R, rmul x rzero = rzero.
Hypothesis mul_zero_l : forall x : R, rmul rzero x = rzero.
Hypothesis add_zero : radd rzero rzero = rzero.
Hypothesis div_zero : forall c : R, rdiv rzero c = rzero.

Lemma map_const {A B : Type} (c : B) (l : list A) :
  map (fun _ => c) l = repeat c (length l).
Proof. induction l as [| x l IH]; simpl; [reflexivity | now rewrite IH]. Qed.

Lemma sum_of_zeros {A : Type} (g : A -> R) (l : list A) :
  (forall x, g x = rzero) -> fold_left radd (map g l) rzero = rzero.
Proof.
  intros Hg. induction l as [| x l IH]; simpl; [reflexivity |].
  now rewrite Hg, add_zero.
Qed.

Lemma zeros_matrix (m n : nat) :
  (zeros [m; n] : tensor) = mkTensor [m; n] (repeat rzero (m * n)).
Proof. unfold zeros. simpl. now rewrite Nat.mul_1_r. Qed.

Lemma matrix_of_zeros (m n : nat) (entry : nat -> R) :
  (forall idx, entry idx = rzero) ->
  mkTensor [m; n] (map entry (seq 0 (m * n))) = (zeros [m; n] : tensor).
Proof.
  intros Hz. rewrite zeros_matrix. f_equal.
  rewrite (map_ext _ (fun _ => rzero) Hz), map_const. now rewrite length_seq.
Qed.

Lemma mm_zeros_r (m k k' n : nat) (a : tensor) :
  shape a = [m; k] -> mm a (zeros [k'; n]) = zeros [m; n].
Proof.
  intros Ha. unfold mm. rewrite Ha. cbn [shape zeros].
  apply matrix_of_zeros. intros idx. unfold dot.
  apply sum_of_zeros. intros l. unfold zeros. cbn [data].
  now rewrite nth_repeat, mul_zero_r.
Qed.

Lemma mm_zeros_l (m k k' n : nat) (b : tensor) :
  shape b = [k'; n] -> mm (zeros [m; k]) b = zeros [m; n].
Proof.
  intros Hb. unfold mm. rewrite Hb. cbn [shape zeros].
  apply matrix_of_zeros. intros idx. unfold dot.
  apply sum_of_zeros. intros l. unfold zeros. cbn [data].
  now rewrite nth_repeat, mul_zero_l.
Qed.

Lemma T_zeros (m n : nat) : T (zeros [m; n] : tensor) = zeros [n; m].
Proof.
  unfold T. cbn [shape zeros]. apply matrix_of_zeros.
  intros idx. unfold zeros. cbn [data]. apply nth_repeat.
Qed.

Lemma plus_zeros (s : list nat) : plus (zeros s : tensor) (zeros s) = zeros s.
Proof.
  unfold plus, zeros. cbn [shape data]. f_equal.
  induction (numel s) as [| n IH]; simpl; [reflexivity |].
  now rewrite add_zero, IH.
Qed.

Lemma divs_zeros (s : list nat) (c : R) : divs (zeros s : tensor) c = zeros s.
Proof.
  unfold divs, tmap, zeros. cbn [shape data]. f_equal.
  rewrite map_repeat. now rewrite div_zero.
Qed.

Variable cfg : Config R.

Local Abbreviation Decomposition := (Flora.Decomposition R Key).
Local Abbreviation State := (Flora.ScaleByFloraState R Key).

Lemma proj_value_store (k : Key) (rows cols : nat) :
  proj_value (store_proj cfg k (random_generate k rows cols)) rows cols
  = random_generate k rows cols.
Proof. unfold store_proj. now destruct (rng_only cfg). Qed.

Lemma init_moment_is_zero (p : tensor) (k : Key) (d : Decomposition) (o : tensor) :
  _init_layer cfg p k = Ok d ->
  moment_of cfg (shape p) d = Some o ->
  o = zeros (shape p).
Proof.
  unfold _init_layer.
  destruct (should_factorize cfg (shape p)) eqn:Hsf.
  - assert (Hlen : length (shape p) = 2).
    { unfold should_factorize, Policy.should_factorize in Hsf.
      destruct (factored cfg); simpl in Hsf; [| discriminate].
      destruct (Nat.eqb_spec (length (shape p)) 2); [assumption | discriminate]. }
    destruct (shape p) as [| ind [| outd [| ? ?]]]; try discriminate.
    cbn [unpack2 bind]. unfold get_tau.
    destruct (tau cfg) as [t |] eqn:Htau; cbn [bind]; [| discriminate].
    intros E. inversion E; subst d; clear E.
    cbn [moment_of l_data l_proj r_data r_proj]. rewrite Htau.
    pose proof (random_generate_has_shape (split k 2 0) outd t) as [Hpl _].
    pose proof (random_generate_has_shape (split k 2 1) t ind) as [Hpr _].
    destruct (has_left (pick_side cfg ind outd));
      destruct (has_right (pick_side cfg ind outd));
      intros Hm; inversion Hm; subst o; clear Hm;
      rewrite ?proj_value_store.
    + rewrite (mm_zeros_l outd t t ind _ Hpr), (mm_zeros_r outd t t ind _ Hpl).
      now rewrite plus_zeros, T_zeros, divs_zeros.
    + now rewrite (mm_zeros_r outd t t ind _ Hpl), T_zeros.
    + now rewrite (mm_zeros_l outd t t ind _ Hpr), T_zeros.
  - intros E. inversion E; subst d. simpl. intros Hm. now inversion Hm.
Qed.

(** X16: where zero absorbs multiplication, [0 + 0 = 0] and [0 / c = 0],
    the moment [query] reads from the state [init_fn] returns is zero for
    every tensor, naive or factored on either side or both. *)
Theorem initial_moment_is_zero :
  forall (params grads : list tensor) (st0 : State),
    init_fn cfg params = Ok st0 ->
    map shape grads = map shape params ->
    query cfg grads st0 = Ok (map (fun p => zeros (shape p)) params).
Proof.
  intros params grads st0 Hi Hs.
  destruct (init_fn_inv cfg params st0 Hi) as (_ & _ & Hok).
  destruct (query_ok cfg _ grads st0 Hok Hs) as (out & Hq & Hshape & Hm).
  rewrite Hq. f_equal.
  pose proof (Forall2_len _ _ _ Hshape) as Lo. rewrite length_map in Lo.
  pose proof (Forall2_len _ _ _ Hok) as Ld. rewrite length_map in Ld.
  apply nth_error_ext. intros i. rewrite nth_error_map.
  destruct (nth_error params i) as [p |] eqn:Hp; simpl.
  - destruct (nth_error_some_lt params out i p Lo Hp) as (o & Ho).
    destruct (nth_error_some_lt params (decomposition st0) i p Ld Hp) as (d & Hd).
    rewrite Ho. f_equal.
    apply (init_moment_is_zero p _ d o (init_leaf cfg params st0 i p d Hi Hp Hd)).
    exact (Forall2_nth _ _ _ Hm i (shape p, d) o
             (nth_error_combine _ _ i _ _ (map_nth_error shape i params Hp) Hd) Ho).
  - apply nth_error_None. apply nth_error_None in Hp. lia.
Qed.

End Zeros.

Section Interp.
Context {R Key : Type} `{Scalar R} `{Prng Key R}.

Local Abbreviation tensor := (Tensor.tensor R).
Local Abbreviation State := (Flora.ScaleByFloraState R Key).

(** The interpolation of one leaf, line 392. *)
Local Abbreviation interp w g u :=
  (rsub rone w *: g +: w *: u)%tensor.

Lemma interp_leaves (w : R) (grads updates : list tensor) :
  map shape updates = map shape grads ->
  tree_map2 (fun g u => add (smul (rsub rone w) g) (smul w u)) grads updates
  = Ok (map (fun p : tensor * tensor => interp w (fst p) (snd p))
            (combine grads updates)).
Proof.
  intros Hs.
  assert (L : length grads = length updates).
  { rewrite <- (length_map shape grads), <- Hs. apply length_map. }
  unfold tree_map2. rewrite L, Nat.eqb_refl.
  apply mapM_pure. apply Forall_nth_error. intros i [g u] Hp.
  apply nth_error_combine_inv in Hp as [Hg Hu]. simpl in Hg, Hu. simpl.
  apply (add_ok (shape g)); [reflexivity |]. simpl.
  pose proof (map_nth_error shape i grads Hg) as E1.
  pose proof (map_nth_error shape i updates Hu) as E2.
  rewrite Hs in E2. congruence.
Qed.

Lemma map_fst_combine {A B C : Type} (f : A -> C) (xs : list A) :
  forall ys : list B,
    length xs = length ys ->
    map (fun p : A * B => f (fst p)) (combine xs ys) = map f xs.
Proof.
  induction xs as [| x xs IH]; intros [| y ys] L; simpl in *; try discriminate;
    [reflexivity |].
  f_equal. apply IH. lia.
Qed.

(** X17: [scale_by_interp] without a transform, on gradients and updates
    of the same shapes leaf by leaf, returns the state it was given and
    for every leaf [(1 - weight) * g + weight * u], of the shape of the
    gradient; with or without a transform, updates with another number of
    leaves than the gradients are a ValueError, and so is the call
    without [updates], whose default is [None], on any container of
    gradients, the empty one too. *)
Theorem interp_update_on_matching_trees :
  forall (weight : R) (grads updates : list tensor) (state : EmptyState),
    (map shape updates = map shape grads ->
     exists out,
       interp_update_fn weight None grads state (Some updates) = Ok (out, state)
       /\ map shape out = map shape grads
       /\ forall i g u,
           nth_error grads i = Some g -> nth_error updates i = Some u ->
           nth_error out i = Some (interp weight g u))
    /\ (forall transform_fn,
           length updates <> length grads ->
           interp_update_fn weight transform_fn grads state (Some updates)
           = Err ValueError)
    /\ (forall transform_fn,
           interp_update_fn weight transform_fn grads state None = Err ValueError).
Proof.
  intros w grads updates state. split; [| split].
  - intros Hs. unfold interp_update_fn. cbn [bind].
    rewrite (interp_leaves w grads updates Hs). cbn [bind].
    assert (L : length grads = length updates).
    { rewrite <- (length_map shape grads), <- Hs. apply length_map. }
    eexists. split; [reflexivity |]. split.
    + rewrite map_map. exact (map_fst_combine shape grads updates L).
    + intros i g u Hg Hu. rewrite nth_error_map.
      now rewrite (nth_error_combine grads updates i g u Hg Hu).
  - intros tf Hne. unfold interp_update_fn, tree_map2. cbn [bind].
    destruct (Nat.eqb_spec (length grads) (length updates)) as [E | _];
      [now elim Hne | reflexivity].
  - intros tf. reflexivity.
Qed.

Variable cfg : Config R.

Lemma muls_is_smul (c : R) (t : tensor) :
  (forall x y : R, rmul x y = rmul y x) -> muls t c = smul c t.
Proof.
  intros Hcomm. unfold muls, smul, tmap. f_equal.
  apply map_ext. intros x. apply Hcomm.
Qed.

Lemma plus_comm (a b : tensor) :
  (forall x y : R, radd x y = radd y x) ->
  shape a = shape b -> plus a b = plus b a.
Proof.
  intros Hcomm Hs. unfold plus. rewrite Hs. f_equal.
  generalize (data b) as db. induction (data a) as [| x da IH]; intros [| y db];
    simpl; try reflexivity.
  now rewrite Hcomm, IH.
Qed.

(** X18: where scalar addition and multiplication commute, the updates
    [update_fn] of [scale_by_flora] emits on a reachable state are those
    [scale_by_interp] with [weight = beta] computes from the gradients and
    the queried moments. *)
Theorem flora_emits_the_interpolation :
  (forall x y : R, rmul x y = rmul y x) ->
  (forall x y : R, radd x y = radd y x) ->
  forall (params grads : list tensor) (st : State),
    reachable cfg params st ->
    fits params grads ->
    exists q u st',
      query cfg grads st = Ok q
      /\ update_fn cfg grads st = Ok (u, st')
      /\ interp_update_fn (beta cfg) None grads empty_state (Some q)
         = Ok (u, empty_state).
Proof.
  intros Hmul Hadd params grads st Hreach [Hs Hw].
  pose proof (reachable_state_ok cfg params st Hreach) as Hok.
  destruct (update_fn_ok cfg _ grads st Hok Hs Hw) as (q & st' & Hq & _ & _ & Hfn).
  destruct (query_ok cfg _ grads st Hok Hs) as (q' & Hq' & Hqs & _).
  assert (q' = q) by congruence. subst q'.
  assert (Hsq : map shape q = map shape grads).
  { rewrite Hs. clear - Hqs. induction Hqs as [| s t ss ts [Hst _] _ IH]; simpl;
      [reflexivity | now rewrite Hst, IH]. }
  exists q. eexists. exists st'. split; [exact Hq |]. split; [exact Hfn |].
  unfold interp_update_fn. cbn [bind].
  rewrite (interp_leaves (beta cfg) grads q Hsq).
  cbn [bind]. do 2 f_equal.
  clear - Hmul Hadd Hsq. revert grads Hsq.
  induction q as [| m q IH]; intros [| g grads] Hsq; simpl in *;
    try discriminate; [reflexivity |].
  inversion Hsq as [[Hmg Hrest]]. f_equal; [| now apply IH].
  unfold emitted. rewrite !muls_is_smul by exact Hmul.
  apply plus_comm; [exact Hadd | simpl; congruence].
Qed.

End Interp.

End EstimatorMore.

(** ** The sample instances *)

Module SampleMore.
Import Tensor Flora Inv ResultFacts TensorFacts LeafFacts StateFacts Sample SampleFacts.
Import LoaderMore ChainMore EstimatorMore.

(** Ten rows in batches of three, the last one dropped. *)
Lemma drop_last_batches_are_full_witness :
  3 <> 0
  /\ length (seq 0 10) = 10
  /\ exists batches,
      Loader.batch_indices (fun (_ : nat) n => seq 0 n) 0 10 3 false true = Ok batches
      /\ length batches = 3
      /\ Forall (fun b => length b = 3) batches.
Proof.
  assert (Hbs : 3 <> 0) by discriminate.
  assert (Hsrc : length (seq 0 10) = 10) by reflexivity.
  split; [exact Hbs |]. split; [exact Hsrc |].
  destruct (drop_last_batches_are_full nat (fun (_ : nat) n => seq 0 n)
              0 10 3 false Hbs Hsrc)
    as (batches & Hb & Hlen & Hfull & _).
  exists batches. split; [exact Hb |]. split; [exact Hlen | exact Hfull].
Defined.

(** Ten rows in batches of at most three, none dropped. *)
Lemma keep_last_batches_partition_witness :
  3 <> 0 /\ 10 <> 0
  /\ length (seq 0 10) = 10
  /\ exists batches,
      Loader.batch_indices (fun (_ : nat) n => seq 0 n) 0 10 3 false false = Ok batches
      /\ concat batches = seq 0 10
      /\ map (@length nat) batches = [3; 3; 2; 2].
Proof.
  assert (Hbs : 3 <> 0) by discriminate.
  assert (Hn : 10 <> 0) by discriminate.
  assert (Hsrc : length (seq 0 10) = 10) by reflexivity.
  split; [exact Hbs |]. split; [exact Hn |]. split; [exact Hsrc |].
  destruct (keep_last_batches_partition nat (fun (_ : nat) n => seq 0 n)
              0 10 3 false Hbs Hn Hsrc)
    as (batches & Hb & _ & Hcat & Hsizes & _).
  exists batches. split; [exact Hb |]. split; [exact Hcat | exact Hsizes].
Defined.

(** An empty dataset with the field [x]. *)
Lemma data_loader_edge_cases_witness :
  Loader.num_rows (Loader.mkDataset 0 [("x"%string, @nil nat)]) = 0
  /\ 3 <> 0
  /\ Loader.data_loader (fun (_ : nat) n => seq 0 n) 0
                        (Loader.mkDataset 0 [("x"%string, @nil nat)]) 3 false true None
     = Ok []
  /\ Loader.data_loader (fun (_ : nat) n => seq 0 n) 0
                        (Loader.mkDataset 0 [("x"%string, @nil nat)]) 3 false false None
     = Err ValueError.
Proof.
  assert (Hbs : 3 <> 0) by discriminate.
  split; [reflexivity |]. split; [exact Hbs |].
  exact (proj2 (data_loader_edge_cases nat nat (fun (_ : nat) n => seq 0 n) 0
                  (Loader.mkDataset 0 [("x"%string, @nil nat)]) false None)
               3 eq_refl Hbs).
Defined.

(** The ten-row dataset in batches of three. *)
Lemma data_loader_batches_have_fields_witness :
  Forall (fun kv : string * list nat => length (snd kv) = 10)
         (Loader.columns Loader.ten_rows)
  /\ Forall (fun i => i < 10) (seq 0 10)
  /\ exists batches,
      Loader.data_loader (fun (_ : nat) n => seq 0 n) 0 Loader.ten_rows 3 false false None
      = Ok batches
      /\ Forall2 (fun (idx : list nat) (b : Loader.Batch nat) =>
                    map fst b = ["x"%string]
                    /\ Forall (fun kv => length (snd kv) = length idx) b)
                 [[0; 1; 2]; [3; 4; 5]; [6; 7]; [8; 9]] batches.
Proof.
  assert (Hwf : Forall (fun kv : string * list nat =>
                          length (snd kv) = Loader.num_rows Loader.ten_rows)
                       (Loader.columns Loader.ten_rows))
    by (repeat constructor).
  assert (Hsrc : Forall (fun i => i < Loader.num_rows Loader.ten_rows)
                        (seq 0 (Loader.num_rows Loader.ten_rows)))
    by (apply Forall_forall; intros i Hi; apply in_seq in Hi; simpl in *; lia).
  split; [exact Hwf |]. split; [exact Hsrc |].
  exact (data_loader_batches_have_fields nat nat (fun (_ : nat) n => seq 0 n) 0
           Loader.ten_rows 3 false false _ Hwf Hsrc eq_refl).
Defined.



(** The layout of the sample state after one update. *)
Lemma reachable_state_layout_witness :
  reachable (cfg true "auto") params (state1 true "auto")
  /\ length (decomposition (state1 true "auto")) = length params.
Proof.
  split; [apply reachable_state1 |].
  exact (proj1 (reachable_state_layout (cfg true "auto") params
                  (state1 true "auto") (reachable_state1 true "auto"))).
Defined.

(** The 2 x 3 sample matrix has [outd = 3 > ind = 2]: with
    [side = "auto"] its right side alone is populated. *)
Lemma side_policy_picks_one_side_witness :
  reachable (cfg false "auto") params (state1 false "auto")
  /\ side (cfg false "auto") = "auto"%string
  /\ exists f,
      nth_error (decomposition (state1 false "auto")) 0
      = Some (TwoSideRandomDecomposition f)
      /\ variant (TwoSideRandomDecomposition f) = VFactored false false true true.
Proof.
  split; [apply reachable_state1 |]. split; [reflexivity |].
  destruct (nth_error (decomposition (state1 false "auto")) 0) as [[x | f] |] eqn:E;
    try (vm_compute in E; discriminate).
  exists f. split; [reflexivity |].
  exact (proj1 (side_policy_picks_one_side (cfg false "auto") params
                  (state1 false "auto") 0 (zeros [2; 3]) f 2 3
                  (reachable_state1 false "auto") eq_refl eq_refl E)
               eq_refl).
Defined.

(** Without [tau], the factorizable sample matrix makes [init_fn] fail;
    a lone vector does not. *)
Lemma init_fn_fails_only_without_tau_witness :
  tau cfg_without_tau = None
  /\ Exists (fun p : tensor Q => should_factorize cfg_without_tau (shape p) = true)
            params
  /\ init_fn cfg_without_tau params = Err TypeError
  /\ exists st, init_fn cfg_without_tau [zeros [3]] = Ok st.
Proof.
  assert (Hex : Exists (fun p : tensor Q =>
                          should_factorize cfg_without_tau (shape p) = true) params)
    by (left; reflexivity).
  split; [reflexivity |]. split; [exact Hex |].
  split.
  - exact (proj1 (init_fn_fails_only_without_tau cfg_without_tau params) eq_refl Hex).
  - apply (proj2 (init_fn_fails_only_without_tau cfg_without_tau [zeros [3]])).
    right. repeat constructor.
Defined.

(** One gradient leaf for the two sample parameters. *)
Lemma tree_mismatch_is_value_error_witness :
  length [ones [3]] <> length (decomposition (state0 false "auto"))
  /\ update_fn (cfg false "auto") [ones [3]] (state0 false "auto") = Err ValueError.
Proof.
  assert (Hne : length [ones [3]] <> length (decomposition (state0 false "auto")))
    by (vm_compute; discriminate).
  split; [exact Hne |].
  exact (proj2 (proj2 (tree_mismatch_is_value_error (cfg false "auto") [ones [3]]
                         (state0 false "auto") Hne))).
Defined.

(** The sample vector is not factorized. *)
Lemma naive_leaf_follows_ema_witness :
  reachable (cfg false "auto") params (state1 false "auto")
  /\ fits params grads
  /\ exists d u st',
      nth_error (decomposition (state1 false "auto")) 1 = Some (NaiveDecomposition d)
      /\ update_fn (cfg false "auto") grads (state1 false "auto") = Ok (u, st')
      /\ nth_error (decomposition st') 1
         = Some (NaiveDecomposition
                   ((9 # 10)%Q *: d +: rsub rone (9 # 10)%Q *: ones [3])%tensor).
Proof.
  split; [apply reachable_state1 |]. split; [exact fits_sample |].
  destruct (nth_error (decomposition (state1 false "auto")) 1) as [[d | f] |] eqn:E;
    try (vm_compute in E; discriminate).
  destruct (naive_leaf_follows_ema (cfg false "auto") params grads
              (state1 false "auto") 1 (ones [3]) d
              (reachable_state1 false "auto") fits_sample eq_refl E)
    as (q & u & st' & _ & _ & Hu & Hd).
  exists d, u, st'. split; [reflexivity |]. split; [exact Hu | exact Hd].
Defined.

(** The second update of the sample state is a partial step. *)
Lemma partial_step_blends_data_witness :
  reachable (cfg true "auto") params (state1 true "auto")
  /\ fits params grads
  /\ (jnp_mod (count (state1 true "auto")) (kappa (cfg true "auto")) =? 0)%Z = false
  /\ exists u st',
      update_fn (cfg true "auto") grads (state1 true "auto") = Ok (u, st').
Proof.
  assert (Hstep : (jnp_mod (count (state1 true "auto")) (kappa (cfg true "auto")) =? 0)%Z
                  = false) by (vm_compute; reflexivity).
  split; [apply reachable_state1 |]. split; [exact fits_sample |].
  split; [exact Hstep |].
  destruct (partial_step_blends_data (cfg true "auto") params grads
              (state1 true "auto") (reachable_state1 true "auto")
              fits_sample Hstep)
    as (u & st' & Hu & _).
  exists u, st'. exact Hu.
Defined.

Lemma emitted_updates_fit_parameters_witness :
  reachable (cfg false "both") params (state1 false "both")
  /\ fits params grads
  /\ exists u st',
      update_fn (cfg false "both") grads (state1 false "both") = Ok (u, st')
      /\ Forall2 has_shape [[2; 3]; [3]] u.
Proof.
  split; [apply reachable_state1 |]. split; [exact fits_sample |].
  exact (emitted_updates_fit_parameters (cfg false "both") params grads
           (state1 false "both") (reachable_state1 false "both") fits_sample).
Defined.

(** The 2 x 3 sample matrix with both sides populated: the first update
    generates each projection from the sub-key [init_fn] used. *)
Lemma first_refresh_reuses_init_keys_witness :
  rng_only (cfg false "both") = false
  /\ init_fn (cfg false "both") params = Ok (state0 false "both")
  /\ fits params grads
  /\ exists u st1 f1,
      update_fn (cfg false "both") grads (state0 false "both") = Ok (u, st1)
      /\ nth_error (decomposition st1) 0 = Some (TwoSideRandomDecomposition f1)
      /\ l_proj f1
         = Some (Materialized (random_generate (split (leaf_key 0 2 0) 2 0) 3 1))
      /\ r_proj f1
         = Some (Materialized (random_generate (split (leaf_key 0 2 0) 2 1) 1 2)).
Proof.
  assert (Hi : init_fn (cfg false "both") params = Ok (state0 false "both"))
    by reflexivity.
  split; [reflexivity |]. split; [exact Hi |]. split; [exact fits_sample |].
  destruct (first_refresh_reuses_init_keys (cfg false "both")
              params grads (state0 false "both") eq_refl Hi fits_sample)
    as (u & st1 & Hu & _ & Hleaf).
  destruct (Hleaf 0 (zeros [2; 3])
              (mkTwoSide (Some (zeros [1; 2]))
                         (Some (Materialized (random_generate (split (leaf_key 0 2 0) 2 0) 3 1)))
                         (Some (zeros [3; 1]))
                         (Some (Materialized (random_generate (split (leaf_key 0 2 0) 2 1) 1 2))))
              eq_refl eq_refl)
    as (ind & outd & t & f1 & Hshape & Htau & Hnth & Hleft & Hright).
  inversion Hshape; subst ind outd. inversion Htau; subst t.
  exists u, st1, f1. split; [exact Hu |]. split; [exact Hnth |].
  split.
  - exact (proj2 (Hleft _ eq_refl)).
  - exact (proj2 (Hright _ eq_refl)).
Defined.

(** One update of the sample parameters. *)
Lemma run_advances_count_and_rng_witness :
  run (cfg false "auto") params [grads] = Ok (state1 false "auto")
  /\ rng (state1 false "auto") = next_rng_key (PRNGKey 0%Z)
  /\ count (state1 false "auto") = 1%Z.
Proof.
  assert (Hrun : run (cfg false "auto") params [grads] = Ok (state1 false "auto"))
    by (vm_compute; reflexivity).
  split; [exact Hrun |].
  destruct (proj1 (run_advances_count_and_rng (cfg false "auto")) params [grads]
              (state1 false "auto") Hrun)
    as [Hr Hc].
  split; [exact Hr |]. apply Hc. reflexivity.
Defined.

(** Integer scalars satisfy the zero laws. *)
Lemma initial_moment_is_zero_witness :
  (forall x : Z, rmul x rzero = rzero)
  /\ (forall x : Z, rmul rzero x = rzero)
  /\ radd (rzero : Z) rzero = rzero
  /\ (forall c : Z, rdiv rzero c = rzero)
  /\ init_fn (cfgZ true "both") paramsZ = Ok (stateZ true "both")
  /\ query (cfgZ true "both") gradsZ (stateZ true "both")
     = Ok [zeros [2; 3]; zeros [3]].
Proof.
  assert (Hi : init_fn (cfgZ true "both") paramsZ = Ok (stateZ true "both"))
    by reflexivity.
  split; [exact Z.mul_0_r |]. split; [exact Z.mul_0_l |].
  split; [reflexivity |]. split; [exact Zdiv_0_l |]. split; [exact Hi |].
  exact (initial_moment_is_zero Z.mul_0_r Z.mul_0_l eq_refl Zdiv_0_l
           (cfgZ true "both") paramsZ gradsZ (stateZ true "both") Hi eq_refl).
Defined.

(** The sample gradients against the sample parameters, and against a
    tree of one leaf. *)
Lemma interp_update_on_matching_trees_witness :
  map shape grads = map shape params
  /\ (exists out,
         interp_update_fn (9 # 10)%Q None params empty_state (Some grads)
         = Ok (out, empty_state)
         /\ map shape out = map shape params)
  /\ length [ones [3]] <> length params
  /\ interp_update_fn (9 # 10)%Q None params empty_state (Some [ones [3]])
     = Err ValueError.
Proof.
  assert (Hne : length [ones [3]] <> length params) by (simpl; lia).
  split; [reflexivity |]. split.
  - destruct (proj1 (interp_update_on_matching_trees (9 # 10)%Q params grads
                       empty_state) eq_refl)
      as (out & Ho & Hs & _).
    exists out. split; [exact Ho | exact Hs].
  - split; [exact Hne |].
    exact (proj1 (proj2 (interp_update_on_matching_trees (9 # 10)%Q params
                           [ones [3]] empty_state))
                 None Hne).
Defined.

(** Integer addition and multiplication commute. *)
Lemma flora_emits_the_interpolation_witness :
  (forall x y : Z, rmul x y = rmul y x)
  /\ (forall x y : Z, radd x y = radd y x)
  /\ reachable (cfgZ false "auto") paramsZ (stateZ false "auto")
  /\ fits paramsZ gradsZ
  /\ exists q u st',
      query (cfgZ false "auto") gradsZ (stateZ false "auto") = Ok q
      /\ update_fn (cfgZ false "auto") gradsZ (stateZ false "auto") = Ok (u, st')
      /\ interp_update_fn 3%Z None gradsZ empty_state (Some q) = Ok (u, empty_state).
Proof.
  assert (Hreach : reachable (cfgZ false "auto") paramsZ (stateZ false "auto"))
    by (apply reachable_init; reflexivity).
  assert (Hfits : fits paramsZ gradsZ) by (split; [reflexivity | repeat constructor]).
  split; [exact Z.mul_comm |]. split; [exact Z.add_comm |].
  split; [exact Hreach |]. split; [exact Hfits |].
  exact (flora_emits_the_interpolation (cfgZ false "auto") Z.mul_comm Z.add_comm
           paramsZ gradsZ (stateZ false "auto") Hreach Hfits).
Defined.

End SampleMore.
